(** * Caterwaul: a shallow embedding of the syntax engine of [caterwaul.js]

    The development follows the source file top to bottom: the utility
    functions and hashed tables, the [syntax_node] class over an explicit
    store of node records, the traversal functions ([map], [rmap], [s],
    [flatten]), the serializer, the lexer and the parser ([parse]), the
    pattern matcher ([macro_try_match]) and the macro expander
    ([macro_expand]).  Theorems come after the definitions. *)

From Stdlib Require Import String Ascii ZArith Lia List Bool Arith.
From stdpp Require Import base list.
Import ListNotations.

Local Open Scope string_scope.
Local Open Scope list_scope.
Local Open Scope nat_scope.

(** ** Strings as JavaScript uses them *)

Module JsString.

(** [s.charCodeAt(i)]: [None] stands for [NaN] (index out of range). *)
Definition charCodeAt (s : string) (i : nat) : option nat :=
  match String.get i s with
  | Some a => Some (nat_of_ascii a)
  | None => None
  end.

(** [s.charAt(i)]: the empty string when out of range. *)
Definition charAt (s : string) (i : nat) : string :=
  match String.get i s with
  | Some a => String a EmptyString
  | None => EmptyString
  end.

(** [s.substring(a, b)]: the arguments are swapped when [a > b] and both
    are clamped to the length of [s]. *)
Definition substring (s : string) (a b : nat) : string :=
  String.substring (Nat.min a b) (Nat.max a b - Nat.min a b) s.

(** A string is truthy when it is not empty. *)
Definition truthy (s : string) : bool :=
  match s with EmptyString => false | _ => true end.

(** [xs.join(sep)] on an array of strings. *)
Fixpoint join (sep : string) (xs : list string) : string :=
  match xs with
  | [] => ""
  | [x] => x
  | x :: rest => x ++ sep ++ join sep rest
  end.

Definition is_space_char (a : ascii) : bool :=
  match nat_of_ascii a with
  | 9 | 10 | 11 | 12 | 13 | 32 => true
  | _ => false
  end.

(** [s.split(/\s+/)]: [insep] says that the scan is inside a run of
    white space, [cur] is the piece being read. *)
Fixpoint split_ws (insep : bool) (cur : string) (s : string) : list string :=
  match s with
  | EmptyString => [cur]
  | String a rest =>
      if is_space_char a
      then (if insep then split_ws true cur rest
            else cur :: split_ws true "" rest)
      else split_ws false (cur ++ String a "") rest
  end.

(** The character class [\w] of regular expressions. *)
Definition is_word_code (n : nat) : bool :=
  ((48 <=? n) && (n <=? 57)) || ((65 <=? n) && (n <=? 90))
  || ((97 <=? n) && (n <=? 122)) || (n =? 95).

(** [/\w/.test(s.charAt(s.length - 1))] *)
Definition last_is_word (s : string) : bool :=
  match String.length s with
  | O => false
  | S k => match charCodeAt s k with
           | Some n => is_word_code n
           | None => false
           end
  end.

(** [s.replace(/^u/, '')] *)
Definition strip_leading_u (s : string) : string :=
  match s with
  | String a rest => if Ascii.eqb a "u"%char then rest else s
  | EmptyString => s
  end.

End JsString.

(** ** Utility functions: [qw], [hash], [annotate_keys], [has] *)

Definition qw (s : string) : list string := JsString.split_ws false "" s.

(** An object used as a hash: its own enumerable keys in insertion order with
    their values, and the [_max_length] annotation. *)
Record table (V : Type) : Type := Table {
  entries : list (string * V);
  max_length : nat
}.
Arguments Table {V} _ _.
Arguments entries {V} _.
Arguments max_length {V} _.

Definition key_present {V} (k : string) (es : list (string * V)) : bool :=
  existsb (fun e => String.eqb (fst e) k) es.

(** [o[k] = v]: an existing key keeps its place. *)
Fixpoint assign {V} (k : string) (v : V) (es : list (string * V)) : list (string * V) :=
  match es with
  | [] => [(k, v)]
  | (k', v') :: rest =>
      if String.eqb k' k then (k, v) :: rest else (k', v') :: assign k v rest
  end.

(** [annotate_keys]: the longest own key is recorded in [_max_length]. *)
Definition annotate_keys {V} (es : list (string * V)) : table V :=
  Table es (fold_left (fun m e => Nat.max m (String.length (fst e))) es 0).

Definition hash (s : string) : table bool :=
  annotate_keys (fold_left (fun o k => assign k true o) (qw s) []).

(** [own.call(o, p)]: the annotation is an own property as well. *)
Definition own {V} (o : table V) (p : string) : bool :=
  key_present p (entries o) || String.eqb p "_max_length".

Definition has {V} (o : table V) (p : string) : bool :=
  JsString.truthy p && negb (max_length o <? String.length p) && own o p.

(** [o[p]] *)
Definition lookup_key {V} (o : table V) (p : string) : option V :=
  match find (fun e => String.eqb (fst e) p) (entries o) with
  | Some e => Some (snd e)
  | None => None
  end.

(** The keys that [for (var k in o)] goes through. *)
Definition enum_keys {V} (o : table V) : list string :=
  List.map fst (entries o) ++ ["_max_length"].

(** ** Precomputed table values of the lexer *)

(** [lex_table(s)]: an array of booleans indexed by character code; a look-up
    at [NaN] (here [None]) or past the table is [undefined], hence falsy. *)
Definition lex_table (s : string) (c : option nat) : bool :=
  match c with
  | Some n => existsb (fun a => nat_of_ascii a =? n) (list_ascii_of_string s)
  | None => false
  end.

Definition code_of (a : ascii) : nat := nat_of_ascii a.

Definition lex_op : table bool :=
  hash (". new ++ -- u++ u-- u+ u- typeof u~ u! ! * / % + - << >> >>> < > <= >= instanceof in == != === !== & ^ | && || ? = += -= *= /= %= &= |= ^= <<= >>= >>>= : , "
        ++ "return throw case var const break continue void else u; ;").

Definition lex_float := lex_table ".0123456789".
Definition lex_decimal := lex_table "0123456789".
Definition lex_integer := lex_table "0123456789abcdefABCDEFx".
Definition lex_exp := lex_table "eE".
Definition lex_space := lex_table (String " " (String "010" (String "013" (String "009" "")))).
Definition lex_bracket := lex_table "()[]{}".
Definition lex_opener := lex_table "([{".
Definition lex_punct := lex_table "+-*/%&|^!~=<>?:;.,".
Definition lex_eol := lex_table (String "010" (String "013" "")).
Definition lex_regexp_suffix := lex_table "gims".
Definition lex_quote := lex_table (String "'" (String (ascii_of_nat 34) (String "/" ""))).
Definition lex_slash : nat := code_of "/".
Definition lex_star : nat := code_of "*".
Definition lex_back : nat := code_of "\".
Definition lex_x : nat := code_of "x".
Definition lex_dot : nat := code_of ".".
Definition lex_zero : nat := code_of "0".
Definition lex_postfix_unary : table bool := hash "++ --".
Definition lex_ident :=
  lex_table "$_abcdefghijklmnopqrstuvwxyzABCDEFGHIJKLMNOPQRSTUVWXYZ0123456789".

(** ** Parse data *)

Definition parse_reduce_order : list (table bool) :=
  List.map hash
    ["function"; "( [ . [] ()"; "new"; "u++ u-- ++ -- typeof u~ u! u+ u-"; "* / %"; "+ -";
     "<< >> >>>"; "< > <= >= instanceof in"; "== != === !=="; "&"; "^";
     "|"; "&&"; "||"; "case"; "?"; "= += -= *= /= %= &= |= ^= <<= >>= >>>="; ":"; ",";
     "return throw break continue delete void"; "var const";
     "if else try catch finally for switch with while do"; ";"].

Definition parse_associates_right : table bool :=
  hash "= += -= *= /= %= &= ^= |= <<= >>= >>>= ~ ! new typeof u+ u- -- ++ u-- u++ ? if else function try catch finally for switch case with while do".

(** [parse_inverse_order]: operator name to index in [parse_reduce_order]. *)
Definition parse_inverse_order : table nat :=
  annotate_keys
    (fold_left
       (fun o ix =>
          fold_left (fun o k => if has (snd ix) k then assign k (fst ix) o else o)
                    (enum_keys (snd ix)) o)
       (combine (seq 0 (List.length parse_reduce_order)) parse_reduce_order) []).

(** [parse_index_forward]: the inner loop stops at the first key that leaves
    the flag true. *)
Fixpoint index_forward_keys (grp : table bool) (ks : list string) (flag : bool) : bool :=
  match ks with
  | [] => flag
  | k :: rest =>
      if has grp k
      then (let flag' := flag && negb (has parse_associates_right k) in
            if flag' then flag' else index_forward_keys grp rest flag')
      else index_forward_keys grp rest flag
  end.

Definition parse_index_forward : list bool :=
  List.map (fun grp => index_forward_keys grp (enum_keys grp) true) parse_reduce_order.

Definition parse_lr : table bool :=
  hash "[] . () * / % + - << >> >>> < > <= >= instanceof in == != === !== & ^ | && || = += -= *= /= %= &= |= ^= <<= >>= >>>= , : ;".
Definition parse_r_until_block : table nat :=
  annotate_keys [("function", 2); ("if", 1); ("do", 1); ("catch", 1); ("try", 1);
                 ("for", 1); ("while", 1); ("with", 1)].
Definition parse_accepts : table string :=
  annotate_keys [("if", "else"); ("do", "while"); ("catch", "finally"); ("try", "catch")].
Definition parse_invocation : table bool := hash "[] ()".
Definition parse_r_optional : table bool := hash "return throw break continue else".
Definition parse_l : table bool := hash "++ --".
Definition parse_r : table bool :=
  hash "u+ u- u! u~ u++ u-- new typeof finally var const void delete".
Definition parse_block : table bool := hash "; {".
Definition parse_group : table string :=
  annotate_keys [("(", ")"); ("[", "]"); ("{", "}"); ("?", ":")].
Definition parse_invisible : table bool := hash "i;".
Definition parse_ambiguous_group : table bool := hash "[ (".
Definition parse_ternary : table bool := hash "?".
Definition parse_not_a_value : table bool := hash "function if for while catch".
Definition parse_also_expression : table bool := hash "function".

Example parse_index_forward_value :
  parse_index_forward =
  [false; true; false; false; true; true; true; true; true; true; true; true; true; true;
   false; false; false; true; true; true; true; false; true].
Proof. vm_compute. reflexivity. Qed.

Example parse_inverse_order_new : lookup_key parse_inverse_order "new" = Some 2.
Proof. vm_compute. reflexivity. Qed.

Example has_lex_op_neq : has lex_op "!==" = true /\ has lex_op "~" = false.
Proof. vm_compute. split; reflexivity. Qed.

(** ** Outcomes of running JavaScript code *)

(** What a call can end in: a value, a thrown error, or the step budget of
    the model running out (the model of a call that has not returned yet). *)
Inductive error : Type :=
  | TypeError                       (* a property of null or undefined was read *)
  | InternalError (msg : string).   (* [throw new Error(msg)] *)

Inductive outcome (A : Type) : Type :=
  | Ok (a : A)
  | Throw (e : error)
  | Timeout.
Arguments Ok {A} _.
Arguments Throw {A} _.
Arguments Timeout {A}.

Definition obind {A B} (x : outcome A) (f : A -> outcome B) : outcome B :=
  match x with
  | Ok a => f a
  | Throw e => Throw e
  | Timeout => Timeout
  end.

Declare Scope js_scope.
Delimit Scope js_scope with js.
Notation "'let*' x ':=' c 'in' k" := (obind c (fun x => k))
  (at level 10, x pattern, c at level 100, k at level 200) : js_scope.
Local Open Scope js_scope.

(** ** Syntax data structures *)

(** Nodes live in a store and are referred to by their address; a JavaScript
    value that is a node or null/undefined is an [option loc].  The code
    tells null and undefined apart nowhere (it tests them by truthiness), so
    both are [None]. *)
Definition loc := nat.
Definition value := option loc.

(** The fields of a [syntax_node]: [data], the indexed children [this[0]],
    ..., [this[length - 1]] (a child may be null), and the links [l], [r],
    [p].  [length] is the length of [kids]. *)
Record syntax_node : Type := SyntaxNode {
  data : string;
  kids : list value;
  l : value;
  r : value;
  p : value
}.

(** The store: the node at address [n] is the [n]-th record; [new] appends. *)
Abbreviation heap := (list syntax_node).

(** [new syntax_node(data)]: [this.length = 0; this.l = this.r = this.p = null]. *)
Definition blank (d : string) : syntax_node := SyntaxNode d [] None None None.

Definition get (h : heap) (n : loc) : syntax_node := nth n h (blank "").

Definition set (h : heap) (n : loc) (x : syntax_node) : heap := <[n := x]> h.

Definition alloc (h : heap) (d : string) : loc * heap := (List.length h, h ++ [blank d]).

Definition with_kids (x : syntax_node) (ks : list value) : syntax_node :=
  SyntaxNode (data x) ks (l x) (r x) (p x).
Definition with_l (x : syntax_node) (v : value) : syntax_node :=
  SyntaxNode (data x) (kids x) v (r x) (p x).
Definition with_r (x : syntax_node) (v : value) : syntax_node :=
  SyntaxNode (data x) (kids x) (l x) v (p x).
Definition with_p (x : syntax_node) (v : value) : syntax_node :=
  SyntaxNode (data x) (kids x) (l x) (r x) v.

Definition set_l (h : heap) (n : loc) (v : value) : heap := set h n (with_l (get h n) v).
Definition set_r (h : heap) (n : loc) (v : value) : heap := set h n (with_r (get h n) v).
Definition set_p (h : heap) (n : loc) (v : value) : heap := set h n (with_p (get h n) v).
Definition set_kids (h : heap) (n : loc) (ks : list value) : heap :=
  set h n (with_kids (get h n) ks).

(** [n[i]]: [undefined] past the children. *)
Definition kid (h : heap) (n : loc) (i : nat) : value := nth i (kids (get h n)) None.
Definition node_length (h : heap) (n : loc) : nat := List.length (kids (get h n)).

(** [x.prop] throws when [x] is null or undefined. *)
Definition deref (v : value) : outcome loc :=
  match v with
  | Some n => Ok n
  | None => Throw TypeError
  end.

Definition value_eqb (a b : value) : bool :=
  match a, b with
  | Some x, Some y => x =? y
  | None, None => true
  | _, _ => false
  end.

Module Node.

(** [push: fn('(this[@length++] = $0), this')] *)
Definition push (h : heap) (this : loc) (x : value) : heap :=
  set_kids h this (kids (get h this) ++ [x]).

(** [pop: fn('--@length, this')]; the slot past the new length is never
    read before [append] writes it again. *)
Definition pop (h : heap) (this : loc) : heap :=
  set_kids h this (removelast (kids (get h this))).

(** [append: fn('(this[@length++] = $0) && ($0.p = this), this')] *)
Definition append (h : heap) (this : loc) (x : value) : heap :=
  let h1 := push h this x in
  match x with
  | Some c => set_p h1 c (Some this)
  | None => h1
  end.

(** [append_to: fn('$0 && $0.append(this), this')] *)
Definition append_to (h : heap) (this : loc) (x : value) : heap :=
  match x with
  | Some parent => append h parent (Some this)
  | None => h
  end.

(** [replace: fn('($0.l = @l) && (@l.r = $0), ($0.r = @r) && (@r.l = $0), this')] *)
Definition replace (h : heap) (this : loc) (x : loc) : heap :=
  let h1 := set_l h x (l (get h this)) in
  let h2 := match l (get h1 this) with
            | Some tl => set_r h1 tl (Some x)
            | None => h1
            end in
  let h3 := set_r h2 x (r (get h2 this)) in
  match r (get h3 this) with
  | Some tr => set_l h3 tr (Some x)
  | None => h3
  end.

(** [reparent: fn('@p && @p[0] === this && (@p[0] = $0), this')] *)
Definition reparent (h : heap) (this : loc) (x : value) : heap :=
  match p (get h this) with
  | Some par =>
      match kids (get h par) with
      | Some first :: rest =>
          if first =? this then set_kids h par (x :: rest) else h
      | _ => h
      end
  | None => h
  end.

(** [sibling: fn('$0.p = @p, (@r = $0).l = this')] *)
Definition sibling (h : heap) (this : loc) (x : loc) : heap :=
  let h1 := set_p h x (p (get h this)) in
  let h2 := set_r h1 this (Some x) in
  set_l h2 x (Some this).

(** [unlink: fn('@l && (@l.r = @r), @r && (@r.l = @l), @l = @r = null, @reparent($0)')] *)
Definition unlink (h : heap) (this : loc) (x : value) : heap :=
  let h1 := match l (get h this) with
            | Some tl => set_r h tl (r (get h this))
            | None => h
            end in
  let h2 := match r (get h1 this) with
            | Some tr => set_l h1 tr (l (get h1 this))
            | None => h1
            end in
  let h3 := set_l (set_r h2 this None) this None in
  reparent h3 this x.

(** [wrap: fn('$0.p = @replace($0).p, @reparent($0), @l = @r = null, @append_to($0)')] *)
Definition wrap (h : heap) (this : loc) (x : loc) : heap :=
  let h1 := replace h this x in
  let h2 := set_p h1 x (p (get h1 this)) in
  let h3 := reparent h2 this (Some x) in
  let h4 := set_l (set_r h3 this None) this None in
  append_to h4 this (Some x).

(** [fold_l: fn('@append(@l && @l.unlink(this))')] *)
Definition fold_l (h : heap) (this : loc) : heap :=
  match l (get h this) with
  | Some tl => append (unlink h tl (Some this)) this (Some tl)
  | None => append h this None
  end.

(** [fold_r: fn('@append(@r && @r.unlink(this))')] *)
Definition fold_r (h : heap) (this : loc) : heap :=
  match r (get h this) with
  | Some tr => append (unlink h tr (Some this)) this (Some tr)
  | None => append h this None
  end.

(** [fold_lr: fn('@fold_l().fold_r()')] *)
Definition fold_lr (h : heap) (this : loc) : heap := fold_r (fold_l h this) this.

(** [fold_rr: fn('@fold_r().fold_r()')] *)
Definition fold_rr (h : heap) (this : loc) : heap := fold_r (fold_r h this) this.

End Node.

(** ** Traversal functions *)

Section Traversal.

(** The mapping functions handed to [map] and [rmap] are JavaScript
    closures: they read and write the store and their own captured
    variables, whose state has type [S]. *)
Context {S : Type}.

Definition world : Type := heap * S.
Definition action (A : Type) : Type := world -> outcome (A * world).

(** The loop of [map]: [for (...; i < l; ++i) n.push(f(this[i], i) || this[i])]. *)
Fixpoint map_loop (f : value -> nat -> action value) (this n : loc)
         (i count : nat) (w : world) : outcome world :=
  match count with
  | O => Ok w
  | Datatypes.S count' =>
      let* (v, (h1, s1)) := f (kid (fst w) this i) i w in
      let pushed := match v with Some _ => v | None => kid h1 this i end in
      map_loop f this n (Datatypes.S i) count' (Node.push h1 n pushed, s1)
  end.

(** [map: function (f) {for (var n = new syntax_node(this.data), i = 0,
    l = this.length; i < l; ++i) n.push(f(this[i], i) || this[i]); return n}] *)
Definition map (f : value -> nat -> action value) (this : loc) : action loc :=
  fun w =>
    let '(n, h1) := alloc (fst w) (data (get (fst w) this)) in
    let* w' := map_loop f this n 0 (node_length h1 this) (h1, snd w) in
    Ok (n, w').

(** [rmap: function (f) {var r = f(this); return ! r || r === this ?
    this.map(function (n) {return n && n.rmap(f)}) : r}] *)
Fixpoint rmap (fuel : nat) (f : loc -> action value) (this : loc) : action loc :=
  fun w =>
    match fuel with
    | O => Timeout
    | Datatypes.S fuel' =>
        let* (r, w1) := f this w in
        let descend :=
          map (fun c _ w2 =>
                 match c with
                 | Some n => let* (n', w3) := rmap fuel' f n w2 in Ok (Some n', w3)
                 | None => Ok (None, w2)
                 end) this w1 in
        match r with
        | None => descend
        | Some r' => if r' =? this then descend else Ok (r', w1)
        end
    end.

End Traversal.

(** The second argument of [s]: an array of replacements or one node. *)
Inductive replacements : Type :=
  | Many (xs : list value)
  | One (x : loc).

(** [function (n) {return n.data === data && xs[i++ % xs.length]}]; the
    captured counter [i] is the state of the closure. *)
Definition s_many (key : string) (xs : list value) (n : loc) : @action nat value :=
  fun w =>
    if String.eqb (data (get (fst w) n)) key
    then Ok (nth (snd w mod List.length xs) xs None, (fst w, Datatypes.S (snd w)))
    else Ok (None, w).

(** [function (n) {return n.data === data && xs}] *)
Definition s_one (key : string) (x : loc) (n : loc) : @action unit value :=
  fun w => if String.eqb (data (get (fst w) n)) key then Ok (Some x, w) else Ok (None, w).

(** [s: function (data, xs) {if (xs.constructor === Array) {var i = 0;
    return this.rmap(...)} else return this.rmap(...)}] *)
Definition s (fuel : nat) (this : loc) (key : string) (xs : replacements) (h : heap)
  : outcome (loc * heap) :=
  match xs with
  | Many ys =>
      let* (n, (h', _)) := rmap fuel (s_many key ys) this (h, 0) in Ok (n, h')
  | One x =>
      let* (n, (h', _)) := rmap fuel (s_one key x) this (h, tt) in Ok (n, h')
  end.

(** ** Structural transformation *)

(** [for (var i = this; i && i.data === d; i = i[1]) n.push(i[0]); n.push(i)] *)
Fixpoint flatten_right (fuel : nat) (d : string) (n : loc) (i : value) (h : heap)
  : outcome heap :=
  match fuel with
  | O => Timeout
  | Datatypes.S fuel' =>
      match i with
      | Some x =>
          if String.eqb (data (get h x)) d
          then (let h1 := Node.push h n (kid h x 0) in
                flatten_right fuel' d n (kid h1 x 1) h1)
          else Ok (Node.push h n i)
      | None => Ok (Node.push h n i)
      end
  end.

(** [for (var i = this, ns = []; i.data === d; i = i[0]) i[1] && ns.push(i[1]);
    ns.push(i)] *)
Fixpoint flatten_left (fuel : nat) (d : string) (i : value) (ns : list value) (h : heap)
  : outcome (list value) :=
  match fuel with
  | O => Timeout
  | Datatypes.S fuel' =>
      let* x := deref i in
      if String.eqb (data (get h x)) d
      then flatten_left fuel' d (kid h x 0)
             (match kid h x 1 with Some _ => ns ++ [kid h x 1] | None => ns end) h
      else Ok (ns ++ [i])
  end.

(** [flatten]; [se(x, f)] returns [x] since the function returns nothing. *)
Definition flatten (fuel : nat) (this : loc) (h : heap) : outcome (loc * heap) :=
  let d := data (get h this) in
  if negb (has parse_lr d && negb (node_length h this =? 0)) then Ok (this, h)
  else if has parse_associates_right d then
    let '(n, h1) := alloc h d in
    let* h2 := flatten_right fuel d n (Some this) h1 in
    Ok (n, h2)
  else
    let '(n, h1) := alloc h d in
    let* ns := flatten_left fuel d (Some this) [] h1 in
    (* for (i = ns.length - 1; i >= 0; --i) n.push(ns[i]) *)
    Ok (n, fold_left (fun h' v => Node.push h' n v) (rev ns) h1).

(** ** Matching *)

(** The loop of [macro_try_match] over the children, [recur] being the
    recursive call:
    [for (var i = 0, l = pattern.length, wildcards = [], match = null; i < l; ++i)
       if (match = macro_try_match(pattern[i], t[i])) wildcards = wildcards.concat(match);
       else return null;
     return wildcards] *)
Fixpoint match_loop (recur : value -> value -> outcome (option (list value)))
         (h : heap) (pn tn : loc) (count i : nat) (wildcards : list value)
  : outcome (option (list value)) :=
  match count with
  | O => Ok (Some wildcards)
  | Datatypes.S count' =>
      let* m := recur (kid h pn i) (kid h tn i) in
      match m with
      | Some ws => match_loop recur h pn tn count' (Datatypes.S i) (wildcards ++ ws)
      | None => Ok None
      end
  end.

(** [macro_try_match]: [Ok None] is the null of a failed match, [Ok (Some ws)]
    the array of wildcards. *)
Fixpoint macro_try_match (fuel : nat) (h : heap) (pattern t : value)
  : outcome (option (list value)) :=
  match fuel with
  | O => Timeout
  | Datatypes.S fuel' =>
      let* pn := deref pattern in
      if String.eqb (data (get h pn)) "_" then Ok (Some [t])
      else
        let* tn := deref t in
        if negb (String.eqb (data (get h pn)) (data (get h tn)))
           || negb (node_length h pn =? node_length h tn)
        then Ok None
        else match_loop (macro_try_match fuel' h) h pn tn (node_length h pn) 0 []
  end.

(** ** Expansion *)

Section Expansion.

Context {S : Type}.

(** An expander is called with the wildcards as its arguments (and
    [context] as [this], which the closure has captured here). *)
Definition expander : Type := list value -> @action S value.

(** The function that [macro_expand] hands to [rmap], from index [i] on:
    [for (var i = 0, l = macros.length, ...; i < l && (macro = macros[i]); ++i)
       if ((match = macro_try_match(macro, n)) &&
           (replacement = expanders[i].apply(context, match))) return replacement] *)
Fixpoint visit_from (mfuel : nat) (macros : list value) (expanders : list expander)
         (count i : nat) (n : loc) : @action S value :=
  fun w =>
    match count with
    | O => Ok (None, w)
    | Datatypes.S count' =>
        match nth i macros None with
        | None => Ok (None, w)
        | Some macro =>
            let* m := macro_try_match mfuel (fst w) (Some macro) (Some n) in
            match m with
            | None => visit_from mfuel macros expanders count' (Datatypes.S i) n w
            | Some ws =>
                match nth_error expanders i with
                | None => Throw TypeError
                | Some e =>
                    let* (replacement, w1) := e ws w in
                    match replacement with
                    | Some _ => Ok (replacement, w1)
                    | None =>
                        visit_from mfuel macros expanders count' (Datatypes.S i) n w1
                    end
                end
            end
        end
    end.

Definition visit (mfuel : nat) (macros : list value) (expanders : list expander)
  : loc -> @action S value :=
  visit_from mfuel macros expanders (List.length macros) 0.

(** [macro_expand = function (t, macros, expanders, context) {return t.rmap(...)}] *)
Definition macro_expand (fuel mfuel : nat) (t : loc) (macros : list value)
           (expanders : list expander) : @action S loc :=
  rmap fuel (visit mfuel macros expanders) t.

End Expansion.

(** ** Serialization *)

(** [syntax_node_tostring] on a node or null; [serialize] itself appends a
    stray right link as a comment. *)
Fixpoint serialize (fuel : nat) (h : heap) (this : loc) : outcome string :=
  match fuel with
  | O => Timeout
  | Datatypes.S fuel' =>
      let tostring (v : value) : outcome string :=
        match v with
        | Some n => serialize fuel' h n
        | None => Ok ""
        end in
      let all (vs : list value) : outcome (list string) :=
        fold_right (fun v acc => let* x := tostring v in let* xs := acc in Ok (x :: xs))
                   (Ok []) vs in
      let op := data (get h this) in
      let* right_ := match r (get h this) with
                    | Some rn => let* x := serialize fuel' h rn in Ok ("/* -> " ++ x ++ " */")%string
                    | None => Ok ""
                    end in
      let space := if JsString.last_is_word op then " " else "" in
      let closer := match lookup_key parse_group op with Some c => c | None => "undefined" end in
      let* text :=
        if has parse_invisible op then
          let* xs := all (kids (get h this)) in Ok (JsString.join space xs)
        else if has parse_invocation op then
          let* a := tostring (kid h this 0) in
          let* b := tostring (kid h this 1) in
          Ok (JsString.join space [a; JsString.charAt op 0; b; JsString.charAt op 1])
        else if has parse_ternary op then
          let* a := tostring (kid h this 0) in
          let* b := tostring (kid h this 1) in
          let* c := tostring (kid h this 2) in
          Ok (JsString.join space [a; op; b; closer; c])
        else if has parse_group op then
          let* xs := all (kids (get h this)) in Ok (op ++ JsString.join space xs ++ closer)%string
        else if has parse_lr op then
          if negb (node_length h this =? 0)
          then (let* xs := all (kids (get h this)) in
                Ok (JsString.join (space ++ op ++ space)%string xs))
          else Ok op
        else if has parse_r op || has parse_r_optional op then
          let* a := tostring (kid h this 0) in
          Ok (JsString.strip_leading_u op ++ space ++ a)%string
        else if has parse_r_until_block op then
          if has parse_accepts op
             && match kid h this 1 with
                | Some b => negb (String.eqb (data (get h b)) "{")
                | None => false
                end
             && match kid h this 2, lookup_key parse_accepts op with
                | Some e, Some acc => String.eqb acc (data (get h e))
                | _, _ => false
                end
          then (let* a := tostring (kid h this 0) in
                let* b := tostring (kid h this 1) in
                let* c := tostring (kid h this 2) in
                Ok (op ++ space ++ JsString.join "" [a; b; ";"; c])%string)
          else (let* xs := all (kids (get h this)) in
                Ok (op ++ space ++ JsString.join "" xs)%string)
        else if has parse_l op then
          let* a := tostring (kid h this 0) in Ok (a ++ space ++ op)%string
        else Ok op in
      Ok (if JsString.truthy right_ then (text ++ right_)%string else text)
  end.

(** The tree below a node, as a value: what two parses are compared by. *)
#[local] Unset Elimination Schemes.
Inductive tree : Type := Tree (d : string) (ks : list (option tree)).
#[local] Set Elimination Schemes.

Fixpoint freeze (fuel : nat) (h : heap) (n : loc) : option tree :=
  match fuel with
  | O => None
  | Datatypes.S fuel' =>
      let sub :=
        fold_right (fun v acc =>
                      match v, acc with
                      | Some c, Some xs =>
                          match freeze fuel' h c with
                          | Some t => Some (Some t :: xs)
                          | None => None
                          end
                      | None, Some xs => Some (None :: xs)
                      | _, None => None
                      end) (Some []) (kids (get h n)) in
      match sub with
      | Some ks => Some (Tree (data (get h n)) ks)
      | None => None
      end
  end.

(** ** Parse function: the lexer *)

Module Parse.

(** The token [t]: [false], [true] or a string. *)
Inductive token : Type :=
  | TFalse
  | TTrue
  | TStr (text : string).

(** The lex variables that one iteration of the main loop works on.  [dot]
    and [exp] become 32-bit integers under [|=]. *)
Record cursor : Type := Cursor {
  mark : nat;
  c : option nat;
  re : bool;
  esc : bool;
  dot : Z;
  exp : Z;
  close : nat;
  t : token;
  i : nat
}.

(** The parse variables: the linked structure under construction. *)
Record ribbon : Type := Ribbon {
  grouping_stack : list string;
  gs_top : option string;
  head : value;
  parent : value;
  indexes : list (list loc);
  invocation_nodes : list loc;
  all_nodes : list loc;
  store : heap
}.

Definition to_int32 (z : Z) : Z := ((z + 2 ^ 31) mod 2 ^ 32 - 2 ^ 31)%Z.

(** [x === n] and [x !== n] on a character code that may be [NaN]. *)
Definition code_is (x : option nat) (n : nat) : bool :=
  match x with Some m => m =? n | None => false end.

Section Scan.

Variable s : string.
Let l : nat := String.length s.
Let cs (k : nat) : option nat := JsString.charCodeAt s k.

(** [while (lex_space[c = cs(i)] && i < l) mark = ++i] *)
Fixpoint skip_space (fuel : nat) (k : cursor) : outcome cursor :=
  match fuel with
  | O => Timeout
  | S fuel' =>
      let c1 := cs (i k) in
      if lex_space c1 && (i k <? l)
      then skip_space fuel'
             (Cursor (S (i k)) c1 (re k) (esc k) (dot k) (exp k) (close k) (t k) (S (i k)))
      else Ok (Cursor (mark k) c1 (re k) (esc k) (dot k) (exp k) (close k) (t k) (i k))
  end.

(** [while (++i < l && cs(i) !== lex_slash || cs(i - 1) !== lex_star);] *)
Fixpoint block_comment (fuel : nat) (i0 : nat) : outcome nat :=
  match fuel with
  | O => Timeout
  | S fuel' =>
      let i1 := S i0 in
      if ((i1 <? l) && negb (code_is (cs i1) lex_slash))
         || negb (code_is (cs (i1 - 1)) lex_star)
      then block_comment fuel' i1
      else Ok i1
  end.

(** [while (++i < l && ! lex_eol[cs(i)]);] and the other loops of the
    same shape, over a character class. *)
Fixpoint advance_while (fuel : nat) (cls : option nat -> bool) (i0 : nat) : outcome nat :=
  match fuel with
  | O => Timeout
  | S fuel' =>
      let i1 := S i0 in
      if (i1 <? l) && cls (cs i1) then advance_while fuel' cls i1 else Ok i1
  end.

(** [while (++i < l && (c = cs(i)) !== close || esc) esc = ! esc && c === lex_back;] *)
Fixpoint literal_body (fuel : nat) (cl : nat) (i0 : nat) (c0 : option nat) (esc0 : bool)
  : outcome (nat * option nat * bool) :=
  match fuel with
  | O => Timeout
  | S fuel' =>
      let i1 := S i0 in
      let c1 := if i1 <? l then cs i1 else c0 in
      if ((i1 <? l) && negb (code_is c1 cl)) || esc0
      then literal_body fuel' cl i1 c1 (negb esc0 && code_is c1 lex_back)
      else Ok (i1, c1, esc0)
  end.

(** [while (++i < l && (lex_decimal[c = cs(i)] || (dot ^ (dot |= c === lex_dot)) ||
                       (exp ^ (exp |= lex_exp[c] && ++i))));] *)
Fixpoint float_body (fuel : nat) (i0 : nat) (c0 : option nat) (dot0 exp0 : Z)
  : outcome (nat * option nat * Z * Z) :=
  match fuel with
  | O => Timeout
  | S fuel' =>
      let i1 := S i0 in
      if i1 <? l then
        let c1 := cs i1 in
        if lex_decimal c1 then float_body fuel' i1 c1 dot0 exp0
        else
          let dot1 := to_int32 (Z.lor dot0 (if code_is c1 lex_dot then 1 else 0)) in
          if negb (Z.lxor dot0 dot1 =? 0)%Z then float_body fuel' i1 c1 dot1 exp0
          else
            let i2 := if lex_exp c1 then S i1 else i1 in
            let exp1 := to_int32 (Z.lor exp0 (if lex_exp c1 then Z.of_nat i2 else 0)) in
            if negb (Z.lxor exp0 exp1 =? 0)%Z then float_body fuel' i2 c1 dot1 exp1
            else Ok (i2, c1, dot1, exp1)
      else Ok (i1, c0, dot0, exp0)
  end.

(** [while (i < l && lex_decimal[cs(i)]) ++i;] *)
Fixpoint decimals (fuel : nat) (i0 : nat) : outcome nat :=
  match fuel with
  | O => Timeout
  | S fuel' =>
      if (i0 <? l) && lex_decimal (cs i0) then decimals fuel' (S i0) else Ok i0
  end.

(** [while (i < l && lex_punct[cs(i)] && has(lex_op, t + s.charAt(i))) t += s.charAt(i++);] *)
Fixpoint operator (fuel : nat) (i0 : nat) (t0 : string) : outcome (nat * string) :=
  match fuel with
  | O => Timeout
  | S fuel' =>
      if (i0 <? l) && lex_punct (cs i0) && has lex_op (t0 ++ JsString.charAt s i0)
      then operator fuel' (S i0) (t0 ++ JsString.charAt s i0)
      else Ok (i0, t0)
  end.

(** The branches of the main loop that read one token (or comment),
    after the white space has been skipped and the flags reset. *)
Definition scan (fuel : nat) (k : cursor) : outcome cursor :=
  let c0 := c k in
  let i0 := i k in
  if lex_bracket c0 then
    (* t = !! ++i; re = lex_opener[c] *)
    Ok (Cursor (mark k) c0 (lex_opener c0) (esc k) (dot k) (exp k) (close k) TTrue (S i0))
  else if code_is c0 lex_slash && code_is (cs (i0 + 1)) lex_star then
    (* (i += 2); while (...); t = ! ++i *)
    let* i1 := block_comment fuel (i0 + 2) in
    Ok (Cursor (mark k) c0 (re k) (esc k) (dot k) (exp k) (close k) TFalse (S i1))
  else if code_is c0 lex_slash && code_is (cs (i0 + 1)) lex_slash then
    let* i1 := advance_while fuel (fun x => negb (lex_eol x)) i0 in
    Ok (Cursor (mark k) c0 (re k) (esc k) (dot k) (exp k) (close k) TFalse i1)
  else
    (* lex_quote[c] && (close = c) && re && ! (re = ! (t = s.charAt(i))) *)
    let close1 := if lex_quote c0 then match c0 with Some n => n | None => close k end
                  else close k in
    if lex_quote c0 && re k then
      let* (ic, esc1) := literal_body fuel close1 i0 c0 (esc k) in
      let* i2 := advance_while fuel lex_regexp_suffix (fst ic) in
      Ok (Cursor (mark k) (snd ic) false esc1 (dot k) (exp k) close1 TTrue i2)
    else if code_is c0 lex_zero && lex_integer (cs (i0 + 1)) then
      let* i1 := advance_while fuel lex_integer i0 in
      Ok (Cursor (mark k) c0 false (esc k) (dot k) (exp k) close1 TTrue i1)
    else if lex_float c0 && (negb (code_is c0 lex_dot) || lex_decimal (cs (i0 + 1))) then
      let* (icd, exp1) := float_body fuel i0 c0 (dot k) (exp k) in
      let* i2 := decimals fuel (fst (fst icd)) in
      Ok (Cursor (mark k) (snd (fst icd)) false (esc k) (snd icd) exp1 close1 TTrue i2)
    else if lex_punct c0 then
      (* (t = re ? 'u' : '', re = true) *)
      let* (i1, t1) := operator fuel i0 (if re k then "u" else "") in
      Ok (Cursor (mark k) c0 (negb (has lex_postfix_unary t1)) (esc k) (dot k) (exp k)
                 close1 (TStr t1) i1)
    else
      let* i1 := advance_while fuel lex_ident i0 in
      let t1 := JsString.substring s (mark k) i1 in
      Ok (Cursor (mark k) c0 (has lex_op t1) (esc k) (dot k) (exp k) close1 (TStr t1) i1).

End Scan.

(** [new_node = function (n) {return all_nodes.push(n), n}] *)
Definition new_node (rb : ribbon) (n : loc) : ribbon :=
  Ribbon (grouping_stack rb) (gs_top rb) (head rb) (parent rb) (indexes rb)
         (invocation_nodes rb) (all_nodes rb ++ [n]) (store rb).

Definition with_store (rb : ribbon) (h : heap) : ribbon :=
  Ribbon (grouping_stack rb) (gs_top rb) (head rb) (parent rb) (indexes rb)
         (invocation_nodes rb) (all_nodes rb) h.

(** [new syntax_node(d)] *)
Definition create (rb : ribbon) (d : string) : loc * ribbon :=
  let '(n, h1) := alloc (store rb) d in (n, with_store rb h1).

(** [push = function (n) {return head ? head.sibling(head = n) :
    (head = n.append_to(parent)), new_node(n)}] *)
Definition push (rb : ribbon) (n : loc) : ribbon :=
  let h1 := match head rb with
            | Some hd => Node.sibling (store rb) hd n
            | None => Node.append_to (store rb) n (parent rb)
            end in
  new_node (Ribbon (grouping_stack rb) (gs_top rb) (Some n) (parent rb) (indexes rb)
                   (invocation_nodes rb) (all_nodes rb) h1) n.

(** [indexes[k].push(n)] *)
Definition index_push (ix : list (list loc)) (k : nat) (n : value) : list (list loc) :=
  match n with
  | Some x => <[k := nth k ix [] ++ [x]]> ix
  | None => ix
  end.

(** Grouping and operator indexing for the token [tk]. *)
Definition group (tk : string) (rb : ribbon) : ribbon :=
  if match gs_top rb with Some top => String.eqb tk top | None => false end then
    (* grouping_stack.pop(), gs_top = grouping_stack[grouping_stack.length - 1],
       head = head ? head.p : parent, parent = null *)
    let stack1 := removelast (grouping_stack rb) in
    Ribbon stack1 (last stack1)
           (match head rb with Some hd => p (get (store rb) hd) | None => parent rb end)
           None (indexes rb) (invocation_nodes rb) (all_nodes rb) (store rb)
  else
    let rb2 :=
      if has parse_group tk then
        let closer := match lookup_key parse_group tk with Some x => x | None => "" end in
        let '(n, rb1) := create rb tk in
        let rb1' := push (new_node
                            (Ribbon (grouping_stack rb1 ++ [closer]) (Some closer) (head rb1)
                                    (parent rb1) (indexes rb1) (invocation_nodes rb1)
                                    (all_nodes rb1) (store rb1)) n) n in
        Ribbon (grouping_stack rb1') (gs_top rb1') None (Some n) (indexes rb1')
               (invocation_nodes rb1') (all_nodes rb1') (store rb1')
      else
        let '(n, rb1) := create rb tk in push (new_node rb1 n) n in
    if has parse_inverse_order tk then
      match lookup_key parse_inverse_order tk with
      | Some k =>
          Ribbon (grouping_stack rb2) (gs_top rb2) (head rb2) (parent rb2)
                 (index_push (indexes rb2) k
                             (match head rb2 with Some _ => head rb2 | None => parent rb2 end))
                 (invocation_nodes rb2) (all_nodes rb2) (store rb2)
      | None => rb2
      end
    else rb2.

(** [re |= t === ')' && head.l && has(parse_r_until_block, head.l.data)] *)
Definition regexp_flag (tk : string) (re0 : bool) (rb : ribbon) : outcome bool :=
  if String.eqb tk ")" then
    let* hd := deref (head rb) in
    match l (get (store rb) hd) with
    | Some lft => Ok (re0 || has parse_r_until_block (data (get (store rb) lft)))
    | None => Ok re0
    end
  else Ok re0.

Definition stall_message : string :=
  "Internal error: The lexer failed to consume input and is throwing this error instead of entering an infinite loop. This is probably a Caterwaul bug.".

(** One iteration of the main lex loop, entered with [mark = i < l]. *)
Definition iteration (s : string) (fuel : nat) (k : cursor) (rb : ribbon)
  : outcome (cursor * ribbon) :=
  let* k1 := skip_space s fuel k in
  (* esc = exp = dot = t = false *)
  let k2 := Cursor (mark k1) (c k1) (re k1) false 0%Z 0%Z (close k1) TFalse (i k1) in
  let* k3 := scan s fuel k2 in
  if i k3 =? mark k3 then Throw (InternalError stall_message)
  else
    match t k3 with
    | TFalse => Ok (k3, rb)
    | tok =>
        (* t = t === true ? s.substring(mark, i) : t === 'u;' ? ';' : t *)
        let tk := match tok with
                  | TStr x => if String.eqb x "u;" then ";" else x
                  | _ => JsString.substring s (mark k3) (i k3)
                  end in
        let rb1 := group tk rb in
        let* re1 := regexp_flag tk (re k3) rb1 in
        Ok (Cursor (mark k3) (c k3) re1 (esc k3) (dot k3) (exp k3) (close k3) (TStr tk) (i k3),
            rb1)
    end.

(** [while ((mark = i) < l) {...}] *)
Fixpoint lex_loop (s : string) (fuel : nat) (k : cursor) (rb : ribbon)
  : outcome (cursor * ribbon) :=
  match fuel with
  | O => Timeout
  | S fuel' =>
      let k0 := Cursor (i k) (c k) (re k) (esc k) (dot k) (exp k) (close k) (t k) (i k) in
      if mark k0 <? String.length s then
        let* (k1, rb1) := iteration s fuel' k0 rb in
        lex_loop s fuel' k1 rb1
      else Ok (k0, rb)
  end.

(** The initial values of the lex and parse variables. *)
Definition initial_cursor : cursor := Cursor 0 (Some 0) true false 0%Z 0%Z 0 (TStr "") 0.
Definition initial_ribbon : ribbon :=
  Ribbon [] None None None (List.map (fun _ => []) parse_reduce_order) [] [] [].

Definition lex (fuel : nat) (s : string) : outcome (cursor * ribbon) :=
  lex_loop s fuel initial_cursor initial_ribbon.

(** ** Parse function: the operator fold loop *)

Definition with_invocation (rb : ribbon) (n : loc) : ribbon :=
  Ribbon (grouping_stack rb) (gs_top rb) (head rb) (parent rb) (indexes rb)
         (invocation_nodes rb ++ [n]) (all_nodes rb) (store rb).

Definition right_data (h : heap) (n : loc) : option string :=
  match r (get h n) with
  | Some x => Some (data (get h x))
  | None => None
  end.

(** [node.r && node.r.data !== d] *)
Definition right_is_not (h : heap) (n : loc) (d : string) : bool :=
  match right_data h n with
  | Some x => negb (String.eqb x d)
  | None => false
  end.

(** [for (var count = 0, limit = parse_r_until_block[data]; count < limit &&
    node.r && ! has(parse_block, node.r.data); ++count) node.fold_r()] *)
Fixpoint grab (remaining : nat) (h : heap) (node : loc) : heap :=
  match remaining with
  | O => h
  | S remaining' =>
      match right_data h node with
      | Some d => if has parse_block d then h else grab remaining' (Node.fold_r h node) node
      | None => h
      end
  end.

(** The body of the fold loop for one indexed node. *)
Definition fold_node (node : loc) (rb : ribbon) : outcome ribbon :=
  let h := store rb in
  let d := data (get h node) in
  if has parse_lr d then Ok (with_store rb (Node.fold_lr h node))
  else if has parse_ambiguous_group d
          && match l (get h node) with
             | Some nl =>
                 String.eqb (data (get h nl)) "."
                 || negb (has lex_op (data (get h nl))
                          || has parse_not_a_value (data (get h nl)))
             | None => false
             end
  then
    (* invocation_nodes.push(node.l.wrap(new_node(new syntax_node(data +
       parse_group[data]))).p.fold_r()) *)
    let* nl := deref (l (get h node)) in
    let closer := match lookup_key parse_group d with Some x => x | None => "undefined" end in
    let '(n, rb1) := create rb (d ++ closer) in
    let rb2 := new_node rb1 n in
    let h2 := Node.wrap (store rb2) nl n in
    let* outer := deref (p (get h2 nl)) in
    Ok (with_invocation (with_store rb2 (Node.fold_r h2 outer)) outer)
  else if has parse_l d then Ok (with_store rb (Node.fold_l h node))
  else if has parse_r d then Ok (with_store rb (Node.fold_r h node))
  else if has parse_ternary d then
    (* node.fold_lr(); var temp = node[1]; node[1] = node[0]; node[0] = temp *)
    let h1 := Node.fold_lr h node in
    let temp := kid h1 node 1 in
    let h2 := set_kids h1 node (<[1 := kid h1 node 0]> (kids (get h1 node))) in
    Ok (with_store rb (set_kids h2 node (<[0 := temp]> (kids (get h2 node)))))
  else if has parse_r_until_block d && right_is_not h node ":" then
    let limit := match lookup_key parse_r_until_block d with Some x => x | None => 0 end in
    let h1 := grab limit h node in
    let h2 := if right_is_not h1 node ";" then Node.fold_r h1 node else h1 in
    let accepted := if has parse_accepts d then lookup_key parse_accepts d else None in
    let next_next :=
      match r (get h2 node) with
      | Some x => right_data h2 x
      | None => None
      end in
    match accepted with
    | Some a =>
        if match next_next with Some x => String.eqb a x | None => false end
        then Ok (with_store rb (Node.fold_r (Node.pop (Node.fold_r h2 node) node) node))
        else if match right_data h2 node with Some x => String.eqb a x | None => false end
        then Ok (with_store rb (Node.fold_r h2 node))
        else Ok (with_store rb h2)
    | None => Ok (with_store rb h2)
    end
  else if has parse_r_optional d then
    Ok (with_store rb (if right_is_not h node ";" then Node.fold_r h node else h))
  else Ok rb.

Fixpoint fold_nodes (nodes : list loc) (rb : ribbon) : outcome ribbon :=
  match nodes with
  | [] => Ok rb
  | n :: rest => let* rb1 := fold_node n rb in fold_nodes rest rb1
  end.

(** [for (var i = 0, l = indexes.length, ...; i < l; ++i) for (var j = forward ? 0 :
    _.length - 1, ...; forward ? j < lj : j >= 0; j += inc) ...] *)
Fixpoint fold_groups (groups : list (list loc * bool)) (rb : ribbon) : outcome ribbon :=
  match groups with
  | [] => Ok rb
  | (nodes, forward) :: rest =>
      let* rb1 := fold_nodes (if forward then nodes else rev nodes) rb in
      fold_groups rest rb1
  end.

Definition fold_operators (rb : ribbon) : outcome ribbon :=
  fold_groups
    (List.map (fun k => (nth k (indexes rb) [], nth k parse_index_forward false))
              (seq 0 (List.length (indexes rb)))) rb.

(** Third step: [for (var i = all_nodes.length - 1, _; _ = all_nodes[i], i >= 0; --i)
    _.r && _.wrap(new syntax_node('i;')).p.fold_r()] *)
Fixpoint infer_semicolons (nodes : list loc) (h : heap) : outcome heap :=
  match nodes with
  | [] => Ok h
  | n :: rest =>
      match r (get h n) with
      | Some _ =>
          let '(semi, h1) := alloc h "i;" in
          let h2 := Node.wrap h1 n semi in
          let* outer := deref (p (get h2 n)) in
          infer_semicolons rest (Node.fold_r h2 outer)
      | None => infer_semicolons rest h
      end
  end.

(** Fourth step: [for (...; i < l; ++i) (child = _[1] = _[1][0]) && (child.p = _)] *)
Fixpoint flatten_invocations (nodes : list loc) (h : heap) : outcome heap :=
  match nodes with
  | [] => Ok h
  | n :: rest =>
      let* grp := deref (kid h n 1) in
      let child := kid h grp 0 in
      let h1 := set_kids h n (<[1 := child]> (kids (get h n))) in
      flatten_invocations rest
        (match child with Some ch => set_p h1 ch (Some n) | None => h1 end)
  end.

(** [while (head.p) head = head.p; return head] *)
Fixpoint ascend (fuel : nat) (h : heap) (hd : value) : outcome loc :=
  match fuel with
  | O => Timeout
  | S fuel' =>
      let* n := deref hd in
      match p (get h n) with
      | Some up => ascend fuel' h (Some up)
      | None => Ok n
      end
  end.

(** [parse = function (s) {...}]: the root node and the store it lives in. *)
Definition parse (fuel : nat) (s : string) : outcome (loc * heap) :=
  let* (_, rb) := lex fuel s in
  let* rb1 := fold_operators rb in
  let* h2 := infer_semicolons (rev (all_nodes rb1)) (store rb1) in
  let* h3 := flatten_invocations (invocation_nodes rb1) h2 in
  let* root := ascend fuel h3 (head rb1) in
  Ok (root, h3).

End Parse.

(** ** Trees in the store *)

(** The tree that hangs below a node, unfolded from the store, every node
    with its address: what the statements about "a tree [t]" range over. *)
#[local] Unset Elimination Schemes.
Inductive ltree : Type := LNode (addr : loc) (d : string) (ks : list (option ltree)).
#[local] Set Elimination Schemes.

Definition root (t : ltree) : loc := match t with LNode a _ _ => a end.
Definition ldata (t : ltree) : string := match t with LNode _ d _ => d end.
Definition lkids (t : ltree) : list (option ltree) := match t with LNode _ _ ks => ks end.
Definition root_of (k : option ltree) : value := option_map root k.

(** [repr h t]: below [root t] the store [h] holds exactly the tree [t], at
    addresses that are in use. *)
Fixpoint repr (h : heap) (t : ltree) : Prop :=
  match t with
  | LNode a d ks =>
      a < List.length h /\ data (get h a) = d /\ kids (get h a) = List.map root_of ks /\
      (fix all (ks : list (option ltree)) : Prop :=
         match ks with
         | [] => True
         | Some k :: rest => repr h k /\ all rest
         | None :: rest => all rest
         end) ks
  end.

(** No child is null anywhere in the tree. *)
Fixpoint full (t : ltree) : Prop :=
  match t with
  | LNode _ _ ks =>
      (fix all (ks : list (option ltree)) : Prop :=
         match ks with
         | [] => True
         | Some k :: rest => full k /\ all rest
         | None :: _ => False
         end) ks
  end.

Fixpoint lheight (t : ltree) : nat :=
  match t with
  | LNode _ _ ks =>
      Datatypes.S (fold_right (fun k m => match k with
                                          | Some t' => Nat.max (lheight t') m
                                          | None => m
                                          end) 0 ks)
  end.

(** *** What a match is, in the words of the specification *)

(** A wildcard pattern matches any subject and captures it; any other pattern
    matches a subject with the same data and as many children, child by child,
    the captures being concatenated in order. *)
Inductive matches : ltree -> ltree -> list value -> Prop :=
  | matches_wildcard a ks t :
      matches (LNode a "_" ks) t [Some (root t)]
  | matches_node a d ks b ts caps :
      d <> "_" ->
      matches_children ks ts caps ->
      matches (LNode a d ks) (LNode b d ts) caps
with matches_children : list (option ltree) -> list (option ltree) -> list value -> Prop :=
  | matches_nil : matches_children [] [] []
  | matches_cons k ks t ts c cs :
      matches k t c ->
      matches_children ks ts cs ->
      matches_children (Some k :: ks) (Some t :: ts) (c ++ cs).

(** The same as a function, child by child from the left. *)
Section MatchChildren.

Variable recur : ltree -> ltree -> option (list value).

Fixpoint spec_children (pks sks : list (option ltree)) {struct pks}
  : option (list value) :=
  match pks, sks with
  | [], _ => Some []
  | Some k :: pks', Some t :: sks' =>
      match recur k t with
      | Some c => match spec_children pks' sks' with
                  | Some cs => Some (c ++ cs)
                  | None => None
                  end
      | None => None
      end
  | _, _ => None
  end.

End MatchChildren.

Fixpoint try_match_spec (pt st : ltree) {struct pt} : option (list value) :=
  match pt with
  | LNode _ pd pks =>
      if String.eqb pd "_" then Some [Some (root st)]
      else if String.eqb pd (ldata st) && (List.length pks =? List.length (lkids st))
      then spec_children try_match_spec pks (lkids st)
      else None
  end.

(** *** What [rmap] builds, in the words of the specification *)

(** The result of [rmap]: a node that the mapping function returned, taken as
    it is, or a new node with the data of the original and the results for
    its children. *)
#[local] Unset Elimination Schemes.
Inductive shape : Type :=
  | Repl (r : loc)
  | Fresh (d : string) (ks : list (option shape)).
#[local] Set Elimination Schemes.

(** The children [outs] of a new node have the shapes [ks], one by one. *)
Section BuiltKids.

Variable recur : loc -> shape -> Prop.

Fixpoint built_kids (ks : list (option shape)) (outs : list value) {struct ks} : Prop :=
  match ks, outs with
  | [], [] => True
  | Some sh :: ks', Some o :: outs' => recur o sh /\ built_kids ks' outs'
  | None :: ks', None :: outs' => built_kids ks' outs'
  | _, _ => False
  end.

End BuiltKids.

(** [built base h out sh]: in the store [h] the node [out] has the shape
    [sh], its new nodes being at addresses from [base] on. *)
Fixpoint built (base : nat) (h : heap) (out : loc) (sh : shape) {struct sh} : Prop :=
  match sh with
  | Repl r => out = r
  | Fresh d ks =>
      base <= out /\ out < List.length h /\
      data (get h out) = d /\ l (get h out) = None /\ r (get h out) = None /\
      p (get h out) = None /\
      built_kids (built base h) ks (kids (get h out))
  end.

Section RmapSpec.

Context {S : Type}.

(** What the mapping function answers at a node of the tree, and how its
    captured state changes. *)
Variable choose : ltree -> S -> value * S.

Section Kids.

Variable recur : ltree -> S -> shape * S.

(** The children from left to right, the state going from one to the
    next; a null child stays null. *)
Fixpoint spec_kids (ks : list (option ltree)) (st : S) {struct ks}
  : list (option shape) * S :=
  match ks with
  | [] => ([], st)
  | Some k :: rest =>
      let '(sh, st') := recur k st in
      let '(shs, st'') := spec_kids rest st' in
      (Some sh :: shs, st'')
  | None :: rest =>
      let '(shs, st'') := spec_kids rest st in (None :: shs, st'')
  end.

End Kids.

(** "Invokes [f(node)]; if [f] returns a distinct node, that replaces
    [node] and recursion does not descend into it; if [f] returns the node
    itself or a falsy value, recursion descends into the children." *)
Fixpoint rmap_spec (t : ltree) (st : S) {struct t} : shape * S :=
  match t with
  | LNode a d ks =>
      let '(v, st1) := choose t st in
      let descend :=
        let '(shs, st2) := spec_kids rmap_spec ks st1 in (Fresh d shs, st2) in
      match v with
      | Some r => if r =? a then descend else (Repl r, st1)
      | None => descend
      end
  end.

End RmapSpec.

(** [substitute(data_key, replacements)] with an array: every node whose
    data is the key takes the next entry, cycling modulo the length. *)
Definition subst_nodes (key : string) (xs : list value) (t : ltree) (i : nat) : value * nat :=
  if String.eqb (ldata t) key then (nth (i mod List.length xs) xs None, Datatypes.S i)
  else (None, i).



(** The chain of left operands of [d] ends in a node with other data. *)
Fixpoint left_spine (d : string) (t : ltree) : Prop :=
  match t with
  | LNode _ d' ks =>
      d' <> d \/
      match ks with
      | Some k :: _ => left_spine d k
      | _ => False
      end
  end.

(** *** How a node is tried against the registry, in the words of the
    specification *)

Section Tried.

Context {S : Type}.
Variable mfuel : nat.
Variable n : loc.


End Tried.


(** The expansion of the children of a node that is not replaced. *)
Definition expand_child {S : Type} (fuel mfuel : nat) (macros : list value)
           (expanders : list (@expander S)) : value -> nat -> @action S value :=
  fun c _ w2 =>
    match c with
    | Some n =>
        let* (n', w3) := macro_expand fuel mfuel n macros expanders w2 in
        Ok (Some n', w3)
    | None => Ok (None, w2)
    end.

Definition expand_children {S : Type} (fuel mfuel : nat) (macros : list value)
           (expanders : list (@expander S)) (t : loc) : @action S loc :=
  map (expand_child fuel mfuel macros expanders) t.

(** *** The ribbon *)

(** The links of the node [q] point to nodes of the store. *)
Definition links_in (h : heap) (q : loc) : Prop :=
  forall x, l (get h q) = Some x \/ r (get h q) = Some x \/ p (get h q) = Some x ->
            x < List.length h.

(** [nl] is the left sibling of [node] in the ribbon. *)
Definition left_sibling (h : heap) (nl node : loc) : Prop :=
  l (get h node) = Some nl /\ r (get h nl) = Some node /\ l (get h nl) <> Some nl /\
  nl < List.length h /\ node < List.length h /\ links_in h nl /\ links_in h node.

(** The left sibling makes the group an invocation or a dereference: it is
    a [.] node, or neither an operator nor a keyword that takes no value. *)
Definition callee_like (d : string) : bool :=
  String.eqb d "." || negb (has lex_op d || has parse_not_a_value d).

(** ** Notions used in the statements *)

(** Induction on a tree, the children being covered by the hypothesis. *)
Section LtreeInd.

Variable P : ltree -> Prop.
Hypothesis step : forall a d ks,
    Forall (fun k => match k with Some t => P t | None => True end) ks ->
    P (LNode a d ks).

Fixpoint ltree_ind (t : ltree) : P t :=
  match t with
  | LNode a d ks =>
      step a d ks
        ((fix all (ks : list (option ltree))
           : Forall (fun k => match k with Some t => P t | None => True end) ks :=
            match ks with
            | [] => List.Forall_nil _
            | Some k :: rest => @List.Forall_cons _ _ (Some k) rest (ltree_ind k) (all rest)
            | None :: rest => @List.Forall_cons _ _ None rest I (all rest)
            end) ks)
  end.

End LtreeInd.

Section ShapeInd.

Variable P : shape -> Prop.
Hypothesis repl_case : forall r, P (Repl r).
Hypothesis fresh_case : forall d ks,
    Forall (fun k => match k with Some sh => P sh | None => True end) ks ->
    P (Fresh d ks).

Fixpoint shape_ind (sh : shape) : P sh :=
  match sh with
  | Repl r => repl_case r
  | Fresh d ks =>
      fresh_case d ks
        ((fix all (ks : list (option shape))
           : Forall (fun k => match k with Some sh => P sh | None => True end) ks :=
            match ks with
            | [] => List.Forall_nil _
            | Some k :: rest => @List.Forall_cons _ _ (Some k) rest (shape_ind k) (all rest)
            | None :: rest => @List.Forall_cons _ _ None rest I (all rest)
            end) ks)
  end.

End ShapeInd.

Definition repr_opt (h : heap) (k : option ltree) : Prop :=
  match k with Some t => repr h t | None => True end.

Definition full_opt (k : option ltree) : Prop :=
  match k with Some t => full t | None => False end.

(** [macro_try_match] computes [try_match_spec] on the tree [pt]. *)
Definition match_agrees (h : heap) (fuel : nat) (pt : ltree) : Prop :=
  forall st, repr h pt -> repr h st -> full pt -> full st -> lheight pt <= fuel ->
             macro_try_match fuel h (Some (root pt)) (Some (root st))
             = Ok (try_match_spec pt st).

(** [try_match_spec] decides [matches] for the pattern [p]. *)
Definition spec_sound (p : ltree) : Prop :=
  forall t caps, full p -> full t ->
                 (try_match_spec p t = Some caps <-> matches p t caps).

(** [extends h h']: [h'] is [h] with new nodes after it, so every node of
    [h] has in [h'] the fields it has in [h]. *)
Definition extends (h h' : heap) : Prop := exists k, h' = h ++ k.

(** Every node of [h] other than [n] is in [h'] as it is in [h]. *)
Definition same_but (n : loc) (h h' : heap) : Prop :=
  List.length h <= List.length h' /\
  forall q, q < List.length h -> q <> n -> get h' q = get h q.

Section FrameNotions.

Context {S : Type}.

(** A mapping function that creates nodes at will but writes to no
    existing one. *)
Definition alloc_only {A : Type} (a : @action S A) : Prop :=
  forall w x w', a w = Ok (x, w') -> extends (fst w) (fst w').

(** What [map] stored as the [j]-th child of the new node [n]: the value
    [f] returned for the [j]-th child of [this], or that child itself when
    [f] returned a falsy value; and in the store [hcur] the nodes other than
    [n] are as the call of [f] left them. *)
Definition placed (f : value -> nat -> @action S value) (h0 : heap) (this n : loc)
           (j : nat) (v : value) (hcur : heap) : Prop :=
  exists wj rv wj',
    f (kid h0 this j) j wj = Ok (rv, wj') /\
    v = match rv with Some _ => rv | None => kid h0 this j end /\
    same_but n (fst wj') hcur.

(** The state of the loop of [map] before the child [i] is handled. *)
Definition map_state (f : value -> nat -> @action S value) (h0 : heap) (this n : loc)
           (d : string) (i : nat) (w : @world S) : Prop :=
  extends h0 (fst w) /\ n < List.length (fst w) /\
  exists K, get (fst w) n = SyntaxNode d K None None None /\ List.length K = i /\
            forall j, j < i -> placed f h0 this n j (nth j K None) (fst w).

Section Driven.

Variable g : loc -> @action S value.
Variable choose : ltree -> S -> value * S.

(** The mapping function only reads the tree, and answers as [choose]
    says. *)
Definition driven : Prop :=
  forall h t st, repr h t ->
                 g (root t) (h, st) = Ok (fst (choose t st), (h, snd (choose t st))).

(** The function that [rmap] hands to [map]. *)
Definition rmap_child (fuel : nat) : value -> nat -> @action S value :=
  fun c _ w2 =>
    match c with
    | Some n => let* (n', w3) := rmap fuel g n w2 in Ok (Some n', w3)
    | None => Ok (None, w2)
    end.

(** [rmap] builds on the tree [t] what [rmap_spec] says. *)
Definition rmap_ok (fuel : nat) (t : ltree) : Prop :=
  forall hc st, repr hc t ->
    exists out h',
      rmap fuel g (root t) (hc, st) = Ok (out, (h', snd (rmap_spec choose t st))) /\
      extends hc h' /\
      built (List.length hc) h' out (fst (rmap_spec choose t st)).

End Driven.

End FrameNotions.

(** The test of [flatten]: [has(parse_lr, d) && this.length]. *)
Definition flattens (h : heap) (this : loc) : bool :=
  has parse_lr (data (get h this)) && negb (node_length h this =? 0).

(** The keywords after whose group a statement starts. *)
Definition block_keywords : list string :=
  ["if"; "for"; "while"; "with"; "do"; "catch"; "function"].

(** Every [/*] of the text is followed by a [*/] that ends it. *)
Definition closed_comments (s : string) : Prop :=
  forall i0,
    Parse.code_is (JsString.charCodeAt s i0) lex_slash = true ->
    Parse.code_is (JsString.charCodeAt s (i0 + 1)) lex_star = true ->
    exists j, i0 + 3 <= j /\ j < String.length s /\
              Parse.code_is (JsString.charCodeAt s j) lex_slash = true /\
              Parse.code_is (JsString.charCodeAt s (j - 1)) lex_star = true.

(** ** Small stores, written by hand *)

Definition node2 (d : string) (a b : loc) : syntax_node :=
  SyntaxNode d [Some a; Some b] None None None.

(** The pattern [_ + _] at the addresses 0 to 2 and the tree of [x + 1] at
    the addresses 3 to 5. *)
Definition sum_store : heap :=
  [node2 "+" 1 2; blank "_"; blank "_"; node2 "+" 4 5; blank "x"; blank "1"].
Definition sum_pattern : ltree :=
  LNode 0 "+" [Some (LNode 1 "_" []); Some (LNode 2 "_" [])].
Definition sum_subject : ltree :=
  LNode 3 "+" [Some (LNode 4 "x" []); Some (LNode 5 "1" [])].


(** The tree of [a, b, c] as the parser builds it. *)
Definition comma_store : heap :=
  [node2 "," 1 4; node2 "," 2 3; blank "a"; blank "b"; blank "c"].
Definition comma_tree : ltree :=
  LNode 0 ","
        [Some (LNode 1 "," [Some (LNode 2 "a" []); Some (LNode 3 "b" [])]);
         Some (LNode 4 "c" [])].

(** A mapping function that answers the node [q] for every child, and one
    that answers [q] at the node [at_node] only. *)
Definition always (q : loc) : value -> nat -> @action unit value :=
  fun _ _ w => Ok (Some q, w).
Definition only_at (at_node q : loc) : loc -> @action unit value :=
  fun n w => Ok (if n =? at_node then Some q else None, w).

(** An expander that answers the node [q]. *)
Definition constant_expander (q : loc) : @expander unit := fun _ w => Ok (Some q, w).

(** The ribbon of [f(x)] when the lexer is done. *)
Definition call_ribbon : Parse.ribbon :=
  match Parse.lex 10 "f(x)" with
  | Ok (_, rb) => rb
  | _ => Parse.initial_ribbon
  end.

(** ** Traversal functions that build nothing: [each], [reach], [collect],
    [parents] *)

Section Visiting.

Context {S : Type}.

(** The loop of [each]: [for (var i = 0, l = this.length; i < l; ++i) f(this[i], i)];
    what [f] returns is dropped. *)
Fixpoint each_loop (f : value -> nat -> @action S unit) (this : loc) (i count : nat)
         (w : @world S) : outcome (@world S) :=
  match count with
  | O => Ok w
  | Datatypes.S count' =>
      let* (_, w1) := f (kid (fst w) this i) i w in
      each_loop f this (Datatypes.S i) count' w1
  end.

(** [each: function (f) {for (...) f(this[i], i); return this}] *)
Definition each (f : value -> nat -> @action S unit) (this : loc) : @action S loc :=
  fun w =>
    let* w' := each_loop f this 0 (node_length (fst w) this) w in
    Ok (this, w').

(** [reach: function (f) {f(this); this.each(function (n) {n && n.reach(f)});
    return this}] *)
Fixpoint reach (fuel : nat) (f : loc -> @action S unit) (this : loc) : @action S loc :=
  fun w =>
    match fuel with
    | O => Timeout
    | Datatypes.S fuel' =>
        let* (_, w1) := f this w in
        let* (_, w2) :=
          each (fun c _ w' =>
                  match c with
                  | Some n => let* (_, w'') := reach fuel' f n w' in Ok (tt, w'')
                  | None => Ok (tt, w')
                  end) this w1 in
        Ok (this, w2)
    end.

(** The function that [collect] hands to [reach],
    [function (n) {p(n) && ns.push(n)}]: the array [ns] is part of the
    state of the closure. *)
Definition gather (pr : loc -> @action S bool) (n : loc) : @action (list loc * S) unit :=
  fun w =>
    let '(h, (ns, st)) := w in
    let* (b, (h1, st1)) := pr n (h, st) in
    Ok (tt, (h1, (if b then ns ++ [n] else ns, st1))).

End Visiting.

(** [collect: function (p) {var ns = []; this.reach(function (n) {p(n) && ns.push(n)});
    return ns}] *)
Definition collect {S : Type} (fuel : nat) (pr : loc -> @action S bool) (this : loc)
  : @action S (list loc) :=
  fun w =>
    let* (_, (h', (ns, st'))) := reach fuel (gather pr) this (fst w, ([], snd w)) in
    Ok (ns, (h', st')).

(** The loop of [parents]: [while (n) ps.push(n = n.p)] *)
Fixpoint parents_loop (fuel : nat) (h : heap) (n : value) (ps : list value)
  : outcome (list value) :=
  match fuel with
  | O => Timeout
  | Datatypes.S fuel' =>
      match n with
      | Some x => parents_loop fuel' h (p (get h x)) (ps ++ [p (get h x)])
      | None => Ok ps
      end
  end.

(** [parents: function () {var ps = [], n = this.p; while (n) ps.push(n = n.p);
    return ps}] *)
Definition parents (fuel : nat) (h : heap) (this : loc) : outcome (list value) :=
  parents_loop fuel h (p (get h this)) [].

(** The chain of parents from a node up: [chain h v c] when [v] is the first
    node of [c], each next one is the parent of the one before, and the last
    has no parent. *)
Inductive chain (h : heap) : value -> list loc -> Prop :=
  | chain_end : chain h None []
  | chain_up a rest : chain h (p (get h a)) rest -> chain h (Some a) (a :: rest).

(** A function that only notes, in its own state, the node it is called on. *)
Definition note : loc -> @action (list loc) unit :=
  fun n w => Ok (tt, (fst w, snd w ++ [n])).

(** ** The constructor with children *)

(** What the constructor is handed after the data: a node, a string (which
    it wraps in a new node) or null, alone or in an array. *)
Inductive item : Type :=
  | INode (n : loc)
  | IText (text : string)
  | INull.

Inductive argument : Type :=
  | AOne (it : item)
  | AMany (its : list item).

(** [this.append(it.constructor === String ? new this.constructor(it) : it)];
    reading [constructor] off null throws. *)
Definition construct_item (this : loc) (h : heap) (it : item) : outcome heap :=
  match it with
  | INode n => Ok (Node.append h this (Some n))
  | IText text => let '(c, h1) := alloc h text in Ok (Node.append h1 this (Some c))
  | INull => Throw TypeError
  end.

Fixpoint construct_items (this : loc) (h : heap) (its : list item) : outcome heap :=
  match its with
  | [] => Ok h
  | it :: rest => let* h1 := construct_item this h it in construct_items this h1 rest
  end.

(** The inner loop for one argument: an array is gone through, anything else
    is taken once ([_.length] of null throws as well). *)
Definition construct_argument (this : loc) (h : heap) (a : argument) : outcome heap :=
  match a with
  | AOne it => construct_item this h it
  | AMany its => construct_items this h its
  end.

Fixpoint construct_arguments (this : loc) (h : heap) (args : list argument) : outcome heap :=
  match args with
  | [] => Ok h
  | a :: rest => let* h1 := construct_argument this h a in construct_arguments this h1 rest
  end.

(** [new syntax_node(data, ...)] *)
Definition construct (h : heap) (d : string) (args : list argument) : outcome (loc * heap) :=
  let '(n, h0) := alloc h d in
  let* h1 := construct_arguments n h0 args in
  Ok (n, h1).

(** [repopulated_with: function (xs) {return new this.constructor(this.data, xs)}] *)
Definition repopulated_with (h : heap) (this : loc) (xs : argument) : outcome (loc * heap) :=
  construct h (data (get h this)) [xs].

(** ** Type detection and retrieval *)

Module Detect.

Definition is_digit_code (n : nat) : bool := (48 <=? n) && (n <=? 57).

(** The single and the double quote. *)
Definition is_quote_code (n : nat) : bool := (n =? 39) || (n =? 34).

(** The line terminators that [.] does not match, among the codes of one
    byte. *)
Definition is_eol_code (n : nat) : bool := (n =? 10) || (n =? 13).

Definition codes (text : string) : list nat :=
  List.map nat_of_ascii (list_ascii_of_string text).

(** [is_string]: the test of [this.data.charAt(0)] against the class of the
    two quotes. *)
Definition is_string (h : heap) (this : loc) : bool :=
  match JsString.charCodeAt (data (get h this)) 0 with
  | Some n => is_quote_code n
  | None => false
  end.

(** [as_escaped_string: function () {return this.data.substr(1, this.data.length - 2)}] *)
Definition as_escaped_string (h : heap) (this : loc) : string :=
  String.substring 1 (String.length (data (get h this)) - 2) (data (get h this)).

(** [is_number]: [/\d/.test(this.data)] and not the test of a first
    character that is a slash, of the class [\w], or a quote. *)
Definition is_number (h : heap) (this : loc) : bool :=
  existsb is_digit_code (codes (data (get h this)))
  && negb match JsString.charCodeAt (data (get h this)) 0 with
          | Some n => (n =? 47) || JsString.is_word_code n || is_quote_code n
          | None => false
          end.

(** [is_boolean: function () {return this.data === 'true' || this.data === 'false'}] *)
Definition is_boolean (h : heap) (this : loc) : bool :=
  String.eqb (data (get h this)) "true" || String.eqb (data (get h this)) "false".

(** [as_boolean: function () {return this.data === 'true'}] *)
Definition as_boolean (h : heap) (this : loc) : bool :=
  String.eqb (data (get h this)) "true".

(** [is_regexp: function () {return /^\/./.test(this.data)}] *)
Definition is_regexp (h : heap) (this : loc) : bool :=
  match JsString.charCodeAt (data (get h this)) 0,
        JsString.charCodeAt (data (get h this)) 1 with
  | Some a, Some b => (a =? 47) && negb (is_eol_code b)
  | _, _ => false
  end.

(** [text.lastIndexOf('/')]: [None] stands for [-1]. *)
Fixpoint last_slash (text : string) (i : nat) (found : option nat) : option nat :=
  match text with
  | EmptyString => found
  | String a rest =>
      last_slash rest (Datatypes.S i) (if nat_of_ascii a =? 47 then Some i else found)
  end.

(** [as_escaped_regexp: function () {return this.data.substring(1,
    this.data.lastIndexOf('/'))}]; [substring] takes a negative argument
    as zero. *)
Definition as_escaped_regexp (h : heap) (this : loc) : string :=
  JsString.substring (data (get h this)) 1
                     (match last_slash (data (get h this)) 0 None with
                      | Some j => j
                      | None => 0
                      end).

(** [has_grouped_block], [is_block] *)
Definition has_grouped_block (h : heap) (this : loc) : bool :=
  has parse_r_until_block (data (get h this)).
Definition is_block (h : heap) (this : loc) : bool :=
  has parse_block (data (get h this)).

(** [is_empty: fn('!@length')] *)
Definition is_empty (h : heap) (this : loc) : bool := node_length h this =? 0.

(** [is_constant]: [@is_number() || @is_string() || @is_boolean() ||
    @is_regexp()], or the data is [null] or [undefined]. *)
Definition is_constant (h : heap) (this : loc) : bool :=
  is_number h this || is_string h this || is_boolean h this || is_regexp h this
  || String.eqb (data (get h this)) "null" || String.eqb (data (get h this)) "undefined".

(** [text] ends with [suffix]: the tests [/=$/], [/\+\+$/] and [/--$/]. *)
Definition ends_with (text suffix : string) : bool :=
  (String.length suffix <=? String.length text)
  && String.eqb (String.substring (String.length text - String.length suffix)
                                  (String.length suffix) text) suffix.

(** [left_is_lvalue: fn('/=$/.test(@data) || /\\+\\+$/.test(@data) || /--$/.test(@data)')] *)
Definition left_is_lvalue (h : heap) (this : loc) : bool :=
  ends_with (data (get h this)) "=" || ends_with (data (get h this)) "++"
  || ends_with (data (get h this)) "--".

(** [has_parameter_list], [has_lvalue_list], [is_dereference], [is_invocation] *)
Definition has_parameter_list (h : heap) (this : loc) : bool :=
  String.eqb (data (get h this)) "function" || String.eqb (data (get h this)) "catch".
Definition has_lvalue_list (h : heap) (this : loc) : bool :=
  String.eqb (data (get h this)) "var" || String.eqb (data (get h this)) "const".
Definition is_dereference (h : heap) (this : loc) : bool :=
  String.eqb (data (get h this)) "." || String.eqb (data (get h this)) "[]".
Definition is_invocation (h : heap) (this : loc) : bool :=
  String.eqb (data (get h this)) "()".

(** [is_contextualized_invocation: fn('@is_invocation() && this[0] &&
    this[0].is_dereference()')] *)
Definition is_contextualized_invocation (h : heap) (this : loc) : bool :=
  is_invocation h this
  && match kid h this 0 with
     | Some c => is_dereference h c
     | None => false
     end.

End Detect.

(** ** Gensym *)

Module Gensym.

Local Open Scope N_scope.

(** The digit of [n.toString(36)] for a value below 36. *)
Definition digit36 (d : N) : ascii :=
  if d <? 10 then ascii_of_N (48 + d) else ascii_of_N (87 + d).

(** The digits of [n] in base 36, the lowest first. *)
Fixpoint digits_le (fuel : nat) (n : N) : list N :=
  match fuel with
  | O => []
  | Datatypes.S fuel' =>
      (n mod 36) :: (if n / 36 =? 0 then [] else digits_le fuel' (n / 36))
  end.

(** The number that a list of digits, the lowest first, stands for. *)
Fixpoint value_le (ds : list N) : N :=
  match ds with
  | [] => 0
  | d :: rest => d + 36 * value_le rest
  end.

(** [n.toString(36)] for a non-negative integer. *)
Definition toString36 (n : N) : string :=
  string_of_list_ascii
    (List.map digit36 (rev (digits_le (Datatypes.S (N.to_nat (N.size n))) n))).

(** One call of [gensym], [n] being the time stamp and [m] the counter
    before the call: the name and the counter after the call.  Both are
    doubles in the source; the model is exact while they stay below
    [2 ^ 53]. *)
Definition gensym (n m : N) : string * N :=
  (("_gensym_" ++ toString36 n ++ "_" ++ toString36 (m + 1) ++ "_")%string, m + 1).

End Gensym.

(** ** Notions for the statements about copies, matches and substitution *)

(** The tree below a node with the addresses left out. *)
Fixpoint plain (t : ltree) : tree :=
  match t with
  | LNode _ d ks =>
      Tree d (List.map (fun k => match k with Some t' => Some (plain t') | None => None end) ks)
  end.

Fixpoint height (t : tree) : nat :=
  match t with
  | Tree _ ks =>
      Datatypes.S (fold_right (fun k m => match k with
                                          | Some t' => Nat.max (height t') m
                                          | None => m
                                          end) 0 ks)
  end.

(** The subtrees of a tree, itself first, then those of the children from
    left to right; and the addresses of its nodes in that order. *)
Fixpoint subtrees (t : ltree) : list ltree :=
  match t with
  | LNode _ _ ks =>
      t :: fold_right (fun k acc => match k with
                                    | Some t' => subtrees t' ++ acc
                                    | None => acc
                                    end) [] ks
  end.

Definition nodes (t : ltree) : list loc := List.map root (subtrees t).

(** The wildcards of a pattern: the nodes [_] that are below no other. *)
Fixpoint wildcards (t : ltree) : nat :=
  match t with
  | LNode _ d ks =>
      if String.eqb d "_" then 1
      else fold_right (fun k m => match k with
                                  | Some t' => wildcards t' + m
                                  | None => m
                                  end) 0 ks
  end.

(** [fills p subs t]: the tree [t] is the pattern [p] with the trees [subs]
    standing where the wildcards of [p] stand, from left to right. *)
Inductive fills : ltree -> list ltree -> ltree -> Prop :=
  | fills_wildcard a ks x : fills (LNode a "_" ks) [x] x
  | fills_node a d ks b ts subs :
      d <> "_" -> fills_kids ks subs ts -> fills (LNode a d ks) subs (LNode b d ts)
with fills_kids : list (option ltree) -> list ltree -> list (option ltree) -> Prop :=
  | fills_nil : fills_kids [] [] []
  | fills_some k ks t ts c cs :
      fills k c t -> fills_kids ks cs ts -> fills_kids (Some k :: ks) (c ++ cs) (Some t :: ts)
  | fills_none ks ts cs :
      fills_kids ks cs ts -> fills_kids (None :: ks) cs (None :: ts).

Definition roots (ts : list ltree) : list value := List.map (fun t => Some (root t)) ts.

(** A mapping function that answers nothing, whatever the node. *)
Definition keep {S : Type} : loc -> @action S value := fun _ w => Ok (None, w).

(** ** What [flatten] gathers *)

(** The operands of a left-associative chain of [d], from left to right: those
    of the left operand, then the right operand (left out when it is null). *)
Fixpoint operands_left (d : string) (t : ltree) : list value :=
  match t with
  | LNode a d' ks =>
      if String.eqb d' d then
        match ks with
        | Some k :: rest =>
            operands_left d k ++ match rest with
                                 | Some k1 :: _ => [Some (root k1)]
                                 | _ => []
                                 end
        | _ => []
        end
      else [Some a]
  end.

(** The operands of a right-associative chain of [d]: the left operand, then
    those of the right operand; a chain that ends in a missing right operand
    gives a null. *)
Fixpoint operands_right (d : string) (t : ltree) : list value :=
  match t with
  | LNode a d' ks =>
      if String.eqb d' d then
        match ks with
        | [] => [None; None]
        | k0 :: rest =>
            root_of k0 :: match rest with
                          | Some k1 :: _ => operands_right d k1
                          | _ => [None]
                          end
        end
      else [Some a]
  end.

(** ** Texts that the statements about the parser speak of *)

(** The input is white space from end to end. *)
Definition blank_text (text : string) : bool :=
  forallb (fun a => lex_space (Some (nat_of_ascii a))) (list_ascii_of_string text).

(** A name: characters of [lex_ident], the first of them no digit. *)
Definition is_identifier (w : string) : bool :=
  negb (String.length w =? 0)
  && negb (lex_decimal (JsString.charCodeAt w 0))
  && forallb (fun a => lex_ident (Some (nat_of_ascii a))) (list_ascii_of_string w).

(** At no node of [t] does the function answer a node other than the one it
    is asked about. *)
Definition replaces_nothing {S : Type} (choose : ltree -> S -> value * S) (t : ltree) : Prop :=
  forall t' st, In t' (subtrees t) ->
                fst (choose t' st) = None \/ fst (choose t' st) = Some (root t').

(** The function that [reach] hands to [each]. *)
Definition reach_child {S : Type} (f : loc -> @action S unit) (fuel : nat)
  : value -> nat -> @action S unit :=
  fun c _ w' =>
    match c with
    | Some n => let* (_, w'') := reach fuel f n w' in Ok (tt, w'')
    | None => Ok (tt, w')
    end.

(** ** Mapping functions that read the store *)

Section DrivenOn.

Context {S : Type}.
Variable g : loc -> @action S value.
Variable choose : ltree -> S -> value * S.
Variable h0 : heap.
Variable whole : ltree.

(** On the subtrees of [whole], in the store [h0] or any store that
    extends it, the mapping function only reads and answers as [choose]
    says. *)
Definition driven_on : Prop :=
  forall hc t st, extends h0 hc -> In t (subtrees whole) ->
                  g (root t) (hc, st) = Ok (fst (choose t st), (hc, snd (choose t st))).

Definition rmap_ok_on (fuel : nat) (t : ltree) : Prop :=
  forall hc st, extends h0 hc ->
    exists out h',
      rmap fuel g (root t) (hc, st) = Ok (out, (h', snd (rmap_spec choose t st))) /\
      extends hc h' /\
      built (List.length hc) h' out (fst (rmap_spec choose t st)).

End DrivenOn.

(** The wildcards of a pattern as trees, from left to right. *)
Fixpoint wildcard_trees (t : ltree) : list ltree :=
  match t with
  | LNode _ d ks =>
      if String.eqb d "_" then [t]
      else fold_right (fun k acc => match k with
                                    | Some t' => wildcard_trees t' ++ acc
                                    | None => acc
                                    end) [] ks
  end.

(** ** Matching on trees that have null children *)

(** The parser makes null children (the empty group of [f()], the missing
    operand of [x;]).  What [macro_try_match] does on such trees, child by
    child from the left: a null in the pattern is dereferenced, and so is a
    null of the subject that a pattern other than a wildcard meets. *)
Section GenChildren.

Variable recur : ltree -> option ltree -> outcome (option (list value)).

Fixpoint gen_children (pks sks : list (option ltree)) {struct pks}
  : outcome (option (list value)) :=
  match pks with
  | [] => Ok (Some [])
  | pk :: pks' =>
      let* m := match pk with
                | Some k => recur k (hd None sks)
                | None => Throw TypeError
                end in
      match m with
      | Some c =>
          let* ms := gen_children pks' (tl sks) in
          Ok (option_map (app c) ms)
      | None => Ok None
      end
  end.

End GenChildren.

(** [macro_try_match] on a pattern tree and a subject that may be null: a
    wildcard captures the subject as it is; any other pattern reads the data
    of the subject, which throws when the subject is null. *)
Fixpoint try_match_gen (pt : ltree) (s : option ltree) {struct pt}
  : outcome (option (list value)) :=
  match pt with
  | LNode _ pd pks =>
      if String.eqb pd "_" then Ok (Some [root_of s])
      else match s with
           | None => Throw TypeError
           | Some st =>
               if String.eqb pd (ldata st) && (List.length pks =? List.length (lkids st))
               then gen_children try_match_gen pks (lkids st)
               else Ok None
           end
  end.

(** The budget of the model can run out just where the code dereferences a
    null pattern: [r] is [spec], or it is that case. *)
Definition or_timeout {A : Type} (r spec : outcome A) : Prop :=
  r = spec \/ (r = Timeout /\ spec = Throw TypeError).

(** The pattern [_ + _] at the addresses 0 to 2 and the tree of [f() + 1],
    whose call has a null for its empty group, at the addresses 3 to 6. *)
Definition call_store : heap :=
  [node2 "+" 1 2; blank "_"; blank "_"; SyntaxNode "()" [Some 4; None] None None None;
   blank "f"; blank "1"; node2 "+" 3 5].
Definition call_pattern : ltree :=
  LNode 0 "+" [Some (LNode 1 "_" []); Some (LNode 2 "_" [])].
Definition call_tree : ltree := LNode 3 "()" [Some (LNode 4 "f" []); None].
Definition call_subject : ltree :=
  LNode 6 "+" [Some call_tree; Some (LNode 5 "1" [])].

(** ** A node that is kept, and the visits of its children *)

Section Kept.

Context {S : Type}.
Variables (fuel mfuel : nat) (pairs : list (loc * @expander S)) (n out : loc).



End Kept.





(** ** What a mapping function can reach *)

(** A link of the node [q] leads to the node [x]. *)
Definition points_to (h : heap) (q x : loc) : Prop :=
  In (Some x) (kids (get h q)) \/ l (get h q) = Some x \/ r (get h q) = Some x \/
  p (get h q) = Some x.

Section Locality.

Context {S : Type}.

(** The nodes that the captured variables of a mapping function refer
    to. *)
Variable knows : S -> loc -> Prop.

(** [sealed C w]: the links of the store and the captured variables lead
    to nodes of the store, and they lead to a node of [C] from a node of [C]
    only.  The nodes of [C] are then out of the reach of a function that is
    handed a node outside [C]. *)
Definition sealed (C : list loc) (w : @world S) : Prop :=
  (forall q x, points_to (fst w) q x -> x < List.length (fst w) /\ (In x C -> In q C)) /\
  (forall x, knows (snd w) x -> x < List.length (fst w) /\ ~ In x C) /\
  (forall q, In q C -> q < List.length (fst w)).

(** A function of the program reaches a node through its argument, through
    the links of the store from there, or through its captured variables.
    [local arg a]: the call [a], whose argument is [arg], frees no node,
    leaves the nodes out of its reach as they are and still out of reach,
    and returns none of them. *)
Definition local (arg : value) (a : @action S value) : Prop :=
  forall C w x w',
    sealed C w ->
    (forall t, arg = Some t -> t < List.length (fst w) /\ ~ In t C) ->
    a w = Ok (x, w') ->
    List.length (fst w) <= List.length (fst w') /\
    (forall q, In q C -> get (fst w') q = get (fst w) q) /\
    sealed C w' /\
    (forall y, x = Some y -> y < List.length (fst w') /\ ~ In y C).

(** *** The run of [map] *)

Section MapRan.

Variable f : value -> nat -> @action S value.
Variables this n : loc.

(** [map_ran i count w K w']: from the world [w] the function is called
    on the children [i], [i + 1], ... of [this], [count] of them, what it
    returns (or the child, when it returns a falsy value) is stored in
    the new node [n], and the world is then [w']; [K] lists what was
    stored. *)
Inductive map_ran : nat -> nat -> @world S -> list value -> @world S -> Prop :=
  | map_ran_end i w : map_ran i 0 w [] w
  | map_ran_step i count w rv w1 v K w' :
      f (kid (fst w) this i) i w = Ok (rv, w1) ->
      v = match rv with Some _ => rv | None => kid (fst w1) this i end ->
      map_ran (Datatypes.S i) count (Node.push (fst w1) n v, snd w1) K w' ->
      map_ran i (Datatypes.S count) w (v :: K) w'.

End MapRan.

(** *** The run of [rmap] *)

Section Ran.

Variable g : loc -> @action S value.

(** [ran t w out sh w']: from the world [w] the call [t.rmap(g)] returns
    [out] in the world [w'], and [sh] tells what happened at each node:
    [Repl r] where [g] answered the node [r], distinct from the node
    visited, and [Fresh d ks] where it answered nothing (or the node
    itself), a node with the data [d] was made and the children were
    visited in turn. *)
Inductive ran : loc -> @world S -> loc -> shape -> @world S -> Prop :=
  | ran_replaced t w x w1 :
      g t w = Ok (Some x, w1) -> x <> t -> ran t w x (Repl x) w1
  | ran_kept t w v w1 ks w' :
      g t w = Ok (v, w1) -> v = None \/ v = Some t ->
      ran_kids t (List.length (fst w1)) 0
               (node_length (fst w1 ++ [blank (data (get (fst w1) t))]) t)
               (fst w1 ++ [blank (data (get (fst w1) t))], snd w1) ks w' ->
      ran t w (List.length (fst w1)) (Fresh (data (get (fst w1) t)) ks) w'
with ran_kids : loc -> loc -> nat -> nat -> @world S -> list (option shape) -> @world S
                -> Prop :=
  | ran_kids_end t n i w : ran_kids t n i 0 w [] w
  | ran_kids_null t n i count w ks w' :
      kid (fst w) t i = None ->
      ran_kids t n (Datatypes.S i) count (Node.push (fst w) n None, snd w) ks w' ->
      ran_kids t n i (Datatypes.S count) w (None :: ks) w'
  | ran_kids_node t n i count c w x sh w2 ks w' :
      kid (fst w) t i = Some c ->
      ran c w x sh w2 ->
      ran_kids t n (Datatypes.S i) count (Node.push (fst w2) n (Some x), snd w2) ks w' ->
      ran_kids t n i (Datatypes.S count) w (Some sh :: ks) w'.

End Ran.

End Locality.

(** The nodes that the mapping function answered, from left to right. *)
Fixpoint repls (sh : shape) : list loc :=
  match sh with
  | Repl x => [x]
  | Fresh _ ks => flat_map (fun k => match k with Some s => repls s | None => [] end) ks
  end.

(** [laid cs h out sh]: in the store [h] the node [out] has the shape [sh]:
    it is the node that the function answered, or it is one of the new nodes
    [cs], with the data told, no sibling and no parent, and its children have
    the shapes told, each at its index. *)
Fixpoint laid (cs : list loc) (h : heap) (out : loc) (sh : shape) {struct sh} : Prop :=
  match sh with
  | Repl x => out = x
  | Fresh d ks =>
      In out cs /\
      data (get h out) = d /\ l (get h out) = None /\ r (get h out) = None /\
      p (get h out) = None /\
      built_kids (laid cs h) ks (kids (get h out))
  end.

(** The nodes that the mapping function answered below a child. *)
Definition kid_repls (k : option shape) : list loc :=
  match k with Some s => repls s | None => [] end.

(** What a call of [rmap] with the budget [fuel] leaves: the nodes of [C]
    as they were, a store that has the shape [sh] below [out], the new nodes
    [D] sealed with [C], and the nodes that [g] answered outside of them. *)
Definition rmap_leaves {S : Type} (knows : S -> loc -> Prop) (g : loc -> @action S value)
           (fuel : nat) : Prop :=
  forall C t w out w',
    sealed knows C w -> t < List.length (fst w) -> ~ In t C ->
    rmap fuel g t w = Ok (out, w') ->
    List.length (fst w) <= List.length (fst w') /\
    (forall q, In q C -> get (fst w') q = get (fst w) q) /\
    exists sh D,
      ran g t w out sh w' /\ laid D (fst w') out sh /\ sealed knows (D ++ C) w' /\
      (forall q, In q D -> List.length (fst w) <= q) /\
      out < List.length (fst w') /\ ~ In out C /\
      Forall (fun y => y < List.length (fst w') /\ ~ In y (D ++ C)) (repls sh).

(** A mapping function in the manner of the one of [compile]: at the node
    [at_node] it answers [new syntax_node('(', n)], a new node over the node
    visited, whose parent pointer the constructor sets. *)
Definition group_at (at_node : loc) : loc -> @action unit value :=
  fun n w =>
    if n =? at_node
    then (let '(m, h1) := alloc (fst w) "(" in
          Ok (Some m, (Node.append h1 m (Some n), snd w)))
    else Ok (None, w).

(** The captured variables of [always q] hold the node [q]. *)
Definition holds (q : loc) : unit -> loc -> Prop := fun _ x => x = q.
(** * Theorems *)

(** ** Trees in the store *)



Lemma repr_unfold h a d ks :
  repr h (LNode a d ks) <->
  a < List.length h /\ data (get h a) = d /\ kids (get h a) = List.map root_of ks /\
  Forall (repr_opt h) ks.
Proof.
  simpl. split; intros (Ha & Hd & Hk & Hall); repeat split; auto; clear Hk.
  - induction ks as [|[k|] rest IH]; constructor; simpl; try tauto; apply IH; tauto.
  - induction Hall as [|[k|] rest Hk Hrest IH]; simpl in *; auto.
Qed.

Lemma full_unfold a d ks : full (LNode a d ks) <-> Forall full_opt ks.
Proof.
  simpl. split; intros H.
  - induction ks as [|[k|] rest IH]; constructor; simpl; try tauto; apply IH; tauto.
  - induction H as [|[k|] rest Hk Hrest IH]; simpl in *; auto.
Qed.

Lemma lheight_unfold a d ks k :
  In (Some k) ks -> lheight k < lheight (LNode a d ks).
Proof.
  simpl. induction ks as [|[x|] rest IH]; simpl; intros Hin; try contradiction.
  - destruct Hin as [Heq | Hin]; [inversion Heq; subst; lia | specialize (IH Hin); lia].
  - destruct Hin as [Heq | Hin]; [discriminate | auto].
Qed.

Lemma repr_allocated h t : repr h t -> root t < List.length h.
Proof. destruct t as [a d ks]. rewrite repr_unfold. simpl. tauto. Qed.

Lemma repr_data h t : repr h t -> data (get h (root t)) = ldata t.
Proof. destruct t as [a d ks]. rewrite repr_unfold. simpl. tauto. Qed.

Lemma repr_kids h t : repr h t -> kids (get h (root t)) = List.map root_of (lkids t).
Proof. destruct t as [a d ks]. rewrite repr_unfold. simpl. tauto. Qed.

Lemma repr_length h t : repr h t -> node_length h (root t) = List.length (lkids t).
Proof.
  intros H. unfold node_length. rewrite (repr_kids h t H). apply List.length_map.
Qed.

Lemma repr_kid h t i : repr h t -> kid h (root t) i = root_of (nth i (lkids t) None).
Proof.
  intros H. unfold kid. rewrite (repr_kids h t H).
  change None with (root_of None) at 1. apply List.map_nth.
Qed.

Lemma repr_children h t : repr h t -> Forall (repr_opt h) (lkids t).
Proof. destruct t as [a d ks]. rewrite repr_unfold. simpl. tauto. Qed.

(** ** The pattern matcher *)

Lemma match_loop_spec h fuel pn tn :
  forall pks sks i acc,
    (forall j, kid h pn (i + j) = root_of (nth j pks None)) ->
    (forall j, kid h tn (i + j) = root_of (nth j sks None)) ->
    List.length pks = List.length sks ->
    Forall full_opt pks -> Forall full_opt sks ->
    Forall (repr_opt h) pks -> Forall (repr_opt h) sks ->
    Forall (fun k => match k with
                     | Some t => match_agrees h fuel t /\ lheight t <= fuel
                     | None => True
                     end) pks ->
    match_loop (macro_try_match fuel h) h pn tn (List.length pks) i acc
    = Ok (option_map (app acc) (spec_children try_match_spec pks sks)).
Proof.
  induction pks as [|k pks IH]; intros sks i acc Hp Ht Hlen Fp Ft Rp Rt Hall.
  - simpl. rewrite List.app_nil_r. reflexivity.
  - destruct sks as [|t sks]; [discriminate|].
    inversion Fp as [|? ? Fk Fp']; subst. inversion Ft as [|? ? Ftk Ft']; subst.
    inversion Rp as [|? ? Rk Rp']; subst. inversion Rt as [|? ? Rtk Rt']; subst.
    inversion Hall as [|? ? Hk Hall']; subst.
    destruct k as [k|]; [|contradiction]. destruct t as [t|]; [|contradiction].
    simpl in Fk, Ftk, Rk, Rtk. destruct Hk as [Hk Hh].
    cbn [List.length match_loop].
    pose proof (Hp 0) as Hp0. pose proof (Ht 0) as Ht0.
    rewrite Nat.add_0_r in Hp0, Ht0. simpl in Hp0, Ht0. rewrite Hp0, Ht0.
    rewrite (Hk t Rk Rtk Fk Ftk Hh). cbn [obind spec_children].
    destruct (try_match_spec k t) as [c|]; [|reflexivity].
    rewrite (IH sks (S i) (acc ++ c)); auto.
    + destruct (spec_children try_match_spec pks sks); simpl; [|reflexivity].
      rewrite List.app_assoc. reflexivity.
    + intros j. specialize (Hp (S j)). rewrite Nat.add_succ_r in Hp. exact Hp.
    + intros j. specialize (Ht (S j)). rewrite Nat.add_succ_r in Ht. exact Ht.
Qed.

Lemma macro_try_match_agrees h pt : forall fuel, match_agrees h fuel pt.
Proof.
  induction pt as [a d ks IH] using ltree_ind. intros fuel st Rp Rs Fp Fs Hfuel.
  destruct fuel as [|fuel]; [simpl in Hfuel; lia|].
  pose proof (repr_data _ _ Rp) as Hd. simpl in Hd.
  cbn [macro_try_match deref obind root try_match_spec]. rewrite Hd.
  destruct (String.eqb d "_") eqn:Hw; [reflexivity|].
  rewrite (repr_data _ _ Rs), (repr_length _ _ Rs).
  pose proof (repr_length _ _ Rp) as Hl. simpl in Hl. rewrite Hl.
  destruct (String.eqb d (ldata st)) eqn:Hdd; simpl; [|reflexivity].
  destruct (List.length ks =? List.length (lkids st)) eqn:Hll; simpl; [|reflexivity].
  apply Nat.eqb_eq in Hll.
  rewrite (match_loop_spec h fuel a (root st) ks (lkids st) 0 []); auto.
  - destruct (spec_children try_match_spec ks (lkids st)); reflexivity.
  - intros j. apply (repr_kid h (LNode a d ks) j Rp).
  - intros j. apply (repr_kid h st j Rs).
  - apply full_unfold in Fp. exact Fp.
  - destruct st. apply full_unfold in Fs. exact Fs.
  - apply (repr_children _ _ Rp).
  - apply (repr_children _ _ Rs).
  - rewrite List.Forall_forall in IH |- *. intros [k|] Hin; [|exact I].
    pose proof (lheight_unfold a d ks k Hin) as Hlt. split.
    + apply (IH (Some k) Hin).
    + lia.
Qed.

Lemma matches_children_length pks sks caps :
  matches_children pks sks caps -> List.length pks = List.length sks.
Proof.
  revert sks caps. induction pks as [|k pks IH]; intros sks caps Hm.
  - inversion Hm. reflexivity.
  - inversion Hm; subst. simpl. f_equal. eapply IH. eassumption.
Qed.

Lemma spec_children_matches pks :
  Forall (fun k => match k with Some p => spec_sound p | None => True end) pks ->
  forall sks caps, Forall full_opt pks -> Forall full_opt sks ->
    List.length pks = List.length sks ->
    (spec_children try_match_spec pks sks = Some caps <-> matches_children pks sks caps).
Proof.
  induction 1 as [|k pks Hk Hall IH]; intros sks caps Fp Fs Hlen.
  - destruct sks; [|discriminate]. simpl. split.
    + intros [= <-]. constructor.
    + intros Hm. inversion Hm. reflexivity.
  - destruct sks as [|t sks]; [discriminate|].
    inversion Fp as [|? ? Fk Fp']; subst. inversion Fs as [|? ? Ft Fs']; subst.
    destruct k as [k|]; [|contradiction]. destruct t as [t|]; [|contradiction].
    simpl in Fk, Ft. simpl. split.
    + destruct (try_match_spec k t) as [c|] eqn:Hc; [|discriminate].
      destruct (spec_children try_match_spec pks sks) as [cs|] eqn:Hcs; [|discriminate].
      intros [= <-]. constructor.
      * apply Hk; auto.
      * apply IH; auto.
    + intros Hm. inversion Hm as [|? ? ? ? c cs Hm1 Hm2]; subst.
      apply Hk in Hm1; auto. apply IH in Hm2; auto. rewrite Hm1, Hm2. reflexivity.
Qed.

Lemma try_match_spec_matches pt : spec_sound pt.
Proof.
  induction pt as [a d ks IH] using ltree_ind. intros st caps Fp Fs.
  cbn [try_match_spec]. destruct (String.eqb d "_") eqn:Hw.
  - apply String.eqb_eq in Hw. subst d. split.
    + intros [= <-]. constructor.
    + intros Hm. inversion Hm; subst; [reflexivity | congruence].
  - apply String.eqb_neq in Hw. destruct st as [b d' ts]. simpl.
    apply full_unfold in Fp. apply full_unfold in Fs.
    destruct (String.eqb d d') eqn:Hdd; simpl.
    + apply String.eqb_eq in Hdd. subst d'.
      destruct (List.length ks =? List.length ts) eqn:Hll.
      * apply Nat.eqb_eq in Hll. rewrite (spec_children_matches ks); auto.
        split; [intros Hm; constructor; auto | intros Hm; inversion Hm; subst; congruence].
      * apply Nat.eqb_neq in Hll. split; [discriminate|].
        intros Hm. inversion Hm; subst; [congruence|].
        exfalso. apply Hll. eapply matches_children_length. eassumption.
    + apply String.eqb_neq in Hdd. split; [discriminate|].
      intros Hm. inversion Hm; subst; congruence.
Qed.

(** X29. On a pattern tree and a subject tree without null children, with
    the recursion budget covering the height of the pattern,
    [macro_try_match] returns; it returns the array [caps] exactly when the
    pattern matches the subject with these captures in the sense of [matches]
    (a wildcard captures the subject; otherwise same data, same number of
    children, children matched in place, captures concatenated left to
    right), and it returns null exactly when there is no such match. *)
Theorem macro_try_match_correct (h : heap) (pt st : ltree) (fuel : nat) :
  repr h pt -> repr h st -> full pt -> full st -> lheight pt <= fuel ->
  exists res,
    macro_try_match fuel h (Some (root pt)) (Some (root st)) = Ok res /\
    (forall caps, res = Some caps <-> matches pt st caps) /\
    (res = None <-> forall caps, ~ matches pt st caps).
Proof.
  intros Rp Rs Fp Fs Hfuel. exists (try_match_spec pt st). split; [|split].
  - apply macro_try_match_agrees; assumption.
  - intros caps. apply try_match_spec_matches; assumption.
  - split.
    + intros Hn caps Hm. apply try_match_spec_matches in Hm; auto. congruence.
    + intros Hno. destruct (try_match_spec pt st) as [caps|] eqn:Hs; [|reflexivity].
      exfalso. apply (Hno caps). apply try_match_spec_matches; auto.
Qed.

(** C1. The parser makes null children: the tree of [f()] is the node [()]
    over [f] and a null, that of [x;] the node [;] over [x] and a null.  On
    such trees [macro_try_match] returns neither captures nor null.  Matched
    against itself, the tree of [f()] has the same data and as many children
    on both sides, the first children match, and the second child of the
    pattern is null: reading its data throws a TypeError.  With the pattern
    [f(x)] and the subject [f()] the children differ, and it is the null child
    of the subject that is dereferenced: a TypeError again, not the null of a
    mismatch. *)
Theorem macro_try_match_throws_on_null_child :
  (exists n h,
      Parse.parse 40 "f()" = Ok (n, h) /\
      freeze 3 h n = Some (Tree "()" [Some (Tree "f" []); None]) /\
      forall fuel, macro_try_match (2 + fuel) h (Some n) (Some n) = Throw TypeError) /\
  (exists n h p t,
      Parse.parse 40 "f(x), f()" = Ok (n, h) /\
      kid h n 0 = Some p /\ kid h n 1 = Some t /\
      freeze 3 h p = Some (Tree "()" [Some (Tree "f" []); Some (Tree "x" [])]) /\
      freeze 3 h t = Some (Tree "()" [Some (Tree "f" []); None]) /\
      forall fuel, macro_try_match (2 + fuel) h (Some p) (Some t) = Throw TypeError).
Proof.
  split.
  - destruct (Parse.parse 40 "f()") as [[n h]| |] eqn:Hp; try (vm_compute in Hp; discriminate).
    exists n, h. split; [reflexivity|].
    vm_compute in Hp. injection Hp as <- <-. split; [reflexivity|].
    intros fuel. reflexivity.
  - destruct (Parse.parse 40 "f(x), f()") as [[n h]| |] eqn:Hp;
      try (vm_compute in Hp; discriminate).
    vm_compute in Hp. injection Hp as <- <-.
    eexists _, _, _, _. split; [reflexivity|]. split; [reflexivity|]. split; [reflexivity|].
    split; [reflexivity|]. split; [reflexivity|].
    intros fuel. reflexivity.
Qed.

(** ** The pattern matcher on trees that have null children *)

Lemma match_loop_gen h fuel pn tn :
  forall pks sks i acc,
    (forall j, kid h pn (i + j) = root_of (nth j pks None)) ->
    (forall j, kid h tn (i + j) = root_of (nth j sks None)) ->
    Forall (fun k => match k with
                     | Some t => forall s, repr_opt h s ->
                                           or_timeout
                                             (macro_try_match fuel h (Some (root t)) (root_of s))
                                             (try_match_gen t s)
                     | None => True
                     end) pks ->
    Forall (repr_opt h) sks ->
    or_timeout (match_loop (macro_try_match fuel h) h pn tn (List.length pks) i acc)
               (let* ms := gen_children try_match_gen pks sks in Ok (option_map (app acc) ms)).
Proof.
  induction pks as [|k pks IH]; intros sks i acc Hp Ht Hall Rt.
  - left. simpl. rewrite List.app_nil_r. reflexivity.
  - inversion Hall as [|? ? Hk Hall']; subst.
    cbn [List.length match_loop gen_children].
    pose proof (Hp 0) as Hp0. pose proof (Ht 0) as Ht0.
    rewrite Nat.add_0_r in Hp0, Ht0. cbn [nth] in Hp0. rewrite Hp0.
    assert (Hhd : kid h tn i = root_of (hd None sks)).
    { rewrite Ht0. destruct sks; reflexivity. }
    assert (Rhd : repr_opt h (hd None sks)).
    { destruct sks as [|s0 sks]; [exact I|]. inversion Rt; subst. assumption. }
    assert (Rtl : Forall (repr_opt h) (tl sks)).
    { destruct sks as [|s0 sks]; [constructor|]. inversion Rt; subst. assumption. }
    rewrite Hhd. destruct k as [k|].
    + cbn [root_of option_map].
      destruct (Hk _ Rhd) as [-> | [-> ->]]; [|right; split; reflexivity].
      destruct (try_match_gen k (hd None sks)) as [[c|]| |]; cbn [obind];
        try (left; reflexivity).
      destruct (IH (tl sks) (Datatypes.S i) (acc ++ c)) as [-> | [-> Hs]]; auto.
      * intros j. specialize (Hp (Datatypes.S j)). rewrite Nat.add_succ_r in Hp. exact Hp.
      * intros j. specialize (Ht (Datatypes.S j)). rewrite Nat.add_succ_r in Ht.
        cbn [Nat.add]. rewrite Ht. destruct sks; [destruct j|]; reflexivity.
      * left. destruct (gen_children try_match_gen pks (tl sks)) as [[cs|]| |];
          cbn [obind option_map]; try reflexivity.
        rewrite List.app_assoc. reflexivity.
      * right. split; [reflexivity|].
        destruct (gen_children try_match_gen pks (tl sks)) as [[cs|]| |];
          cbn [obind option_map] in Hs |- *; congruence.
    + cbn [root_of option_map obind]. destruct fuel as [|fuel]; [right | left];
        try split; reflexivity.
Qed.

(** On trees of the store, null children or not, [macro_try_match] computes
    [try_match_gen] as soon as the budget covers the height of the pattern. *)
Lemma macro_try_match_gen h pt :
  forall fuel s, repr h pt -> repr_opt h s -> lheight pt <= fuel ->
                 or_timeout (macro_try_match fuel h (Some (root pt)) (root_of s))
                            (try_match_gen pt s).
Proof.
  induction pt as [a d ks IH] using ltree_ind. intros fuel s Rp Rs Hfuel.
  destruct fuel as [|fuel]; [simpl in Hfuel; lia|].
  pose proof (repr_data _ _ Rp) as Hd. simpl in Hd.
  cbn [macro_try_match deref obind root try_match_gen]. rewrite Hd.
  destruct (String.eqb d "_") eqn:Hw; [left; reflexivity|].
  destruct s as [st|]; [|left; reflexivity]. simpl in Rs.
  cbn [root_of option_map deref obind].
  rewrite (repr_data _ _ Rs), (repr_length _ _ Rs).
  pose proof (repr_length _ _ Rp) as Hl. simpl in Hl. rewrite Hl.
  destruct (String.eqb d (ldata st)) eqn:Hdd; simpl; [|left; reflexivity].
  destruct (List.length ks =? List.length (lkids st)) eqn:Hll; simpl; [|left; reflexivity].
  destruct (match_loop_gen h fuel a (root st) ks (lkids st) 0 []) as [-> | [-> Hs]].
  - intros j. apply (repr_kid h (LNode a d ks) j Rp).
  - intros j. apply (repr_kid h st j Rs).
  - rewrite List.Forall_forall in IH |- *. intros [k|] Hin; [|exact I].
    intros s Rs'. apply (IH (Some k) Hin); [|exact Rs'|].
    + pose proof (repr_children _ _ Rp) as Hc. cbn [lkids] in Hc.
      rewrite List.Forall_forall in Hc. exact (Hc (Some k) Hin).
    + pose proof (lheight_unfold a d ks k Hin). lia.
  - apply (repr_children _ _ Rs).
  - left. destruct (gen_children try_match_gen ks (lkids st)) as [[cs|]| |]; reflexivity.
  - right. split; [reflexivity|].
    destruct (gen_children try_match_gen ks (lkids st)) as [[cs|]| |];
      cbn [obind option_map] in Hs; congruence.
Qed.

(** A result other than an error is the one of [try_match_gen]. *)
Lemma macro_try_match_gen_ok h pt fuel s res :
  repr h pt -> repr_opt h s -> lheight pt <= fuel ->
  (macro_try_match fuel h (Some (root pt)) (root_of s) = Ok res <-> try_match_gen pt s = Ok res).
Proof.
  intros Rp Rs Hfuel.
  destruct (macro_try_match_gen h pt fuel s Rp Rs Hfuel) as [-> | [-> ->]];
    [reflexivity | split; discriminate].
Qed.

(** ** The store *)

Lemma get_lookup (h : heap) (n : loc) : get h n = default (blank "") (h !! n).
Proof. unfold get. apply nth_lookup. Qed.

Lemma length_set h n x : List.length (set h n x) = List.length h.
Proof. unfold set. apply length_insert. Qed.

Lemma get_set_eq h n x : n < List.length h -> get (set h n x) n = x.
Proof.
  intros Hn. rewrite get_lookup. unfold set. rewrite list_lookup_insert_eq; auto.
Qed.

Lemma get_set_ne h n m x : n <> m -> get (set h n x) m = get h m.
Proof.
  intros Hn. rewrite !get_lookup. unfold set. rewrite list_lookup_insert_ne; auto.
Qed.

Lemma get_app_l h k n : n < List.length h -> get (h ++ k) n = get h n.
Proof. intros Hn. rewrite !get_lookup. rewrite lookup_app_l; auto. Qed.

Lemma get_alloc h d : get (h ++ [blank d]) (List.length h) = blank d.
Proof.
  rewrite get_lookup. rewrite lookup_app_r by lia. rewrite Nat.sub_diag. reflexivity.
Qed.

Lemma extends_refl h : extends h h.
Proof. exists []. symmetry. apply List.app_nil_r. Qed.

Lemma extends_trans h1 h2 h3 : extends h1 h2 -> extends h2 h3 -> extends h1 h3.
Proof. intros [k1 ->] [k2 ->]. exists (k1 ++ k2). symmetry. apply List.app_assoc. Qed.

Lemma extends_length h h' : extends h h' -> List.length h <= List.length h'.
Proof. intros [k ->]. rewrite List.length_app. lia. Qed.

Lemma extends_get h h' n : extends h h' -> n < List.length h -> get h' n = get h n.
Proof. intros [k ->] Hn. apply get_app_l. exact Hn. Qed.

Lemma extends_alloc h d : extends h (snd (alloc h d)).
Proof. exists [blank d]. reflexivity. Qed.

Lemma extends_set h h' n x : extends h h' -> List.length h <= n -> extends h (set h' n x).
Proof.
  intros [k ->] Hn. exists (<[n - List.length h := x]> k). unfold set.
  apply insert_app_r_alt. exact Hn.
Qed.

Lemma extends_push h h' n v : extends h h' -> List.length h <= n -> extends h (Node.push h' n v).
Proof. intros He Hn. unfold Node.push, set_kids. apply extends_set; assumption. Qed.

Lemma kids_push h n v :
  n < List.length h -> kids (get (Node.push h n v) n) = kids (get h n) ++ [v].
Proof. intros Hn. unfold Node.push, set_kids. rewrite get_set_eq; auto. Qed.

Lemma get_push_ne h n m v : n <> m -> get (Node.push h n v) m = get h m.
Proof. intros Hn. unfold Node.push, set_kids. apply get_set_ne. exact Hn. Qed.

Lemma data_push h n m v : data (get (Node.push h n v) m) = data (get h m).
Proof.
  unfold Node.push, set_kids. destruct (Nat.eq_dec n m) as [<-|Hne].
  - destruct (Nat.lt_ge_cases n (List.length h)) as [Hlt|Hge].
    + rewrite get_set_eq; auto.
    + unfold set. rewrite list_insert_ge; auto.
  - rewrite get_set_ne; auto.
Qed.

Lemma length_push h n v : List.length (Node.push h n v) = List.length h.
Proof. unfold Node.push, set_kids. apply length_set. Qed.

(** ** [map] and [rmap]: what is written *)

Section Frame.

Context {S : Type}.

Lemma same_but_trans n h1 h2 h3 : same_but n h1 h2 -> same_but n h2 h3 -> same_but n h1 h3.
Proof.
  intros [L1 G1] [L2 G2]. split; [lia|]. intros q Hq Hn.
  rewrite G2 by (auto; lia). apply G1; auto.
Qed.

Lemma extends_same_but n h h' : extends h h' -> same_but n h h'.
Proof.
  intros He. split; [apply extends_length; exact He|].
  intros q Hq _. apply extends_get; assumption.
Qed.

Lemma push_same_but n h v : same_but n h (Node.push h n v).
Proof.
  split; [rewrite length_push; lia|]. intros q _ Hn. apply get_push_ne. congruence.
Qed.

Lemma map_loop_state (f : value -> nat -> @action S value) h0 this n d :
  (forall v i, alloc_only (f v i)) -> this < List.length h0 -> List.length h0 <= n ->
  forall count i w w',
    map_state f h0 this n d i w ->
    map_loop f this n i count w = Ok w' ->
    map_state f h0 this n d (i + count) w'.
Proof.
  intros Hf Hthis Hn. induction count as [|count IH]; intros i w w' Hinv Hrun.
  - simpl in Hrun. injection Hrun as <-. rewrite Nat.add_0_r. exact Hinv.
  - cbn [map_loop] in Hrun.
    destruct (f (kid (fst w) this i) i w) as [[v [h1 s1]]| |] eqn:Hcall;
      try discriminate. cbn [obind] in Hrun.
    destruct Hinv as (He & Hlen & K & Hget & HK & Hplaced).
    pose proof (Hf _ _ _ _ _ Hcall) as He1. simpl in He1.
    assert (Hkid0 : kid (fst w) this i = kid h0 this i).
    { unfold kid. rewrite (extends_get h0 (fst w)); auto. }
    assert (Hkid1 : kid h1 this i = kid h0 this i).
    { unfold kid. rewrite (extends_get h0 h1); auto. eapply extends_trans; eauto. }
    pose proof (extends_length _ _ He1) as Hl1.
    rewrite <- Nat.add_succ_comm. eapply IH; [|exact Hrun].
    split; [|split].
    + simpl. apply extends_push; [eapply extends_trans; eauto | exact Hn].
    + simpl. rewrite length_push. lia.
    + set (pushed := match v with Some _ => v | None => kid h1 this i end).
      exists (K ++ [pushed]). simpl. split; [|split].
      * unfold Node.push, set_kids. rewrite get_set_eq by lia.
        rewrite (extends_get (fst w) h1) by auto. rewrite Hget. reflexivity.
      * rewrite List.length_app. simpl. lia.
      * intros j Hj. destruct (Nat.eq_dec j i) as [->|Hne].
        -- rewrite List.app_nth2 by lia. rewrite HK, Nat.sub_diag. simpl.
           exists w, v, (h1, s1). rewrite <- Hkid0. split; [exact Hcall|]. split.
           ++ unfold pushed. rewrite Hkid1, Hkid0. reflexivity.
           ++ apply push_same_but.
        -- rewrite List.app_nth1 by lia.
           destruct (Hplaced j ltac:(lia)) as (wj & rv & wj' & Hc & Hv & Hs).
           exists wj, rv, wj'. split; [exact Hc|]. split; [exact Hv|].
           eapply same_but_trans; [exact Hs|].
           eapply same_but_trans; [apply extends_same_but; exact He1|].
           apply push_same_but.
Qed.

Lemma map_spec (f : value -> nat -> @action S value) this w n w' :
  (forall v i, alloc_only (f v i)) -> this < List.length (fst w) ->
  map f this w = Ok (n, w') ->
  n = List.length (fst w) /\
  map_state f (fst w) this n (data (get (fst w) this)) (node_length (fst w) this) w'.
Proof.
  intros Hf Hthis Hrun. unfold map in Hrun. cbn [alloc] in Hrun.
  destruct (map_loop f this (List.length (fst w)) 0
              (node_length (fst w ++ [blank (data (get (fst w) this))]) this)
              (fst w ++ [blank (data (get (fst w) this))], snd w)) as [wl| |] eqn:Hloop;
    try discriminate.
  cbn [obind] in Hrun. injection Hrun as <- <-. split; [reflexivity|].
  assert (Hnl : node_length (fst w ++ [blank (data (get (fst w) this))]) this
                = node_length (fst w) this).
  { unfold node_length. rewrite get_app_l; auto. }
  rewrite Hnl in Hloop.
  apply (map_loop_state f (fst w) this (List.length (fst w))
           (data (get (fst w) this)) Hf Hthis (Nat.le_refl _)
           (node_length (fst w) this) 0
           (fst w ++ [blank (data (get (fst w) this))], snd w) wl); [|exact Hloop].
  split; [|split].
  - simpl. eexists. reflexivity.
  - simpl. rewrite List.length_app. simpl. lia.
  - exists []. simpl. split; [apply get_alloc|]. split; [reflexivity|]. intros j Hj. lia.
Qed.

Lemma map_alloc_only (f : value -> nat -> @action S value) this :
  (forall v i, alloc_only (f v i)) -> alloc_only (map f this).
Proof.
  intros Hf w n w' Hrun.
  destruct (Nat.lt_ge_cases this (List.length (fst w))) as [Hlt|Hge].
  - destruct (map_spec f this w n w' Hf Hlt Hrun) as (_ & He & _). exact He.
  - (* [this] is no node of the store: it reads as a node without children *)
    unfold map in Hrun. cbn [alloc] in Hrun.
    assert (Hnl : node_length (fst w ++ [blank (data (get (fst w) this))]) this = 0).
    { unfold node_length, get. destruct (Nat.eq_dec this (List.length (fst w))) as [->|Hne].
      - rewrite List.app_nth2 by lia. rewrite Nat.sub_diag. reflexivity.
      - rewrite List.nth_overflow; [reflexivity|]. rewrite List.length_app. simpl. lia. }
    rewrite Hnl in Hrun. simpl in Hrun. injection Hrun as <- <-. simpl.
    eexists. reflexivity.
Qed.

Lemma rmap_alloc_only (f : loc -> @action S value) :
  (forall n, alloc_only (f n)) -> forall fuel this, alloc_only (rmap fuel f this).
Proof.
  intros Hf. induction fuel as [|fuel IH]; intros this w out w' Hrun; [discriminate|].
  cbn [rmap] in Hrun.
  destruct (f this w) as [[rv w1]| |] eqn:Hcall; try discriminate. cbn [obind] in Hrun.
  pose proof (Hf _ _ _ _ Hcall) as He.
  assert (Hdesc : forall res,
             map (fun c _ w2 =>
                    match c with
                    | Some n => let* (n', w3) := rmap fuel f n w2 in Ok (Some n', w3)
                    | None => Ok (None, w2)
                    end) this w1 = Ok res -> extends (fst w) (fst (snd res))).
  { intros [n wn] Hm. simpl. eapply extends_trans; [exact He|].
    eapply map_alloc_only; [|exact Hm].
    intros [c|] i w2 rr w3 Hc.
    - destruct (rmap fuel f c w2) as [[n' w4]| |] eqn:Hr; try discriminate.
      simpl in Hc. injection Hc as <- <-. eapply IH. exact Hr.
    - injection Hc as <- <-. apply extends_refl. }
  destruct rv as [r'|].
  - destruct (r' =? this).
    + apply (Hdesc _ Hrun).
    + injection Hrun as <- <-. exact He.
  - apply (Hdesc _ Hrun).
Qed.

End Frame.

(** ** [flatten] *)

Lemma flatten_right_extends h0 d n :
  List.length h0 <= n ->
  forall fuel i h h', extends h0 h -> flatten_right fuel d n i h = Ok h' -> extends h0 h'.
Proof.
  intros Hn. induction fuel as [|fuel IH]; intros i h h' He Hrun; [discriminate|].
  cbn [flatten_right] in Hrun. destruct i as [x|].
  - destruct (String.eqb (data (get h x)) d).
    + eapply IH; [|exact Hrun]. apply extends_push; assumption.
    + injection Hrun as <-. apply extends_push; assumption.
  - injection Hrun as <-. apply extends_push; assumption.
Qed.

Lemma pushes_extend h0 n :
  List.length h0 <= n ->
  forall vs h, extends h0 h -> extends h0 (fold_left (fun h' v => Node.push h' n v) vs h).
Proof.
  intros Hn. induction vs as [|v vs IH]; intros h He; simpl; [exact He|].
  apply IH. apply extends_push; assumption.
Qed.

Lemma flatten_result fuel this h out h' :
  flatten fuel this h = Ok (out, h') ->
  extends h h' /\
  (if flattens h this then out = List.length h else out = this /\ h' = h).
Proof.
  unfold flatten, flattens.
  destruct (has parse_lr (data (get h this)) && negb (node_length h this =? 0)); simpl.
  - destruct (has parse_associates_right (data (get h this))).
    + destruct (flatten_right fuel (data (get h this)) (List.length h) (Some this)
                  (h ++ [blank (data (get h this))])) as [h2| |] eqn:Hr; try discriminate.
      simpl. intros [= <- <-]. split; [|reflexivity].
      eapply flatten_right_extends; [| |exact Hr]; [lia|]. eexists. reflexivity.
    + destruct (flatten_left fuel (data (get h this)) (Some this) []
                  (h ++ [blank (data (get h this))])) as [ns| |] eqn:Hl; try discriminate.
      simpl. intros [= <- <-]. split; [|reflexivity].
      apply pushes_extend; [lia|]. eexists. reflexivity.
  - intros [= <- <-]. split; [apply extends_refl | split; reflexivity].
Qed.

Lemma repr_extends h h' t : extends h h' -> repr h t -> repr h' t.
Proof.
  intros He. induction t as [a d ks IH] using ltree_ind. rewrite !repr_unfold.
  intros (Ha & Hd & Hk & Hall). pose proof (extends_length _ _ He).
  rewrite (extends_get h h') by assumption. repeat split; auto; [lia|].
  rewrite List.Forall_forall in *. intros [k|] Hin; simpl; [|exact I].
  apply (IH (Some k) Hin). apply (Hall (Some k) Hin).
Qed.

Lemma repr_first_child h a d k ks : repr h (LNode a d (Some k :: ks)) -> repr h k.
Proof. rewrite repr_unfold. intros (_ & _ & _ & Hall). inversion Hall; subst. assumption. Qed.

Lemma repr_nth_child h t i k :
  repr h t -> nth i (lkids t) None = Some k -> repr h k.
Proof.
  intros Hr Hn. pose proof (repr_children _ _ Hr) as Hall.
  rewrite List.Forall_forall in Hall. apply (Hall (Some k)).
  rewrite <- Hn. apply List.nth_In.
  destruct (Nat.lt_ge_cases i (List.length (lkids t))) as [Hlt|Hge]; [exact Hlt|].
  rewrite List.nth_overflow in Hn by assumption. discriminate.
Qed.

Lemma lheight_nth_child t i k :
  nth i (lkids t) None = Some k -> lheight k < lheight t.
Proof.
  intros Hn. destruct t as [a d ks]. apply lheight_unfold. simpl in Hn.
  rewrite <- Hn. apply List.nth_In.
  destruct (Nat.lt_ge_cases i (List.length ks)) as [Hlt|Hge]; [exact Hlt|].
  rewrite List.nth_overflow in Hn by assumption. discriminate.
Qed.

(** The loop of the right-associative case ends on a tree. *)
Lemma flatten_right_total h0 d n :
  List.length h0 <= n ->
  forall fuel i h,
    extends h0 h ->
    match i with Some x => exists t, root t = x /\ repr h0 t /\ lheight t < fuel
               | None => 0 < fuel end ->
    exists h', flatten_right fuel d n i h = Ok h'.
Proof.
  intros Hn. induction fuel as [|fuel IH]; intros i h He Hi.
  - destruct i as [x|]; [destruct Hi as (t & _ & _ & Hlt)|]; lia.
  - cbn [flatten_right]. destruct i as [x|]; [|eexists; reflexivity].
    destruct Hi as (t & <- & Hr & Hlt).
    destruct (String.eqb (data (get h (root t))) d); [|eexists; reflexivity].
    apply IH; [apply extends_push; assumption|].
    pose proof (repr_allocated _ _ Hr) as Ha.
    assert (Hk : kid (Node.push h n (kid h (root t) 0)) (root t) 1
                 = root_of (nth 1 (lkids t) None)).
    { unfold kid at 1. rewrite get_push_ne by lia.
      rewrite (extends_get h0 h) by assumption. apply (repr_kid h0 t 1 Hr). }
    rewrite Hk. destruct (nth 1 (lkids t) None) as [k|] eqn:Hn1; simpl.
    + exists k. split; [reflexivity|]. split; [eapply repr_nth_child; eauto|].
      pose proof (lheight_nth_child t 1 k Hn1). lia.
    + destruct t. simpl in Hlt. lia.
Qed.

(** The loop of the left-associative case ends on a tree whose chain of left
    operands ends in a node. *)
Lemma flatten_left_total h d :
  forall fuel t ns, repr h t -> left_spine d t -> lheight t <= fuel ->
                    exists ns', flatten_left fuel d (Some (root t)) ns h = Ok ns'.
Proof.
  induction fuel as [|fuel IH]; intros t ns Hr Hs Hlt.
  - destruct t. simpl in Hlt. lia.
  - cbn [flatten_left deref obind]. rewrite (repr_data _ _ Hr).
    destruct (String.eqb (ldata t) d) eqn:Hd; [|eexists; reflexivity].
    apply String.eqb_eq in Hd. destruct t as [a d' ks]. simpl in Hd. subst d'.
    simpl in Hs. destruct Hs as [Hne|Hs]; [congruence|].
    destruct ks as [|[k|] ks]; try contradiction.
    pose proof (repr_kid h _ 0 Hr) as Hk0. simpl in Hk0. cbn [root]. rewrite Hk0.
    apply (IH k); auto.
    + eapply repr_first_child. exact Hr.
    + pose proof (lheight_unfold a d (Some k :: ks) k (or_introl eq_refl)). lia.
Qed.

(** X30. Whenever [flatten] returns, it has written to no existing node:
    in the store after the call [t] (and every other node) has the data,
    children, sibling and parent links it had.  The value returned is [t]
    itself, the store being the same, when the data of [t] is not in
    [parse_lr] or [t] has no children; otherwise it is a node created by the
    call, distinct from [t].  On a tree the call does return in the first
    case, and in the second case too when the operator is right-associative
    or the chain of left operands ends in a node. *)
Theorem flatten_frame (h : heap) (t : ltree) (fuel : nat) :
  repr h t -> lheight t < fuel ->
  (forall out h', flatten fuel (root t) h = Ok (out, h') ->
     extends h h' /\ get h' (root t) = get h (root t) /\
     (if flattens h (root t)
      then out = List.length h /\ out <> root t
      else out = root t /\ h' = h)) /\
  (flattens h (root t) = false -> flatten fuel (root t) h = Ok (root t, h)) /\
  (flattens h (root t) = true ->
   has parse_associates_right (ldata t) = true \/ left_spine (ldata t) t ->
   exists h', flatten fuel (root t) h = Ok (List.length h, h')).
Proof.
  intros Hr Hfuel. pose proof (repr_allocated _ _ Hr) as Ha. split; [|split].
  - intros out h' Hrun. destruct (flatten_result _ _ _ _ _ Hrun) as [He Hout].
    split; [exact He|]. split; [apply extends_get; assumption|].
    destruct (flattens h (root t)); [split; [exact Hout | lia] | exact Hout].
  - intros Hc. unfold flatten. unfold flattens in Hc. rewrite Hc. reflexivity.
  - intros Hc Hcase. unfold flatten. unfold flattens in Hc. rewrite Hc. simpl.
    rewrite (repr_data _ _ Hr).
    destruct (has parse_associates_right (ldata t)) eqn:Hright.
    + destruct (flatten_right_total h (ldata t) (List.length h) (Nat.le_refl _)
                  fuel (Some (root t)) (h ++ [blank (ldata t)])) as [h2 Hh2].
      * eexists. reflexivity.
      * exists t. auto.
      * rewrite Hh2. simpl. eexists. reflexivity.
    + destruct Hcase as [Hcase|Hspine]; [discriminate|].
      destruct (flatten_left_total (h ++ [blank (ldata t)]) (ldata t) fuel t []) as [ns Hns].
      * eapply repr_extends; [|exact Hr]. eexists. reflexivity.
      * exact Hspine.
      * lia.
      * rewrite Hns. simpl. eexists. reflexivity.
Qed.

(** C10. The tree of [; x] is the node [;] over a null and [x].  Its data
    is in [parse_lr], it has children and [;] is left-associative, so
    [flatten] walks down the left operands; the loop tests [i.data] with no
    test of [i], the left operand is null, and the call throws a TypeError
    instead of returning a new node.  The loop of the right-associative case
    tests [i && i.data === d]: on the tree of [a =], whose right operand is
    null, the call returns a new node. *)
Theorem flatten_throws_on_null_left_operand :
  (exists n h,
      Parse.parse 20 "; x" = Ok (n, h) /\
      freeze 3 h n = Some (Tree ";" [None; Some (Tree "x" [])]) /\
      flattens h n = true /\
      forall fuel, flatten (2 + fuel) n h = Throw TypeError) /\
  (exists n h,
      Parse.parse 20 "a =" = Ok (n, h) /\
      freeze 3 h n = Some (Tree "=" [Some (Tree "a" []); None]) /\
      flattens h n = true /\
      forall fuel, exists h',
          flatten (2 + fuel) n h = Ok (List.length h, h') /\
          freeze 3 h' (List.length h) = Some (Tree "=" [Some (Tree "a" []); None])).
Proof.
  split.
  - destruct (Parse.parse 20 "; x") as [[n h]| |] eqn:Hp; try (vm_compute in Hp; discriminate).
    exists n, h. split; [reflexivity|].
    vm_compute in Hp. injection Hp as <- <-. split; [reflexivity|]. split; [reflexivity|].
    intros fuel. reflexivity.
  - destruct (Parse.parse 20 "a =") as [[n h]| |] eqn:Hp; try (vm_compute in Hp; discriminate).
    exists n, h. split; [reflexivity|].
    vm_compute in Hp. injection Hp as <- <-. split; [reflexivity|]. split; [reflexivity|].
    intros fuel. eexists. split; reflexivity.
Qed.

(** ** [rmap] on a tree *)



Lemma built_kids_impl (R R' : loc -> shape -> Prop) ks :
  Forall (fun k => match k with
                   | Some sh => forall o, R o sh -> R' o sh
                   | None => True
                   end) ks ->
  forall outs, built_kids R ks outs -> built_kids R' ks outs.
Proof.
  induction 1 as [|k ks Hk Hall IH]; intros outs Hb.
  - exact Hb.
  - destruct k as [sh|]; destruct outs as [|[o|] outs]; simpl in *; try contradiction.
    + destruct Hb as [Ho Hb]. split; [apply Hk; exact Ho | apply IH; exact Hb].
    + apply IH. exact Hb.
Qed.

Lemma built_kids_app (R : loc -> shape -> Prop) ks1 :
  forall outs1 ks2 outs2,
    built_kids R ks1 outs1 -> built_kids R ks2 outs2 ->
    built_kids R (ks1 ++ ks2) (outs1 ++ outs2).
Proof.
  induction ks1 as [|k ks1 IH]; intros outs1 ks2 outs2 H1 H2.
  - destruct outs1; [exact H2 | contradiction].
  - destruct k as [sh|]; destruct outs1 as [|[o|] outs1]; simpl in *; try contradiction.
    + destruct H1 as [Ho H1]. split; [exact Ho | apply IH; assumption].
    + apply IH; assumption.
Qed.

Lemma built_weaken base base' h sh :
  base <= base' -> forall o, built base' h o sh -> built base h o sh.
Proof.
  intros Hb. induction sh as [r|d ks IH] using shape_ind; intros o Ho.
  - exact Ho.
  - cbn [built] in *. destruct Ho as (H1 & H2 & H3 & H4 & H5 & H6 & Hk).
    repeat split; auto; [lia|]. eapply built_kids_impl; [|exact Hk]. exact IH.
Qed.

Lemma built_stable n base h1 h2 sh :
  same_but n h1 h2 -> n < base -> forall o, built base h1 o sh -> built base h2 o sh.
Proof.
  intros [Hl Hs] Hn. induction sh as [r|d ks IH] using shape_ind; intros o Ho.
  - exact Ho.
  - cbn [built] in *. destruct Ho as (H1 & H2 & H3 & H4 & H5 & H6 & Hk).
    rewrite (Hs o) by lia. repeat split; auto; [lia|].
    eapply built_kids_impl; [|exact Hk]. exact IH.
Qed.

Section RmapShape.

Context {S : Type}.
Variable g : loc -> @action S value.
Variable choose : ltree -> S -> value * S.

Hypothesis g_driven : driven g choose.

Lemma rmap_children fuel h0 this n d ks :
  n = List.length h0 -> this < List.length h0 ->
  kids (get h0 this) = List.map root_of ks ->
  Forall (repr_opt h0) ks ->
  Forall (fun k => match k with Some t => rmap_ok g choose fuel t | None => True end) ks ->
  forall rest pre K shs hc st,
    ks = pre ++ rest -> List.length K = List.length pre ->
    extends h0 hc -> n < List.length hc ->
    get hc n = SyntaxNode d K None None None ->
    built_kids (built (Datatypes.S n) hc) shs K ->
    exists h' K',
      map_loop (rmap_child g fuel) this n (List.length pre) (List.length rest) (hc, st)
      = Ok (h', snd (spec_kids (rmap_spec choose) rest st)) /\
      extends h0 h' /\ n < List.length h' /\
      get h' n = SyntaxNode d (K ++ K') None None None /\
      built_kids (built (Datatypes.S n) h')
                 (shs ++ fst (spec_kids (rmap_spec choose) rest st)) (K ++ K').
Proof.
  intros Hn Hthis Hkids Hrepr Hok.
  induction rest as [|k rest IH]; intros pre K shs hc st Hks HK He Hlen Hget Hbuilt.
  - exists hc, []. simpl. rewrite !List.app_nil_r. auto.
  - assert (Hkid : forall hx, extends h0 hx -> kid hx this (List.length pre) = root_of k).
    { intros hx Hx. unfold kid. rewrite (extends_get h0 hx) by assumption.
      rewrite Hkids, Hks. change None with (root_of None).
      rewrite List.map_nth. rewrite List.app_nth2 by lia. rewrite Nat.sub_diag.
      reflexivity. }
    assert (Hin : In k ks) by (rewrite Hks; apply List.in_or_app; right; left; reflexivity).
    cbn [List.length map_loop]. cbn [fst]. rewrite (Hkid hc He).
    destruct k as [t|].
    + rewrite List.Forall_forall in Hrepr, Hok.
      pose proof (Hrepr _ Hin) as Hrt. pose proof (Hok _ Hin) as Hokt. simpl in Hrt, Hokt.
      destruct (Hokt hc st (repr_extends _ _ _ He Hrt)) as (out & h1 & Hrun & He1 & Hb1).
      cbn [rmap_child root_of option_map]. rewrite Hrun. cbn [obind].
      cbn [spec_kids].
      destruct (rmap_spec choose t st) as [sh st'] eqn:Hspec. cbn [fst snd] in *.
      destruct (spec_kids (rmap_spec choose) rest st') as [shs' st''] eqn:Hrest.
      pose proof (extends_length _ _ He1) as Hl1.
      assert (Hsb : same_but n hc (Node.push h1 n (Some out))).
      { eapply same_but_trans; [apply extends_same_but; exact He1|]. apply push_same_but. }
      destruct (IH (pre ++ [Some t]) (K ++ [Some out]) (shs ++ [Some sh])
                   (Node.push h1 n (Some out)) st') as (h' & K' & Hloop & He' & Hl' & Hg' & Hb').
      * rewrite Hks, <- List.app_assoc. reflexivity.
      * rewrite !List.length_app. simpl. lia.
      * apply extends_push; [eapply extends_trans; eauto | lia].
      * rewrite length_push. lia.
      * unfold Node.push, set_kids. rewrite get_set_eq by lia.
        rewrite (extends_get hc h1) by assumption. rewrite Hget. reflexivity.
      * apply built_kids_app.
        -- eapply built_kids_impl; [|exact Hbuilt].
           apply List.Forall_forall. intros [sh0|] _; [|exact I].
           intros o. apply (built_stable n); [exact Hsb | lia].
        -- simpl. split; [|exact I].
           apply (built_stable n _ h1); [apply push_same_but | lia |].
           eapply built_weaken; [|exact Hb1]. lia.
      * rewrite List.length_app in Hloop. simpl in Hloop.
        rewrite Nat.add_1_r in Hloop. rewrite Hrest in Hloop, Hb'. cbn [fst snd] in *.
        exists h', ([Some out] ++ K'). rewrite List.app_assoc.
        cbn [fst snd]. split; [exact Hloop|]. split; [exact He'|]. split; [exact Hl'|].
        split; [exact Hg'|]. rewrite <- List.app_assoc in Hb'. exact Hb'.
    + cbn [rmap_child root_of option_map obind]. rewrite (Hkid hc He).
      cbn [root_of option_map spec_kids].
      destruct (spec_kids (rmap_spec choose) rest st) as [shs' st''] eqn:Hrest.
      destruct (IH (pre ++ [None]) (K ++ [None]) (shs ++ [None])
                   (Node.push hc n None) st) as (h' & K' & Hloop & He' & Hl' & Hg' & Hb').
      * rewrite Hks, <- List.app_assoc. reflexivity.
      * rewrite !List.length_app. simpl. lia.
      * apply extends_push; [assumption | lia].
      * rewrite length_push. lia.
      * unfold Node.push, set_kids. rewrite get_set_eq by lia. rewrite Hget. reflexivity.
      * apply built_kids_app.
        -- eapply built_kids_impl; [|exact Hbuilt].
           apply List.Forall_forall. intros [sh0|] _; [|exact I].
           intros o. apply (built_stable n); [apply push_same_but | lia].
        -- simpl. exact I.
      * rewrite List.length_app in Hloop. simpl in Hloop.
        rewrite Nat.add_1_r in Hloop. rewrite Hrest in Hloop, Hb'. cbn [fst snd] in *.
        exists h', ([None] ++ K'). rewrite List.app_assoc.
        split; [exact Hloop|]. split; [exact He'|]. split; [exact Hl'|].
        split; [exact Hg'|]. rewrite <- List.app_assoc in Hb'. exact Hb'.
Qed.

Lemma rmap_shape t : forall fuel, lheight t <= fuel -> rmap_ok g choose fuel t.
Proof.
  induction t as [a d ks IH] using ltree_ind. intros fuel Hfuel hc st Hr.
  destruct fuel as [|fuel]; [simpl in Hfuel; lia|].
  pose proof (g_driven hc _ st Hr) as Hg. cbn [root] in Hg.
  cbn [rmap root]. rewrite Hg. cbn [obind].
  pose proof Hr as Hr'. apply repr_unfold in Hr'. destruct Hr' as (Ha & Hd & Hk & Hall).
  assert (Hdescend :
            exists h' shs st2,
              spec_kids (rmap_spec choose) ks (snd (choose (LNode a d ks) st)) = (shs, st2) /\
              map (rmap_child g fuel) a (hc, snd (choose (LNode a d ks) st))
              = Ok (List.length hc, (h', st2)) /\
              extends hc h' /\ built (List.length hc) h' (List.length hc) (Fresh d shs)).
  { destruct (rmap_children fuel hc a (List.length hc) d ks eq_refl Ha Hk Hall) with
      (rest := ks) (pre := @nil (option ltree)) (K := @nil value)
      (shs := @nil (option shape)) (hc := hc ++ [blank d])
      (st := snd (choose (LNode a d ks) st)) as (h' & K' & Hloop & He & Hl & Hget & Hb).
    - rewrite List.Forall_forall in IH |- *. intros [k|] Hin; [|exact I].
      apply (IH (Some k) Hin). pose proof (lheight_unfold a d ks k Hin). lia.
    - reflexivity.
    - reflexivity.
    - eexists. reflexivity.
    - rewrite List.length_app. simpl. lia.
    - rewrite <- Hd. apply get_alloc.
    - exact I.
    - destruct (spec_kids (rmap_spec choose) ks (snd (choose (LNode a d ks) st)))
        as [shs st2] eqn:Hs.
      exists h', shs, st2. split; [reflexivity|]. cbn [fst snd] in *.
      simpl in Hloop, Hget, Hb. split; [|split; [exact He|]].
      + unfold map. cbn [alloc fst snd]. rewrite Hd.
        assert (Hnl : node_length (hc ++ [blank d]) a = List.length ks).
        { unfold node_length. rewrite get_app_l by assumption. rewrite Hk.
          apply List.length_map. }
        rewrite Hnl, Hloop. reflexivity.
      + cbn [built]. rewrite Hget. simpl. repeat split; auto.
        eapply built_kids_impl; [|exact Hb].
        apply List.Forall_forall. intros [sh0|] _; [|exact I].
        intros o. apply built_weaken. lia. }
  destruct Hdescend as (h' & shs & st2 & Hs & Hmap & He & Hb).
  fold (rmap_child g fuel). cbn [rmap_spec].
  destruct (choose (LNode a d ks) st) as [v st1] eqn:Hc. cbn [fst snd] in *.
  rewrite Hs. destruct v as [r'|].
  - destruct (r' =? a) eqn:Hra.
    + exists (List.length hc), h'. auto.
    + exists r', hc. split; [reflexivity|]. split; [apply extends_refl | reflexivity].
  - exists (List.length hc), h'. auto.
Qed.

End RmapShape.


(** ** The macro expander *)

Section VisitTried.

Context {S : Type}.
Variable mfuel : nat.
Variable n : loc.


End VisitTried.

Lemma visit_from_alloc_only {S : Type} (mfuel : nat) (macros : list value)
      (expanders : list (@expander S)) :
  (forall e ws, In e expanders -> alloc_only (e ws)) ->
  forall count i n, alloc_only (visit_from mfuel macros expanders count i n).
Proof.
  intros He. induction count as [|count IH]; intros i n w v w' Hrun.
  - injection Hrun as <- <-. apply extends_refl.
  - cbn [visit_from] in Hrun. destruct (nth i macros None) as [m|].
    + destruct (macro_try_match mfuel (fst w) (Some m) (Some n)) as [[ws|]| |];
        try discriminate; cbn [obind] in Hrun.
      * destruct (nth_error expanders i) as [e|] eqn:Hn; try discriminate.
        pose proof (He e ws (List.nth_error_In _ _ Hn)) as Hea.
        destruct (e ws w) as [[[x|] w1]| |] eqn:Hcall; try discriminate;
          cbn [obind] in Hrun.
        -- injection Hrun as <- <-. eapply Hea. exact Hcall.
        -- eapply extends_trans; [eapply Hea; exact Hcall|]. eapply IH. exact Hrun.
      * eapply IH. exact Hrun.
    + injection Hrun as <- <-. apply extends_refl.
Qed.

Lemma expand_child_alloc_only {S : Type} (fuel mfuel : nat) (macros : list value)
      (expanders : list (@expander S)) :
  (forall e ws, In e expanders -> alloc_only (e ws)) ->
  forall c i, alloc_only (expand_child fuel mfuel macros expanders c i).
Proof.
  intros He [c|] i w v w' Hrun; unfold expand_child in Hrun.
  - destruct (macro_expand fuel mfuel c macros expanders w) as [[n' w3]| |] eqn:Hm;
      try discriminate.
    cbn [obind] in Hrun. injection Hrun as <- <-.
    unfold macro_expand in Hm. eapply rmap_alloc_only; [|exact Hm].
    intros n. unfold visit. apply visit_from_alloc_only. exact He.
  - injection Hrun as <- <-. apply extends_refl.
Qed.

(** C2. When the expanders tried at a node [t] end with a node [r] distinct
    from [t], the expansion of [t] is [r] itself and nothing more is run: the
    world is the one the expander left, whatever the recursion budget, so the
    children of [r] are not visited.  Descent happens only when no
    replacement was produced (or the expander returned [t] itself): the
    expansion is then a copy of [t] over the expansions of its children, each
    standing where the child stood. *)
Theorem macro_expand_cutoff {S : Type} (fuel mfuel : nat) (macros : list value)
        (expanders : list (@expander S)) (t : loc) (w w1 : @world S) (v : value) :
  visit mfuel macros expanders t w = Ok (v, w1) ->
  (forall x, v = Some x -> x <> t ->
             macro_expand (Datatypes.S fuel) mfuel t macros expanders w = Ok (x, w1)) /\
  (v = None \/ v = Some t ->
   macro_expand (Datatypes.S fuel) mfuel t macros expanders w
   = expand_children fuel mfuel macros expanders t w1) /\
  ((forall e ws, In e expanders -> alloc_only (e ws)) -> t < List.length (fst w1) ->
   forall n w', expand_children fuel mfuel macros expanders t w1 = Ok (n, w') ->
     n = List.length (fst w1) /\
     exists K,
       get (fst w') n = SyntaxNode (data (get (fst w1) t)) K None None None /\
       List.length K = node_length (fst w1) t /\
       forall j, j < List.length K ->
                 placed (expand_child fuel mfuel macros expanders) (fst w1) t n j
                        (nth j K None) (fst w')).
Proof.
  intros Hv. split; [|split].
  - intros x -> Hne. unfold macro_expand. cbn [rmap]. rewrite Hv. cbn [obind].
    apply Nat.eqb_neq in Hne. rewrite Hne. reflexivity.
  - intros [-> | ->]; unfold macro_expand; cbn [rmap]; rewrite Hv; cbn [obind].
    + reflexivity.
    + rewrite Nat.eqb_refl. reflexivity.
  - intros He Ht n w' Hrun. unfold expand_children in Hrun.
    destruct (map_spec _ t w1 n w' (expand_child_alloc_only fuel mfuel macros expanders He)
                Ht Hrun) as (Hn & _ & _ & K & Hget & Hlen & Hpl).
    split; [exact Hn|]. exists K. split; [exact Hget|]. split; [exact Hlen|].
    intros j Hj. apply Hpl. lia.
Qed.



(** ** The linked structure: what the node operations write *)

Lemma get_set h q x m :
  get (set h q x) m = if bool_decide (q = m /\ q < List.length h) then x else get h m.
Proof.
  case_bool_decide as Hd.
  - destruct Hd as [-> Hlt]. apply get_set_eq. exact Hlt.
  - destruct (Nat.eq_dec q m) as [->|Hne].
    + unfold set. rewrite list_insert_ge; [reflexivity|]. lia.
    + apply get_set_ne. exact Hne.
Qed.

Ltac fields :=
  unfold set_l, set_r, set_p, set_kids;
  repeat rewrite get_set;
  repeat case_bool_decide;
  repeat match goal with H : _ /\ _ |- _ => destruct H end;
  subst; simpl; try reflexivity; try tauto; try lia; try congruence.

Lemma length_set_l h q v : List.length (set_l h q v) = List.length h.
Proof. apply length_set. Qed.
Lemma length_set_r h q v : List.length (set_r h q v) = List.length h.
Proof. apply length_set. Qed.
Lemma length_set_p h q v : List.length (set_p h q v) = List.length h.
Proof. apply length_set. Qed.
Lemma length_set_kids h q v : List.length (set_kids h q v) = List.length h.
Proof. apply length_set. Qed.

Lemma data_set_l h q v m : data (get (set_l h q v) m) = data (get h m).
Proof. fields. Qed.
Lemma data_set_r h q v m : data (get (set_r h q v) m) = data (get h m).
Proof. fields. Qed.
Lemma data_set_p h q v m : data (get (set_p h q v) m) = data (get h m).
Proof. fields. Qed.
Lemma data_set_kids h q v m : data (get (set_kids h q v) m) = data (get h m).
Proof. fields. Qed.

Lemma kids_set_l h q v m : kids (get (set_l h q v) m) = kids (get h m).
Proof. fields. Qed.
Lemma kids_set_r h q v m : kids (get (set_r h q v) m) = kids (get h m).
Proof. fields. Qed.
Lemma kids_set_p h q v m : kids (get (set_p h q v) m) = kids (get h m).
Proof. fields. Qed.
Lemma kids_set_kids_ne h q v m : q <> m -> kids (get (set_kids h q v) m) = kids (get h m).
Proof. intros. fields. Qed.
Lemma kids_set_kids_eq h q v : q < List.length h -> kids (get (set_kids h q v) q) = v.
Proof. intros. fields. Qed.

Lemma l_set_r h q v m : l (get (set_r h q v) m) = l (get h m).
Proof. fields. Qed.
Lemma l_set_p h q v m : l (get (set_p h q v) m) = l (get h m).
Proof. fields. Qed.
Lemma l_set_kids h q v m : l (get (set_kids h q v) m) = l (get h m).
Proof. fields. Qed.
Lemma l_set_l_ne h q v m : q <> m -> l (get (set_l h q v) m) = l (get h m).
Proof. intros. fields. Qed.

Lemma r_set_l h q v m : r (get (set_l h q v) m) = r (get h m).
Proof. fields. Qed.
Lemma r_set_p h q v m : r (get (set_p h q v) m) = r (get h m).
Proof. fields. Qed.
Lemma r_set_kids h q v m : r (get (set_kids h q v) m) = r (get h m).
Proof. fields. Qed.
Lemma r_set_r_ne h q v m : q <> m -> r (get (set_r h q v) m) = r (get h m).
Proof. intros. fields. Qed.
Lemma r_set_r_eq h q v : q < List.length h -> r (get (set_r h q v) q) = v.
Proof. intros. fields. Qed.

Lemma p_set_l h q v m : p (get (set_l h q v) m) = p (get h m).
Proof. fields. Qed.
Lemma p_set_r h q v m : p (get (set_r h q v) m) = p (get h m).
Proof. fields. Qed.
Lemma p_set_kids h q v m : p (get (set_kids h q v) m) = p (get h m).
Proof. fields. Qed.
Lemma p_set_p_ne h q v m : q <> m -> p (get (set_p h q v) m) = p (get h m).
Proof. intros. fields. Qed.
Lemma p_set_p_eq h q v : q < List.length h -> p (get (set_p h q v) q) = v.
Proof. intros. fields. Qed.

Module NodeFacts.

Import Node.

Lemma length_replace h this x : List.length (replace h this x) = List.length h.
Proof.
  unfold replace.
  repeat (match goal with |- context [match ?o with Some _ => _ | None => _ end] =>
                            destruct o end);
    repeat first [rewrite length_set_l | rewrite length_set_r]; reflexivity.
Qed.

Lemma data_replace h this x m : data (get (replace h this x) m) = data (get h m).
Proof.
  unfold replace.
  repeat (match goal with |- context [match ?o with Some _ => _ | None => _ end] =>
                            destruct o end);
    repeat first [rewrite data_set_l | rewrite data_set_r]; reflexivity.
Qed.

Lemma kids_replace h this x m : kids (get (replace h this x) m) = kids (get h m).
Proof.
  unfold replace.
  repeat (match goal with |- context [match ?o with Some _ => _ | None => _ end] =>
                            destruct o end);
    repeat first [rewrite kids_set_l | rewrite kids_set_r]; reflexivity.
Qed.

Lemma p_replace h this x m : p (get (replace h this x) m) = p (get h m).
Proof.
  unfold replace.
  repeat (match goal with |- context [match ?o with Some _ => _ | None => _ end] =>
                            destruct o end);
    repeat first [rewrite p_set_l | rewrite p_set_r]; reflexivity.
Qed.

(** The new node takes the right link of the node it replaces. *)
Lemma r_replace h this x :
  x < List.length h -> this <> x ->
  l (get h this) <> Some this -> l (get h this) <> Some x ->
  r (get (replace h this x) x) = r (get h this).
Proof.
  intros Hx Hne Hl1 Hl2. unfold replace.
  rewrite (l_set_l_ne h x _ this) by congruence.
  destruct (l (get h this)) as [tl|] eqn:Hl.
  - assert (tl <> this) by (intros ->; apply Hl1; reflexivity).
    assert (tl <> x) by (intros ->; apply Hl2; reflexivity).
    rewrite (r_set_r_ne _ x _ this) by congruence.
    rewrite (r_set_r_ne _ tl _ this) by congruence. rewrite r_set_l.
    destruct (r (get h this)) as [tr|] eqn:Hr.
    + rewrite r_set_l. rewrite r_set_r_eq; [reflexivity|].
      rewrite length_set_r, length_set_l. exact Hx.
    + rewrite r_set_r_eq; [reflexivity|]. rewrite length_set_r, length_set_l. exact Hx.
  - rewrite (r_set_r_ne _ x _ this) by congruence. rewrite r_set_l.
    destruct (r (get h this)) as [tr|] eqn:Hr.
    + rewrite r_set_l. rewrite r_set_r_eq; [reflexivity|]. rewrite length_set_l. exact Hx.
    + rewrite r_set_r_eq; [reflexivity|]. rewrite length_set_l. exact Hx.
Qed.

Lemma length_reparent h this x : List.length (reparent h this x) = List.length h.
Proof.
  unfold reparent. destruct (p (get h this)) as [par|]; [|reflexivity].
  destruct (kids (get h par)) as [|[first|] rest]; try reflexivity.
  destruct (first =? this); [apply length_set_kids | reflexivity].
Qed.

Lemma data_reparent h this x m : data (get (reparent h this x) m) = data (get h m).
Proof.
  unfold reparent. destruct (p (get h this)) as [par|]; [|reflexivity].
  destruct (kids (get h par)) as [|[first|] rest]; try reflexivity.
  destruct (first =? this); [apply data_set_kids | reflexivity].
Qed.

Lemma r_reparent h this x m : r (get (reparent h this x) m) = r (get h m).
Proof.
  unfold reparent. destruct (p (get h this)) as [par|]; [|reflexivity].
  destruct (kids (get h par)) as [|[first|] rest]; try reflexivity.
  destruct (first =? this); [apply r_set_kids | reflexivity].
Qed.

Lemma p_reparent h this x m : p (get (reparent h this x) m) = p (get h m).
Proof.
  unfold reparent. destruct (p (get h this)) as [par|]; [|reflexivity].
  destruct (kids (get h par)) as [|[first|] rest]; try reflexivity.
  destruct (first =? this); [apply p_set_kids | reflexivity].
Qed.

(** [reparent] writes to the parent of [this] only. *)
Lemma kids_reparent h this x m :
  p (get h this) <> Some m -> kids (get (reparent h this x) m) = kids (get h m).
Proof.
  intros Hp. unfold reparent. destruct (p (get h this)) as [par|]; [|reflexivity].
  destruct (kids (get h par)) as [|[first|] rest]; try reflexivity.
  destruct (first =? this); [|reflexivity]. apply kids_set_kids_ne. congruence.
Qed.

Lemma length_unlink h this x : List.length (unlink h this x) = List.length h.
Proof.
  unfold unlink. rewrite length_reparent, length_set_l, length_set_r.
  repeat (match goal with |- context [match ?o with Some _ => _ | None => _ end] =>
                            destruct o end);
    repeat first [rewrite length_set_l | rewrite length_set_r]; reflexivity.
Qed.

Lemma data_unlink h this x m : data (get (unlink h this x) m) = data (get h m).
Proof.
  unfold unlink. rewrite data_reparent, data_set_l, data_set_r.
  repeat (match goal with |- context [match ?o with Some _ => _ | None => _ end] =>
                            destruct o end);
    repeat first [rewrite data_set_l | rewrite data_set_r]; reflexivity.
Qed.

Lemma p_unlink h this x m : p (get (unlink h this x) m) = p (get h m).
Proof.
  unfold unlink. rewrite p_reparent, p_set_l, p_set_r.
  repeat (match goal with |- context [match ?o with Some _ => _ | None => _ end] =>
                            destruct o end);
    repeat first [rewrite p_set_l | rewrite p_set_r]; reflexivity.
Qed.

Lemma kids_unlink h this x m :
  p (get h this) <> Some m -> kids (get (unlink h this x) m) = kids (get h m).
Proof.
  intros Hp. unfold unlink. rewrite kids_reparent.
  - rewrite kids_set_l, kids_set_r.
    repeat (match goal with |- context [match ?o with Some _ => _ | None => _ end] =>
                              destruct o end);
      repeat first [rewrite kids_set_l | rewrite kids_set_r]; reflexivity.
  - rewrite p_set_l, p_set_r.
    repeat (match goal with |- context [match ?o with Some _ => _ | None => _ end] =>
                              destruct o end);
      repeat first [rewrite p_set_l | rewrite p_set_r]; exact Hp.
Qed.

Lemma length_append h this x : List.length (append h this x) = List.length h.
Proof.
  unfold append, push. destruct x; [rewrite length_set_p|]; apply length_set_kids.
Qed.

Lemma data_append h this x m : data (get (append h this x) m) = data (get h m).
Proof.
  unfold append, push. destruct x; [rewrite data_set_p|]; apply data_set_kids.
Qed.

Lemma kids_append h this x :
  this < List.length h -> kids (get (append h this x) this) = kids (get h this) ++ [x].
Proof.
  intros Hlt. unfold append, push. destruct x; [rewrite kids_set_p|];
    apply kids_set_kids_eq; exact Hlt.
Qed.

Lemma r_append h this x m : r (get (append h this x) m) = r (get h m).
Proof.
  unfold append, push. destruct x; [rewrite r_set_p|]; apply r_set_kids.
Qed.

Lemma p_append_child h this c :
  c < List.length h -> p (get (append h this (Some c)) c) = Some this.
Proof.
  intros Hc. unfold append, push. apply p_set_p_eq. rewrite length_set_kids. exact Hc.
Qed.

Lemma p_append_other h this x m : x <> Some m -> p (get (append h this x) m) = p (get h m).
Proof.
  intros Hx. unfold append, push. destruct x as [c|].
  - rewrite p_set_p_ne by congruence. apply p_set_kids.
  - apply p_set_kids.
Qed.

End NodeFacts.

Module WrapFacts.

Import Node NodeFacts.

Lemma length_wrap h this x : List.length (wrap h this x) = List.length h.
Proof.
  unfold wrap, append_to. rewrite length_append, length_set_l, length_set_r,
    length_reparent, length_set_p, length_replace. reflexivity.
Qed.

Lemma data_wrap h this x m : data (get (wrap h this x) m) = data (get h m).
Proof.
  unfold wrap, append_to. rewrite data_append, data_set_l, data_set_r,
    data_reparent, data_set_p, data_replace. reflexivity.
Qed.

Lemma kids_wrap h this x :
  x < List.length h -> this <> x -> p (get h this) <> Some x ->
  kids (get (wrap h this x) x) = kids (get h x) ++ [Some this].
Proof.
  intros Hx Hne Hp. unfold wrap, append_to. rewrite kids_append.
  - rewrite kids_set_l, kids_set_r, kids_reparent.
    + rewrite kids_set_p, kids_replace. reflexivity.
    + rewrite p_set_p_ne by congruence. rewrite p_replace. exact Hp.
  - rewrite length_set_l, length_set_r, length_reparent, length_set_p, length_replace.
    exact Hx.
Qed.

Lemma p_wrap_this h this x :
  this < List.length h -> p (get (wrap h this x) this) = Some x.
Proof.
  intros Ht. unfold wrap, append_to. apply p_append_child.
  rewrite length_set_l, length_set_r, length_reparent, length_set_p, length_replace.
  exact Ht.
Qed.

Lemma p_wrap_other h this x m :
  m <> this -> m <> x -> p (get (wrap h this x) m) = p (get h m).
Proof.
  intros H1 H2. unfold wrap, append_to. rewrite p_append_other by congruence.
  rewrite p_set_l, p_set_r, p_reparent, p_set_p_ne by congruence. apply p_replace.
Qed.

Lemma r_wrap h this x :
  x < List.length h -> this <> x ->
  l (get h this) <> Some this -> l (get h this) <> Some x ->
  r (get (wrap h this x) x) = r (get h this).
Proof.
  intros Hx Hne Hl1 Hl2. unfold wrap, append_to.
  rewrite r_append, r_set_l, r_set_r_ne by congruence.
  rewrite r_reparent, r_set_p. apply r_replace; assumption.
Qed.

Lemma fold_r_takes h this tr :
  this < List.length h -> r (get h this) = Some tr -> p (get h tr) <> Some this ->
  List.length (fold_r h this) = List.length h /\
  data (get (fold_r h this) this) = data (get h this) /\
  kids (get (fold_r h this) this) = kids (get h this) ++ [Some tr].
Proof.
  intros Ht Hr Hp. unfold fold_r. rewrite Hr.
  rewrite length_append, length_unlink, data_append, data_unlink.
  split; [reflexivity|]. split; [reflexivity|].
  rewrite kids_append by (rewrite length_unlink; exact Ht).
  rewrite kids_unlink by exact Hp. reflexivity.
Qed.

End WrapFacts.

(** ** The operator fold loop *)

Lemma ambiguous_entries : entries parse_ambiguous_group = [("[", true); ("(", true)].
Proof. vm_compute. reflexivity. Qed.

Lemma ambiguous_data d :
  has parse_ambiguous_group d = true -> d = "[" \/ d = "(".
Proof.
  unfold has. intros H. apply andb_true_iff in H. destruct H as [H Hown].
  apply andb_true_iff in H. destruct H as [_ Hmax].
  unfold own in Hown. apply orb_true_iff in Hown. destruct Hown as [Hk|Hk].
  - unfold key_present in Hk. rewrite ambiguous_entries in Hk. cbn [existsb fst] in Hk.
    destruct (String.eqb "[" d) eqn:H1; [apply String.eqb_eq in H1; auto|].
    destruct (String.eqb "(" d) eqn:H2; [apply String.eqb_eq in H2; auto|].
    discriminate.
  - apply String.eqb_eq in Hk. subst d. vm_compute in Hmax. discriminate.
Qed.

(** C7. A [(] or [[] group is made an invocation or a dereference exactly
    when it has a left sibling that is a [.] node or is neither an operator
    nor one of [function], [if], [for], [while], [catch].  Then a new node
    is created with data [()] or [[]], whose child 0 is the former left
    sibling and whose child 1 is the group, and it is recorded among the
    invocation nodes; otherwise the fold loop leaves everything as it is. *)
Theorem ambiguous_group_reclassified (rb : Parse.ribbon) (node : loc) :
  let h := Parse.store rb in
  has parse_ambiguous_group (data (get h node)) = true ->
  (forall nl, left_sibling h nl node -> callee_like (data (get h nl)) = true ->
     exists rb',
       Parse.fold_node node rb = Ok rb' /\
       List.length (Parse.store rb') = Datatypes.S (List.length h) /\
       data (get (Parse.store rb') (List.length h))
       = (if String.eqb (data (get h node)) "(" then "()" else "[]") /\
       kids (get (Parse.store rb') (List.length h)) = [Some nl; Some node] /\
       Parse.invocation_nodes rb' = Parse.invocation_nodes rb ++ [List.length h]) /\
  (match l (get h node) with
   | Some nl => callee_like (data (get h nl)) = false
   | None => True
   end -> Parse.fold_node node rb = Ok rb).
Proof.
  intros h Hamb. pose proof (ambiguous_data _ Hamb) as Hd. split.
  - intros nl (Hl & Hr & Hself & Hnl & Hnode & Lnl & Lnode) Hcallee.
    assert (Hne : node <> nl) by (intros ->; congruence).
    set (d := data (get h node)) in *.
    set (closer := match lookup_key parse_group d with Some x => x | None => "undefined" end).
    set (n := List.length h).
    set (h1 := h ++ [blank (d ++ closer)]).
    assert (Hlen1 : List.length h1 = Datatypes.S n)
      by (unfold h1; rewrite List.length_app; simpl; fold n; lia).
    assert (Hold : forall q, q < n -> get h1 q = get h q)
      by (intros q Hq; apply get_app_l; exact Hq).
    assert (Hnew : get h1 n = blank (d ++ closer)) by apply get_alloc.
    set (h2 := Node.wrap h1 nl n).
    assert (Hp2 : p (get h2 nl) = Some n)
      by (apply WrapFacts.p_wrap_this; rewrite Hlen1; lia).
    assert (Hk2 : kids (get h2 n) = [Some nl]).
    { unfold h2. rewrite WrapFacts.kids_wrap.
      - rewrite Hnew. reflexivity.
      - lia.
      - lia.
      - rewrite Hold by lia. intros Hp. pose proof (Lnl n). fold n in H. 
        assert (n < n) by (apply H; auto). lia. }
    assert (Hr2 : r (get h2 n) = Some node).
    { unfold h2. rewrite WrapFacts.r_wrap.
      - rewrite Hold by lia. exact Hr.
      - lia.
      - lia.
      - rewrite Hold by lia. exact Hself.
      - rewrite Hold by lia. intros Hx. assert (n < n) by (apply (Lnl n); auto). lia. }
    assert (Hpn : p (get h2 node) <> Some n).
    { unfold h2. rewrite WrapFacts.p_wrap_other by lia. rewrite Hold by lia.
      intros Hx. assert (n < n) by (apply (Lnode n); auto). lia. }
    destruct (WrapFacts.fold_r_takes h2 n node) as (Hlen3 & Hd3 & Hk3); auto.
    { unfold h2. rewrite WrapFacts.length_wrap, Hlen1. lia. }
    unfold Parse.fold_node. fold h. fold d.
    assert (Hlr : has parse_lr d = false) by (destruct Hd as [-> | ->]; reflexivity).
    rewrite Hlr, Hamb, Hl. unfold callee_like in Hcallee. rewrite Hcallee.
    cbn [andb deref obind]. unfold Parse.create. cbn [alloc]. fold closer. fold n. fold h1.
    cbv zeta.
    match goal with |- context [deref ?x] => change x with (p (get h2 nl)) end.
    rewrite Hp2. cbn [deref obind].
    match goal with |- context [Node.fold_r ?x n] => change x with h2 end.
    eexists. split; [reflexivity|].
    cbn [Parse.with_invocation Parse.with_store Parse.store Parse.invocation_nodes].
    split; [rewrite Hlen3; unfold h2; rewrite WrapFacts.length_wrap; exact Hlen1|].
    split; [|split; [|reflexivity]].
    + rewrite Hd3. unfold h2. rewrite WrapFacts.data_wrap, Hnew. unfold closer.
      destruct Hd as [-> | ->]; reflexivity.
    + rewrite Hk3, Hk2. reflexivity.
  - intros Hno. unfold Parse.fold_node. fold h.
    assert (Hcond : has parse_ambiguous_group (data (get h node))
                    && match l (get h node) with
                       | Some nl =>
                           String.eqb (data (get h nl)) "."
                           || negb (has lex_op (data (get h nl))
                                    || has parse_not_a_value (data (get h nl)))
                       | None => false
                       end = false).
    { destruct (l (get h node)) as [nl|]; [|apply andb_false_r].
      unfold callee_like in Hno. rewrite Hno. apply andb_false_r. }
    rewrite Hcond. destruct Hd as [-> | ->]; reflexivity.
Qed.

(** ** The lexer *)

Lemma block_keywords_grab d : In d block_keywords -> has parse_r_until_block d = true.
Proof.
  unfold block_keywords. simpl.
  intros [<-|[<-|[<-|[<-|[<-|[<-|[<-|[]]]]]]]]; vm_compute; reflexivity.
Qed.

(** C6. When an iteration of the main lex loop has read a close-paren and
    the node to the left of the group that it ends (the left sibling of
    [head]) is one of [if], [for], [while], [with], [do], [catch],
    [function], the lexer is in regular-expression mode afterwards; and on
    [if (condition) /foo/.test(x)] the lexer makes [/foo/] one token. *)
Theorem regexp_mode_after_block_paren :
  (forall (s : string) (fuel : nat) (k k' : Parse.cursor) (rb rb' : Parse.ribbon)
          (g kw : loc),
      Parse.iteration s fuel k rb = Ok (k', rb') ->
      Parse.t k' = Parse.TStr ")" ->
      Parse.head rb' = Some g ->
      l (get (Parse.store rb') g) = Some kw ->
      In (data (get (Parse.store rb') kw)) block_keywords ->
      Parse.re k' = true) /\
  (exists k rb,
      Parse.lex 30 "if (condition) /foo/.test(x)" = Ok (k, rb) /\
      List.map data (Parse.store rb)
      = ["if"; "("; "condition"; "/foo/"; "."; "test"; "("; "x"]).
Proof.
  split.
  - intros s fuel k k' rb rb' g kw Hrun Ht Hhead Hl Hkw.
    unfold Parse.iteration in Hrun.
    destruct (Parse.skip_space s fuel k) as [k1| |]; try discriminate. cbn [obind] in Hrun.
    match type of Hrun with
    | obind ?x _ = _ => destruct x as [k3| |]; try discriminate
    end.
    cbn [obind] in Hrun.
    destruct (Parse.i k3 =? Parse.mark k3); [discriminate|].
    assert (Htok : forall tk,
               (let* re1 := Parse.regexp_flag tk (Parse.re k3) (Parse.group tk rb) in
                Ok (Parse.Cursor (Parse.mark k3) (Parse.c k3) re1 (Parse.esc k3)
                                 (Parse.dot k3) (Parse.exp k3) (Parse.close k3)
                                 (Parse.TStr tk) (Parse.i k3), Parse.group tk rb))
               = Ok (k', rb') -> Parse.re k' = true).
    { intros tk Hr.
      destruct (Parse.regexp_flag tk (Parse.re k3) (Parse.group tk rb)) as [re1| |] eqn:Hflag;
        try discriminate.
      cbn [obind] in Hr. injection Hr as <- <-. cbn [Parse.t Parse.re] in *.
      injection Ht as ->. unfold Parse.regexp_flag in Hflag.
      rewrite String.eqb_refl in Hflag.
      rewrite Hhead in Hflag. cbn [deref obind] in Hflag. rewrite Hl in Hflag.
      rewrite (block_keywords_grab _ Hkw), orb_true_r in Hflag. congruence. }
    destruct (Parse.t k3) as [| |x] eqn:Htk.
    + injection Hrun as <- <-. rewrite Htk in Ht. discriminate.
    + apply (Htok _ Hrun).
    + apply (Htok _ Hrun).
  - vm_compute. eexists. eexists. split; reflexivity.
Qed.

Lemma block_comment_unclosed fuel : forall i0, 2 <= i0 -> Parse.block_comment "/*" fuel i0 = Timeout.
Proof.
  induction fuel as [|fuel IH]; intros i0 Hi; [reflexivity|].
  cbn [Parse.block_comment].
  assert (Hcs : JsString.charCodeAt "/*" (Datatypes.S i0 - 1) = None).
  { replace (Datatypes.S i0 - 1) with (Datatypes.S (Datatypes.S (i0 - 2))) by lia.
    reflexivity. }
  rewrite Hcs. cbn [Parse.code_is negb]. rewrite orb_true_r. apply IH. lia.
Qed.

(** C8, at the input [/*]: whatever the step budget, the lexer has not
    returned and has raised no error; the scan for the end of the block
    comment goes on past the end of the input.  So [parse] does not return on
    this input. *)
Theorem lexer_runs_forever_on_open_comment (fuel : nat) :
  Parse.lex fuel "/*" = Timeout /\ Parse.parse fuel "/*" = Timeout.
Proof.
  assert (Hlex : Parse.lex fuel "/*" = Timeout).
  { unfold Parse.lex. destruct fuel as [|fuel]; [reflexivity|].
    cbn [Parse.lex_loop]. change (Parse.mark _ <? String.length "/*") with true. cbv iota.
    unfold Parse.iteration. destruct fuel as [|fuel]; [reflexivity|].
    cbn [Parse.skip_space]. 
    change (lex_space (JsString.charCodeAt "/*" (Parse.i _)) &&
            (Parse.i _ <? String.length "/*")) with false. cbv iota. cbn [obind].
    unfold Parse.scan. cbn [Parse.c Parse.i Parse.mark].
    change (lex_bracket (JsString.charCodeAt "/*" 0)) with false. cbv iota.
    change (Parse.code_is (JsString.charCodeAt "/*" 0) lex_slash &&
            Parse.code_is (JsString.charCodeAt "/*" (0 + 1)) lex_star) with true. cbv iota.
    rewrite block_comment_unclosed by (simpl; lia). reflexivity. }
  split; [exact Hlex|]. unfold Parse.parse. rewrite Hlex. reflexivity.
Qed.

(** ** Parse and serialize *)

(** C5, at the input [a - -b]: the tree parsed is [-] over [a] and [u-] over
    [b]; it is serialized as [a--b], which parses to another tree, the
    postfix decrement of [a] followed by [b]. *)
Theorem round_trip_breaks_on_unary_minus :
  (let* (n1, h1) := Parse.parse 20 "a - -b" in
   let* text := serialize 20 h1 n1 in
   let* (n2, h2) := Parse.parse 20 text in
   Ok (freeze 20 h1 n1, text, freeze 20 h2 n2))
  = Ok (Some (Tree "-" [Some (Tree "a" []); Some (Tree "u-" [Some (Tree "b" [])])]),
        "a--b",
        Some (Tree "i;" [Some (Tree "--" [Some (Tree "a" [])]); Some (Tree "b" [])])).
Proof. vm_compute. reflexivity. Qed.

(** *** The loops of the lexer end *)

Section LexerHalts.

Variable s : string.
Let len : nat := String.length s.

Lemma skip_space_halts fuel :
  forall k, len - Parse.i k < fuel ->
            exists k1, Parse.skip_space s fuel k = Ok k1 /\
                       Parse.i k <= Parse.i k1 /\
                       Parse.c k1 = JsString.charCodeAt s (Parse.i k1) /\
                       (Parse.mark k = Parse.i k -> Parse.mark k1 = Parse.i k1).
Proof.
  induction fuel as [|fuel IH]; intros k Hf; [lia|].
  cbn [Parse.skip_space].
  destruct (lex_space (JsString.charCodeAt s (Parse.i k))
            && (Parse.i k <? String.length s)) eqn:Hc.
  - apply andb_true_iff in Hc. destruct Hc as [_ Hlt]. apply Nat.ltb_lt in Hlt.
    destruct (IH (Parse.Cursor (S (Parse.i k)) (JsString.charCodeAt s (Parse.i k))
                               (Parse.re k) (Parse.esc k) (Parse.dot k) (Parse.exp k)
                               (Parse.close k) (Parse.t k) (S (Parse.i k))))
      as (k1 & Hrun & Hi & Hcc & Hm).
    + cbn [Parse.i]. unfold len in *. lia.
    + exists k1. split; [exact Hrun|]. cbn [Parse.i Parse.mark] in *.
      split; [lia|]. split; [exact Hcc|]. intros _. apply Hm. reflexivity.
  - eexists. split; [reflexivity|]. cbn [Parse.i Parse.mark Parse.c]. auto.
Qed.

Lemma advance_while_halts cls fuel :
  forall i0, len - i0 < fuel ->
             exists i1, Parse.advance_while s fuel cls i0 = Ok i1 /\ i0 < i1.
Proof.
  induction fuel as [|fuel IH]; intros i0 Hf; [lia|].
  cbn [Parse.advance_while].
  destruct ((S i0 <? String.length s) && cls (JsString.charCodeAt s (S i0))) eqn:Hc.
  - apply andb_true_iff in Hc. destruct Hc as [Hlt _]. apply Nat.ltb_lt in Hlt.
    destruct (IH (S i0)) as (i1 & Hrun & Hi); [unfold len in *; lia|].
    exists i1. split; [exact Hrun | lia].
  - eexists. split; [reflexivity | lia].
Qed.

Lemma literal_body_halts cl fuel :
  forall i0 c0 esc0,
    (len - S i0) + 2 <= fuel ->
    exists out, Parse.literal_body s fuel cl i0 c0 esc0 = Ok out /\ i0 < fst (fst out).
Proof.
  induction fuel as [|fuel IH]; intros i0 c0 esc0 Hf; [lia|].
  cbn [Parse.literal_body].
  destruct (S i0 <? String.length s) eqn:Hlt.
  - apply Nat.ltb_lt in Hlt.
    match goal with
    | |- context [if ?b then _ else _] => destruct b eqn:Hc
    end.
    + match goal with
      | |- context [Parse.literal_body s fuel cl (S i0) ?c ?e] =>
          destruct (IH (S i0) c e) as (out & Hrun & Hi)
      end.
      * unfold len in *. lia.
      * exists out. split; [exact Hrun | lia].
    + eexists. split; [reflexivity | simpl; lia].
  - cbn [andb orb]. destruct esc0.
    + (* past the end with the escape flag set: one more turn clears it *)
      destruct fuel as [|fuel]; [lia|].
      cbn [Parse.literal_body negb andb]. apply Nat.ltb_ge in Hlt.
      assert (Hb : (S (S i0) <? String.length s) = false) by (apply Nat.ltb_ge; lia).
      rewrite Hb. cbn [andb orb]. eexists. split; [reflexivity | simpl; lia].
    + eexists. split; [reflexivity | simpl; lia].
Qed.

Lemma float_body_halts fuel :
  forall i0 c0 dot0 exp0,
    len - i0 < fuel ->
    exists out, Parse.float_body s fuel i0 c0 dot0 exp0 = Ok out /\
                i0 < fst (fst (fst out)).
Proof.
  induction fuel as [|fuel IH]; intros i0 c0 dot0 exp0 Hf; [lia|].
  cbn [Parse.float_body].
  destruct (S i0 <? String.length s) eqn:Hlt.
  - apply Nat.ltb_lt in Hlt.
    assert (Hrec : forall i1 c1 d1 e1,
               S i0 <= i1 ->
               exists out, Parse.float_body s fuel i1 c1 d1 e1 = Ok out /\
                           i0 < fst (fst (fst out))).
    { intros i1 c1 d1 e1 Hi1. destruct (IH i1 c1 d1 e1) as (out & Hrun & Hi).
      - unfold len in *. lia.
      - exists out. split; [exact Hrun | lia]. }
    cbv zeta.
    destruct (lex_decimal (JsString.charCodeAt s (S i0))); [apply Hrec; lia|].
    match goal with
    | |- context [if negb (Z.lxor dot0 ?d1 =? 0)%Z then _ else _] =>
        destruct (negb (Z.lxor dot0 d1 =? 0)%Z); [apply Hrec; lia|]
    end.
    match goal with
    | |- context [if negb (Z.lxor exp0 ?e1 =? 0)%Z then _ else _] =>
        destruct (negb (Z.lxor exp0 e1 =? 0)%Z)
    end.
    + apply Hrec. destruct (lex_exp (JsString.charCodeAt s (S i0))); lia.
    + eexists. split; [reflexivity|]. cbn [fst].
      destruct (lex_exp (JsString.charCodeAt s (S i0))); lia.
  - eexists. split; [reflexivity | simpl; lia].
Qed.

Lemma decimals_halts fuel :
  forall i0, len - i0 < fuel -> exists i1, Parse.decimals s fuel i0 = Ok i1 /\ i0 <= i1.
Proof.
  induction fuel as [|fuel IH]; intros i0 Hf; [lia|].
  cbn [Parse.decimals].
  destruct ((i0 <? String.length s) && lex_decimal (JsString.charCodeAt s i0)) eqn:Hc.
  - apply andb_true_iff in Hc. destruct Hc as [Hlt _]. apply Nat.ltb_lt in Hlt.
    destruct (IH (S i0)) as (i1 & Hrun & Hi); [unfold len in *; lia|].
    exists i1. split; [exact Hrun | lia].
  - eexists. split; [reflexivity | lia].
Qed.

Lemma operator_halts fuel :
  forall i0 t0, len - i0 < fuel ->
                exists out, Parse.operator s fuel i0 t0 = Ok out /\ i0 <= fst out.
Proof.
  induction fuel as [|fuel IH]; intros i0 t0 Hf; [lia|].
  cbn [Parse.operator].
  match goal with
  | |- context [if ?b then _ else _] => destruct b eqn:Hc
  end.
  - apply andb_true_iff in Hc. destruct Hc as [Hc _].
    apply andb_true_iff in Hc. destruct Hc as [Hlt _]. apply Nat.ltb_lt in Hlt.
    match goal with
    | |- context [Parse.operator s fuel (S i0) ?t] =>
        destruct (IH (S i0) t) as (out & Hrun & Hi)
    end.
    + unfold len in *. lia.
    + exists out. split; [exact Hrun | lia].
  - eexists. split; [reflexivity | simpl; lia].
Qed.

(** The scan of a block comment ends at the first [*/], if there is one. *)
Lemma block_comment_halts j :
  j < len ->
  Parse.code_is (JsString.charCodeAt s j) lex_slash = true ->
  Parse.code_is (JsString.charCodeAt s (j - 1)) lex_star = true ->
  forall fuel i0, i0 < j -> j - i0 <= fuel ->
                  exists i1, Parse.block_comment s fuel i0 = Ok i1 /\ i0 < i1.
Proof.
  intros Hj Hslash Hstar. induction fuel as [|fuel IH]; intros i0 Hi Hf; [lia|].
  cbn [Parse.block_comment].
  match goal with
  | |- context [if ?b then _ else _] => destruct b eqn:Hc
  end.
  - destruct (Nat.eq_dec (S i0) j) as [Heq|Hne].
    + exfalso. rewrite Heq in Hc. rewrite Hslash, Hstar in Hc.
      cbn [negb andb orb] in Hc. rewrite andb_false_r in Hc. discriminate.
    + destruct (IH (S i0)) as (i1 & Hrun & Hlt); [lia|lia|].
      exists i1. split; [exact Hrun | lia].
  - eexists. split; [reflexivity | lia].
Qed.

Hypothesis comments_closed : closed_comments s.

Lemma scan_halts fuel k :
  Parse.c k = JsString.charCodeAt s (Parse.i k) ->
  (len - Parse.i k) + 1 < fuel ->
  exists k3, Parse.scan s fuel k = Ok k3 /\ Parse.i k <= Parse.i k3 /\
             Parse.mark k3 = Parse.mark k.
Proof.
  intros Hck Hf. unfold Parse.scan.
  destruct (lex_bracket (Parse.c k)).
  { eexists. split; [reflexivity|]. cbn [Parse.i Parse.mark]. split; [lia | reflexivity]. }
  destruct (Parse.code_is (Parse.c k) lex_slash
            && Parse.code_is (JsString.charCodeAt s (Parse.i k + 1)) lex_star) eqn:Hcomment.
  { apply andb_true_iff in Hcomment. destruct Hcomment as [H1 H2]. rewrite Hck in H1.
    destruct (comments_closed _ H1 H2) as (j & Hj3 & Hjl & Hjs & Hjt).
    destruct (block_comment_halts j Hjl Hjs Hjt fuel (Parse.i k + 2)) as (i1 & Hrun & Hi);
      [lia | unfold len in *; lia |].
    rewrite Hrun. cbn [obind]. eexists. split; [reflexivity|].
    cbn [Parse.i Parse.mark]. split; [lia | reflexivity]. }
  destruct (Parse.code_is (Parse.c k) lex_slash
            && Parse.code_is (JsString.charCodeAt s (Parse.i k + 1)) lex_slash).
  { destruct (advance_while_halts (fun x => negb (lex_eol x)) fuel (Parse.i k))
      as (i1 & Hrun & Hi); [lia|].
    rewrite Hrun. cbn [obind]. eexists. split; [reflexivity|].
    cbn [Parse.i Parse.mark]. split; [lia | reflexivity]. }
  cbv zeta.
  destruct (lex_quote (Parse.c k) && Parse.re k).
  { match goal with
    | |- context [Parse.literal_body s fuel ?cl ?i0 ?c0 ?e0] =>
        destruct (literal_body_halts cl fuel i0 c0 e0) as ([[i1 c1] e1] & Hrun & Hi)
    end.
    { lia. }
    rewrite Hrun. cbn [obind fst snd] in *.
    destruct (Nat.le_gt_cases len i1) as [Hge|Hlt].
    - (* past the end: the suffix loop stops at its first test *)
      destruct fuel as [|fuel]; [lia|]. cbn [Parse.advance_while].
      assert (Hb : (S i1 <? String.length s) = false)
        by (apply Nat.ltb_ge; unfold len in *; lia).
      rewrite Hb. cbn [andb obind]. eexists. split; [reflexivity|].
      cbn [Parse.i Parse.mark]. split; [lia | reflexivity].
    - destruct (advance_while_halts lex_regexp_suffix fuel i1) as (i2 & Hrun2 & Hi2);
        [lia|].
      rewrite Hrun2. cbn [obind]. eexists. split; [reflexivity|].
      cbn [Parse.i Parse.mark]. split; [lia | reflexivity]. }
  destruct (Parse.code_is (Parse.c k) lex_zero
            && lex_integer (JsString.charCodeAt s (Parse.i k + 1))).
  { destruct (advance_while_halts lex_integer fuel (Parse.i k)) as (i1 & Hrun & Hi); [lia|].
    rewrite Hrun. cbn [obind]. eexists. split; [reflexivity|].
    cbn [Parse.i Parse.mark]. split; [lia | reflexivity]. }
  destruct (lex_float (Parse.c k)
            && (negb (Parse.code_is (Parse.c k) lex_dot)
                || lex_decimal (JsString.charCodeAt s (Parse.i k + 1)))).
  { destruct (float_body_halts fuel (Parse.i k) (Parse.c k) (Parse.dot k) (Parse.exp k))
      as ([[[i1 c1] d1] e1] & Hrun & Hi); [lia|].
    rewrite Hrun. cbn [obind fst snd] in *.
    destruct (Nat.le_gt_cases len i1) as [Hge|Hlt].
    - destruct fuel as [|fuel]; [lia|]. cbn [Parse.decimals].
      assert (Hb : (i1 <? String.length s) = false)
        by (apply Nat.ltb_ge; unfold len in *; lia).
      rewrite Hb. cbn [andb obind]. eexists. split; [reflexivity|].
      cbn [Parse.i Parse.mark]. split; [lia | reflexivity].
    - destruct (decimals_halts fuel i1) as (i2 & Hrun2 & Hi2); [lia|].
      rewrite Hrun2. cbn [obind]. eexists. split; [reflexivity|].
      cbn [Parse.i Parse.mark]. split; [lia | reflexivity]. }
  destruct (lex_punct (Parse.c k)).
  { match goal with
    | |- context [Parse.operator s fuel ?i0 ?t0] =>
        destruct (operator_halts fuel i0 t0) as ([i1 t1] & Hrun & Hi)
    end; [lia|].
    rewrite Hrun. cbn [obind fst] in *. eexists. split; [reflexivity|].
    cbn [Parse.i Parse.mark]. split; [lia | reflexivity]. }
  destruct (advance_while_halts lex_ident fuel (Parse.i k)) as (i1 & Hrun & Hi); [lia|].
  rewrite Hrun. cbn [obind]. eexists. split; [reflexivity|].
  cbn [Parse.i Parse.mark]. split; [lia | reflexivity].
Qed.

(** An iteration of the main loop ends, and when it ends without an error
    the position [i] has advanced. *)
Lemma iteration_halts fuel k rb :
  Parse.mark k = Parse.i k -> (len - Parse.i k) + 1 < fuel ->
  Parse.iteration s fuel k rb <> Timeout /\
  forall k' rb', Parse.iteration s fuel k rb = Ok (k', rb') -> Parse.i k < Parse.i k'.
Proof.
  intros Hm Hf. unfold Parse.iteration.
  destruct (skip_space_halts fuel k) as (k1 & Hrun1 & Hi1 & Hc1 & Hm1); [lia|].
  rewrite Hrun1. cbn [obind]. specialize (Hm1 Hm).
  match goal with
  | |- context [Parse.scan s fuel ?k2] =>
      destruct (scan_halts fuel k2) as (k3 & Hrun3 & Hi3 & Hm3)
  end.
  { cbn [Parse.c Parse.i]. exact Hc1. }
  { cbn [Parse.i]. lia. }
  rewrite Hrun3. cbn [obind]. cbn [Parse.i Parse.mark] in Hi3, Hm3.
  destruct (Parse.i k3 =? Parse.mark k3) eqn:Hstall.
  { split; [discriminate|]. intros k' rb' Hr. discriminate. }
  apply Nat.eqb_neq in Hstall.
  assert (Hadv : Parse.i k < Parse.i k3) by lia.
  assert (Hflag : forall tk re0 rb0, Parse.regexp_flag tk re0 rb0 <> Timeout).
  { intros tk re0 rb0. unfold Parse.regexp_flag.
    destruct (String.eqb tk ")"); [|discriminate].
    destruct (Parse.head rb0) as [hd|]; cbn [deref obind]; [|discriminate].
    destruct (l (get (Parse.store rb0) hd)); discriminate. }
  destruct (Parse.t k3) as [| |x].
  - split; [discriminate|]. intros k' rb' [= <- <-]. exact Hadv.
  - match goal with
    | |- context [Parse.regexp_flag ?a ?b ?c] =>
        pose proof (Hflag a b c) as Hnt; destruct (Parse.regexp_flag a b c)
    end; cbn [obind]; (split; [congruence|]); intros k' rb' Hr; try discriminate.
    injection Hr as <- <-. exact Hadv.
  - match goal with
    | |- context [Parse.regexp_flag ?a ?b ?c] =>
        pose proof (Hflag a b c) as Hnt; destruct (Parse.regexp_flag a b c)
    end; cbn [obind]; (split; [congruence|]); intros k' rb' Hr; try discriminate.
    injection Hr as <- <-. exact Hadv.
Qed.

Lemma lex_loop_halts fuel :
  forall k rb, (len - Parse.i k) + 3 <= fuel -> Parse.lex_loop s fuel k rb <> Timeout.
Proof.
  induction fuel as [|fuel IH]; intros k rb Hf; [lia|].
  cbn [Parse.lex_loop]. cbn [Parse.mark].
  destruct (Parse.i k <? String.length s) eqn:Hlt; [|discriminate].
  apply Nat.ltb_lt in Hlt.
  match goal with
  | |- context [Parse.iteration s fuel ?k0 rb] =>
      destruct (iteration_halts fuel k0 rb) as (Hnt & Hadv)
  end.
  { reflexivity. }
  { cbn [Parse.i]. lia. }
  match goal with
  | |- context [Parse.iteration s fuel ?k0 rb] =>
      destruct (Parse.iteration s fuel k0 rb) as [[k1 rb1]| |] eqn:Hit
  end.
  - cbn [obind]. apply IH. specialize (Hadv k1 rb1 eq_refl). cbn [Parse.i] in Hadv.
    unfold len in *. lia.
  - discriminate.
  - congruence.
Qed.

End LexerHalts.

(** X1. When every block comment of the input is closed the lexer ends, with the
    linked structure or with an error, within a budget of the length of the
    input plus three. *)
Theorem lexer_halts_on_closed_comments (s : string) (fuel : nat) :
  closed_comments s -> String.length s + 3 <= fuel -> Parse.lex fuel s <> Timeout.
Proof.
  intros Hc Hf. unfold Parse.lex. apply lex_loop_halts; [exact Hc|].
  cbn [Parse.i Parse.initial_cursor]. lia.
Qed.

(** ** [map] and [rmap] with a function that writes to the store *)

Lemma get_overflow h q : List.length h <= q -> get h q = blank "".
Proof. intros Hq. unfold get. apply List.nth_overflow. exact Hq. Qed.

Lemma points_to_inside h q x : points_to h q x -> q < List.length h.
Proof.
  intros Hp. destruct (Nat.lt_ge_cases q (List.length h)) as [Hlt|Hge]; [exact Hlt|].
  unfold points_to in Hp. rewrite (get_overflow h q Hge) in Hp. simpl in Hp.
  destruct Hp as [[]|[Hp|[Hp|Hp]]]; discriminate.
Qed.

Lemma points_to_alloc h d q x : points_to (h ++ [blank d]) q x -> points_to h q x.
Proof.
  intros Hp. pose proof (points_to_inside _ _ _ Hp) as Hq.
  rewrite List.length_app in Hq. simpl in Hq.
  destruct (Nat.eq_dec q (List.length h)) as [->|Hne].
  - unfold points_to in Hp. rewrite get_alloc in Hp. simpl in Hp.
    destruct Hp as [[]|[Hp|[Hp|Hp]]]; discriminate.
  - unfold points_to in *. rewrite get_app_l in Hp by lia. exact Hp.
Qed.

Lemma get_push_eq h n v :
  n < List.length h -> get (Node.push h n v) n = with_kids (get h n) (kids (get h n) ++ [v]).
Proof. intros Hn. unfold Node.push, set_kids. apply get_set_eq. exact Hn. Qed.

Lemma points_to_push h n v q x :
  points_to (Node.push h n v) q x -> points_to h q x \/ (q = n /\ v = Some x).
Proof.
  intros Hp. destruct (Nat.eq_dec n q) as [<-|Hne].
  - destruct (Nat.lt_ge_cases n (List.length h)) as [Hlt|Hge].
    + unfold points_to in *. rewrite (get_push_eq h n v Hlt) in Hp. cbn [with_kids kids l r p] in Hp.
      destruct Hp as [Hp|Hp]; [|left; right; exact Hp].
      apply List.in_app_or in Hp. destruct Hp as [Hp|[Hp|[]]]; [left; left; exact Hp|].
      right. split; [reflexivity | exact Hp].
    + apply points_to_inside in Hp. rewrite length_push in Hp. lia.
  - left. unfold points_to in *. rewrite get_push_ne in Hp by exact Hne. exact Hp.
Qed.

Section LocalFacts.

Context {S : Type}.
Variable knows : S -> loc -> Prop.

Lemma sealed_equiv (C C' : list loc) (w : @world S) :
  (forall q, In q C <-> In q C') -> sealed knows C w -> sealed knows C' w.
Proof.
  intros Heq (H1 & H2 & H3). split; [|split].
  - intros q x Hp. destruct (H1 q x Hp) as [Hx Hc]. split; [exact Hx|].
    intros Hin. apply Heq. apply Hc. apply Heq. exact Hin.
  - intros x Hk. destruct (H2 x Hk) as [Hx Hc]. split; [exact Hx|].
    intros Hin. apply Hc. apply Heq. exact Hin.
  - intros q Hin. apply H3. apply Heq. exact Hin.
Qed.

Lemma sealed_alloc (C : list loc) (w : @world S) (d : string) :
  sealed knows C w ->
  sealed knows (List.length (fst w) :: C) (fst w ++ [blank d], snd w).
Proof.
  intros (H1 & H2 & H3). unfold sealed. cbn [fst snd]. split; [|split].
  - intros q x Hp. apply points_to_alloc in Hp. destruct (H1 q x Hp) as [Hx Hc].
    rewrite List.length_app. simpl. split; [lia|].
    intros [Heq|Hin]; [lia | right; apply Hc; exact Hin].
  - intros x Hk. destruct (H2 x Hk) as [Hx Hc]. rewrite List.length_app. simpl.
    split; [lia|]. intros [Heq|Hin]; [lia | exact (Hc Hin)].
  - intros q [<-|Hin]; rewrite List.length_app; simpl; [lia|]. specialize (H3 q Hin). lia.
Qed.

Lemma sealed_push (C : list loc) (h : heap) (st : S) (n : loc) (v : value) :
  sealed knows C (h, st) -> In n C -> (forall x, v = Some x -> x < List.length h) ->
  sealed knows C (Node.push h n v, st).
Proof.
  intros (H1 & H2 & H3) Hn Hv. unfold sealed. cbn [fst snd] in *. rewrite length_push.
  split; [|split]; [|exact H2|exact H3].
  intros q x Hp. apply points_to_push in Hp. destruct Hp as [Hp|[-> ->]].
  - exact (H1 q x Hp).
  - split; [apply Hv; reflexivity | intros _; exact Hn].
Qed.

(** A child of a node out of [C] is a node of the store, out of [C]. *)
Lemma sealed_kid (C : list loc) (w : @world S) (t : loc) (i : nat) (c : loc) :
  sealed knows C w -> ~ In t C -> kid (fst w) t i = Some c ->
  c < List.length (fst w) /\ ~ In c C.
Proof.
  intros (H1 & _ & _) Ht Hk.
  assert (Hp : points_to (fst w) t c).
  { left. unfold kid in Hk. rewrite <- Hk. apply List.nth_In.
    destruct (Nat.lt_ge_cases i (List.length (kids (get (fst w) t)))) as [Hlt|Hge];
      [exact Hlt|].
    rewrite List.nth_overflow in Hk by exact Hge. discriminate. }
  destruct (H1 t c Hp) as [Hc Hin]. split; [exact Hc|]. intros Hc'. exact (Ht (Hin Hc')).
Qed.

(** *** One level: [map] *)

Section MapLocal.

Variable f : value -> nat -> @action S value.
Hypothesis f_local : forall v i, local knows v (f v i).
Variables this n : loc.
Variable d : string.
Hypothesis this_other : this <> n.

Lemma map_loop_local :
  forall count i w K0 w',
    sealed knows [n] w -> this < List.length (fst w) ->
    get (fst w) n = SyntaxNode d K0 None None None ->
    map_loop f this n i count w = Ok w' ->
    exists K, map_ran f this n i count w K w' /\
              get (fst w') n = SyntaxNode d (K0 ++ K) None None None /\
              List.length K = count /\ sealed knows [n] w'.
Proof.
  induction count as [|count IH]; intros i w K0 w' Hs Hthis Hget Hrun.
  - injection Hrun as <-. exists []. rewrite List.app_nil_r.
    split; [constructor|]. auto.
  - cbn [map_loop] in Hrun.
    destruct (f (kid (fst w) this i) i w) as [[rv [h1 s1]]| |] eqn:Hcall; try discriminate.
    cbn [obind] in Hrun.
    assert (Hn : n < List.length (fst w)).
    { destruct Hs as (_ & _ & H3). apply H3. left. reflexivity. }
    assert (Hnot : ~ In this [n]) by (intros [Heq|[]]; congruence).
    destruct (f_local (kid (fst w) this i) i [n] w rv (h1, s1) Hs) as (Hlen & Hkeep & Hs1 & Hres).
    { intros t Hk. eapply sealed_kid; eauto. }
    { exact Hcall. }
    cbn [fst snd] in *.
    set (v := match rv with Some _ => rv | None => kid h1 this i end) in *.
    assert (Hv : forall x, v = Some x -> x < List.length h1).
    { intros x Hx. unfold v in Hx. destruct rv as [y|].
      - injection Hx as ->. apply (Hres x eq_refl).
      - apply (sealed_kid [n] (h1, s1) this i x Hs1 Hnot Hx). }
    destruct (IH (Datatypes.S i) (Node.push h1 n v, s1) (K0 ++ [v]) w') as
      (K & Hran & Hget' & HlenK & Hs').
    + apply sealed_push; [exact Hs1 | left; reflexivity | exact Hv].
    + cbn [fst]. rewrite length_push. lia.
    + cbn [fst]. rewrite get_push_eq by lia.
      rewrite (Hkeep n (or_introl eq_refl)), Hget. reflexivity.
    + exact Hrun.
    + exists (v :: K). split; [|split; [|split]].
      * eapply map_ran_step; [exact Hcall | reflexivity | exact Hran].
      * rewrite <- List.app_assoc in Hget'. exact Hget'.
      * simpl. rewrite HlenK. reflexivity.
      * exact Hs'.
Qed.

End MapLocal.

End LocalFacts.

Lemma laid_move (cs cs' : list loc) (h h' : heap) (sh : shape) :
  (forall q, In q cs -> In q cs' /\ get h' q = get h q) ->
  forall o, laid cs h o sh -> laid cs' h' o sh.
Proof.
  intros Hm. induction sh as [x|d ks IH] using shape_ind; intros o Ho.
  - exact Ho.
  - cbn [laid] in *. destruct Ho as (H1 & H2 & H3 & H4 & H5 & Hk).
    destruct (Hm o H1) as [Hin Hget]. rewrite Hget.
    repeat split; auto. eapply built_kids_impl; [|exact Hk]. exact IH.
Qed.

Lemma Forall_flat_map {A B : Type} (P : B -> Prop) (f : A -> list B) (xs : list A) :
  Forall P (flat_map f xs) <-> Forall (fun x => Forall P (f x)) xs.
Proof.
  induction xs as [|x xs IH]; simpl.
  - split; constructor.
  - rewrite List.Forall_app, IH. split.
    + intros [H1 H2]. constructor; assumption.
    + intros H. inversion H; subst. split; assumption.
Qed.

Section RmapLocal.

Context {S : Type}.
Variable knows : S -> loc -> Prop.
Variable g : loc -> @action S value.
Hypothesis g_local : forall t, local knows (Some t) (g t).

Lemma rmap_kids_leave (fuel : nat) (C : list loc) (t n : loc) (d : string) :
  rmap_leaves knows g fuel -> ~ In n C -> t < n ->
  forall count i w K0 shs0 Dacc w',
    sealed knows (n :: Dacc ++ C) w -> t < List.length (fst w) -> ~ In t C ->
    get (fst w) n = SyntaxNode d K0 None None None ->
    built_kids (laid Dacc (fst w)) shs0 K0 ->
    (forall q, In q Dacc -> n < q) ->
    Forall (fun y => y < List.length (fst w) /\ ~ In y (n :: Dacc ++ C))
           (flat_map kid_repls shs0) ->
    map_loop (rmap_child g fuel) t n i count w = Ok w' ->
    List.length (fst w) <= List.length (fst w') /\
    (forall q, In q C -> get (fst w') q = get (fst w) q) /\
    exists ks K D,
      ran_kids g t n i count w ks w' /\
      get (fst w') n = SyntaxNode d (K0 ++ K) None None None /\
      built_kids (laid (Dacc ++ D) (fst w')) (shs0 ++ ks) (K0 ++ K) /\
      sealed knows (n :: (Dacc ++ D) ++ C) w' /\
      (forall q, In q D -> n < q) /\
      Forall (fun y => y < List.length (fst w') /\ ~ In y (n :: (Dacc ++ D) ++ C))
             (flat_map kid_repls (shs0 ++ ks)).
Proof.
  intros IHf HnC Htn.
  induction count as [|count IH]; intros i w K0 shs0 Dacc w' Hs Ht HtC Hget Hb HD Hr Hrun.
  - injection Hrun as <-. split; [lia|]. split; [reflexivity|].
    exists [], [], []. rewrite !List.app_nil_r. split; [constructor|].
    split; [exact Hget|]. split; [exact Hb|]. split; [exact Hs|].
    split; [intros q []|exact Hr].
  - cbn [map_loop] in Hrun.
    assert (Hn : n < List.length (fst w)).
    { destruct Hs as (_ & _ & H3). apply H3. left. reflexivity. }
    assert (HtP : ~ In t (n :: Dacc ++ C)).
    { intros [Heq|Hin]; [lia|]. apply List.in_app_or in Hin.
      destruct Hin as [Hin|Hin]; [specialize (HD t Hin); lia | exact (HtC Hin)]. }
    destruct (kid (fst w) t i) as [c|] eqn:Hk.
    + cbn [rmap_child] in Hrun.
      destruct (rmap fuel g c w) as [[x [h2 s2]]| |] eqn:Hc; try discriminate.
      cbn [obind] in Hrun.
      destruct (sealed_kid knows _ w t i c Hs HtP Hk) as [Hc1 Hc2].
      destruct (IHf (n :: Dacc ++ C) c w x (h2, s2) Hs Hc1 Hc2 Hc)
        as (Hlen & Hkeep & sh & Dc & Hran & Hlaid & Hs2 & HDc & Hx & HxP & Hrc).
      cbn [fst snd] in *.
      assert (HDcn : forall q, In q Dc -> n < q).
      { intros q Hq. specialize (HDc q Hq). lia. }
      destruct (IH (Datatypes.S i) (Node.push h2 n (Some x), s2) (K0 ++ [Some x])
                   (shs0 ++ [Some sh]) (Dacc ++ Dc) w')
        as (Hlen' & Hkeep' & ks & K & D & Hrk & Hget' & Hb' & Hs' & HD' & Hr').
      * apply sealed_push; [| left; reflexivity | intros y [= <-]; exact Hx].
        eapply sealed_equiv; [|exact Hs2]. intros q. simpl.
        rewrite !List.in_app_iff. simpl. rewrite !List.in_app_iff. tauto.
      * cbn [fst]. rewrite length_push. lia.
      * exact HtC.
      * cbn [fst]. rewrite get_push_eq by lia.
        rewrite (Hkeep n (or_introl eq_refl)), Hget. reflexivity.
      * cbn [fst]. apply built_kids_app.
        -- eapply built_kids_impl; [|exact Hb].
           apply List.Forall_forall. intros [sh0|] _; [|exact I].
           apply laid_move. intros q Hq. split; [apply List.in_or_app; left; exact Hq|].
           rewrite get_push_ne by (specialize (HD q Hq); lia).
           apply Hkeep. right. apply List.in_or_app. left. exact Hq.
        -- simpl. split; [|exact I].
           eapply laid_move; [|exact Hlaid].
           intros q Hq. split; [apply List.in_or_app; right; exact Hq|].
           apply get_push_ne. specialize (HDcn q Hq). lia.
      * intros q Hq. apply List.in_app_or in Hq. destruct Hq as [Hq|Hq]; auto.
      * cbn [fst]. rewrite length_push. rewrite List.flat_map_app, List.Forall_app. split.
        -- eapply List.Forall_impl; [|exact Hr]. intros y [Hy Hny]. split; [lia|].
           intros [Heq|Hin]; [apply Hny; left; exact Heq|].
           rewrite !List.in_app_iff in Hin. destruct Hin as [[Hin|Hin]|Hin].
           ++ apply Hny. right. apply List.in_or_app. left. exact Hin.
           ++ specialize (HDc y Hin). lia.
           ++ apply Hny. right. apply List.in_or_app. right. exact Hin.
        -- simpl. rewrite List.app_nil_r.
           eapply List.Forall_impl; [|exact Hrc]. intros y [Hy Hny]. split; [exact Hy|].
           intros Hin. apply Hny. simpl in Hin.
           rewrite !List.in_app_iff in *. simpl. rewrite !List.in_app_iff. tauto.
      * exact Hrun.
      * cbn [fst] in *. rewrite length_push in Hlen'. split; [lia|]. split.
        -- intros q Hq. rewrite Hkeep'; [|exact Hq].
           rewrite get_push_ne by (intros ->; exact (HnC Hq)).
           apply Hkeep. right. apply List.in_or_app. right. exact Hq.
        -- exists (Some sh :: ks), (Some x :: K), (Dc ++ D).
           assert (E1 : (shs0 ++ [Some sh]) ++ ks = shs0 ++ Some sh :: ks)
             by (rewrite <- List.app_assoc; reflexivity).
           assert (E2 : (K0 ++ [Some x]) ++ K = K0 ++ Some x :: K)
             by (rewrite <- List.app_assoc; reflexivity).
           assert (E3 : (Dacc ++ Dc) ++ D = Dacc ++ Dc ++ D)
             by (rewrite <- List.app_assoc; reflexivity).
           rewrite E1, E2, E3 in *.
           split; [eapply ran_kids_node; eauto|].
           split; [exact Hget'|]. split; [exact Hb'|]. split; [exact Hs'|].
           split; [|exact Hr'].
           intros q Hq. apply List.in_app_or in Hq. destruct Hq as [Hq|Hq]; auto.
    + cbn [rmap_child obind] in Hrun. destruct w as [h0 s0]. cbn [fst snd] in *.
      rewrite Hk in Hrun.
      destruct (IH (Datatypes.S i) (Node.push h0 n None, s0) (K0 ++ [None])
                   (shs0 ++ [None]) Dacc w')
        as (Hlen' & Hkeep' & ks & K & D & Hrk & Hget' & Hb' & Hs' & HD' & Hr').
      * apply sealed_push; [exact Hs | left; reflexivity | discriminate].
      * cbn [fst]. rewrite length_push. lia.
      * exact HtC.
      * cbn [fst]. rewrite get_push_eq by lia. rewrite Hget. reflexivity.
      * cbn [fst]. apply built_kids_app.
        -- eapply built_kids_impl; [|exact Hb].
           apply List.Forall_forall. intros [sh0|] _; [|exact I].
           apply laid_move. intros q Hq. split; [exact Hq|].
           apply get_push_ne. specialize (HD q Hq). lia.
        -- simpl. exact I.
      * exact HD.
      * cbn [fst]. rewrite length_push. rewrite List.flat_map_app, List.Forall_app.
        split; [exact Hr | constructor].
      * exact Hrun.
      * cbn [fst] in *. rewrite length_push in Hlen'. split; [lia|]. split.
        -- intros q Hq. rewrite Hkeep'; [|exact Hq].
           apply get_push_ne. intros ->. exact (HnC Hq).
        -- exists (None :: ks), (None :: K), D.
           assert (E1 : (shs0 ++ [None]) ++ ks = shs0 ++ None :: ks)
             by (rewrite <- List.app_assoc; reflexivity).
           assert (E2 : (K0 ++ [None]) ++ K = K0 ++ None :: K)
             by (rewrite <- List.app_assoc; reflexivity).
           rewrite E1, E2 in *.
           split; [eapply ran_kids_null; eauto|].
           split; [exact Hget'|]. split; [exact Hb'|]. split; [exact Hs'|].
           split; [exact HD' | exact Hr'].
Qed.

Lemma rmap_leaves_all : forall fuel, rmap_leaves knows g fuel.
Proof.
  induction fuel as [|fuel IHf]; intros C t w out w' Hs Ht HtC Hrun; [discriminate|].
  cbn [rmap] in Hrun. fold (rmap_child g fuel) in Hrun.
  destruct (g t w) as [[v w1]| |] eqn:Hg; try discriminate. cbn [obind] in Hrun.
  destruct (g_local t C w v w1 Hs) as (Hlen & Hkeep & Hs1 & Hres); [|exact Hg|].
  { intros t' [= <-]. split; assumption. }
  assert (Hdescend :
            v = None \/ v = Some t ->
            map (rmap_child g fuel) t w1 = Ok (out, w') ->
            List.length (fst w) <= List.length (fst w') /\
            (forall q, In q C -> get (fst w') q = get (fst w) q) /\
            exists sh D,
              ran g t w out sh w' /\ laid D (fst w') out sh /\ sealed knows (D ++ C) w' /\
              (forall q, In q D -> List.length (fst w) <= q) /\
              out < List.length (fst w') /\ ~ In out C /\
              Forall (fun y => y < List.length (fst w') /\ ~ In y (D ++ C)) (repls sh)).
  { intros Hv Hmap. unfold map in Hmap. cbn [alloc] in Hmap.
    set (n := List.length (fst w1)) in *.
    set (d := data (get (fst w1) t)) in *.
    destruct (map_loop (rmap_child g fuel) t n 0 (node_length (fst w1 ++ [blank d]) t)
                (fst w1 ++ [blank d], snd w1)) as [wl| |] eqn:Hloop; try discriminate.
    cbn [obind] in Hmap. injection Hmap as <- <-.
    assert (HnC : ~ In n C).
    { intros Hin. destruct Hs1 as (_ & _ & H3). specialize (H3 n Hin). unfold n in H3. lia. }
    destruct (rmap_kids_leave fuel C t n d IHf HnC ltac:(unfold n; lia)
                (node_length (fst w1 ++ [blank d]) t) 0 (fst w1 ++ [blank d], snd w1)
                [] [] [] wl) as (Hlen' & Hkeep' & ks & K & D & Hrk & Hget & Hb & Hs' & HD & Hr).
    - apply sealed_alloc. exact Hs1.
    - cbn [fst]. rewrite List.length_app. simpl. lia.
    - exact HtC.
    - cbn [fst]. apply get_alloc.
    - exact I.
    - intros q [].
    - constructor.
    - exact Hloop.
    - cbn [fst] in *. rewrite List.length_app in Hlen'. simpl in *.
      split; [lia|]. split.
      + intros q Hq. rewrite (Hkeep' q Hq).
        destruct Hs1 as (_ & _ & H3). rewrite get_app_l by (apply H3; exact Hq).
        apply Hkeep. exact Hq.
      + exists (Fresh d ks), (n :: D). split; [|split; [|split; [|split; [|split; [|split]]]]].
        * eapply ran_kept; eauto.
        * cbn [laid]. rewrite Hget. cbn [data kids l r p].
          split; [left; reflexivity|]. repeat split.
          eapply built_kids_impl; [|exact Hb].
          apply List.Forall_forall. intros [sh0|] _; [|exact I].
          apply laid_move. intros q Hq. split; [right; exact Hq | reflexivity].
        * exact Hs'.
        * intros q [<-|Hq]; [unfold n; lia | specialize (HD q Hq); unfold n in HD; lia].
        * unfold n. lia.
        * exact HnC.
        * exact Hr. }
  destruct v as [x|].
  - destruct (x =? t) eqn:Hxt.
    + apply Nat.eqb_eq in Hxt. subst x. apply Hdescend; [right; reflexivity | exact Hrun].
    + apply Nat.eqb_neq in Hxt. injection Hrun as <- <-.
      destruct (Hres x eq_refl) as [Hx HxC].
      split; [exact Hlen|]. split; [exact Hkeep|].
      exists (Repl x), []. split; [apply ran_replaced; assumption|].
      split; [reflexivity|]. split; [exact Hs1|]. split; [intros q []|].
      split; [exact Hx|]. split; [exact HxC|].
      constructor; [split; assumption | constructor].
  - apply Hdescend; [left; reflexivity | exact Hrun].
Qed.

End RmapLocal.

(** *** Two functions of the program *)

Lemma points_to_set_p h c v q x :
  points_to (set_p h c v) q x -> points_to h q x \/ (q = c /\ v = Some x).
Proof.
  unfold points_to. rewrite kids_set_p, l_set_p, r_set_p.
  intros [Hp|[Hp|[Hp|Hp]]]; auto.
  destruct (Nat.eq_dec c q) as [<-|Hne].
  - destruct (Nat.lt_ge_cases c (List.length h)) as [Hlt|Hge].
    + rewrite p_set_p_eq in Hp by exact Hlt. right. split; [reflexivity | exact Hp].
    + unfold set_p, set in Hp. rewrite list_insert_ge in Hp by lia. left. auto.
  - rewrite p_set_p_ne in Hp by exact Hne. left. auto.
Qed.

Lemma always_local (q : loc) (v : value) (i : nat) : local (holds q) v (always q v i).
Proof.
  intros C w x w' Hs Harg [= <- <-]. split; [lia|]. split; [reflexivity|].
  split; [exact Hs|]. intros y [= <-]. destruct Hs as (_ & H2 & _).
  apply (H2 q). reflexivity.
Qed.

Lemma group_at_local {knows : unit -> loc -> Prop} (at_node t : loc) :
  local knows (Some t) (group_at at_node t).
Proof.
  intros C [h st] x w' Hs Harg Hrun. unfold group_at in Hrun. cbn [fst snd alloc] in *.
  destruct (Harg t eq_refl) as [Ht HtC].
  destruct (t =? at_node).
  - injection Hrun as <- <-. cbn [fst snd]. unfold Node.append.
    pose proof Hs as (H1 & H2 & H3). cbn [fst snd] in *.
    match goal with
    | |- context [set_p ?a ?b ?c] => set (h2 := set_p a b c)
    end.
    assert (Hlen : List.length h2 = Datatypes.S (List.length h)).
    { unfold h2. rewrite length_set_p, length_push, List.length_app. simpl. lia. }
    split; [rewrite Hlen; lia|]. split; [|split].
    + intros q Hq. pose proof (H3 q Hq) as Hlt. unfold h2.
      unfold set_p. rewrite get_set_ne by (intros ->; exact (HtC Hq)).
      rewrite get_push_ne by lia. apply get_app_l. exact Hlt.
    + unfold sealed. cbn [fst snd]. rewrite Hlen. split; [|split].
      * intros q x Hp. unfold h2 in Hp.
        apply points_to_set_p in Hp. destruct Hp as [Hp|[-> [= <-]]].
        -- apply points_to_push in Hp. destruct Hp as [Hp|[-> [= <-]]].
           ++ apply points_to_alloc in Hp. destruct (H1 q x Hp) as [Hx Hin].
              split; [lia | exact Hin].
           ++ split; [lia|]. intros Hin. contradiction.
        -- split; [lia|]. intros Hin. specialize (H3 _ Hin). lia.
      * intros x Hk. destruct (H2 x Hk) as [Hx Hin]. split; [lia | exact Hin].
      * intros q Hq. specialize (H3 q Hq). lia.
    + intros y [= <-]. split; [rewrite Hlen; lia|]. intros Hin. specialize (H3 _ Hin). lia.
  - injection Hrun as <- <-. split; [apply Nat.le_refl|]. split; [reflexivity|].
    split; [exact Hs|]. discriminate.
Qed.

Lemma sum_store_sealed : sealed (holds 0) [] (sum_store, tt).
Proof.
  split; [|split].
  - intros q x Hp. pose proof (points_to_inside _ _ _ Hp) as Hq. simpl in Hq.
    split; [|intros []].
    unfold points_to in Hp.
    simpl.
    do 6 (destruct q as [|q];
          [simpl in Hp; destruct Hp as [Hi|[Hp|[Hp|Hp]]]; try discriminate;
           repeat (destruct Hi as [Hi|Hi]; [injection Hi as Hi; lia|]); contradiction|]).
    lia.
  - intros x ->. simpl. split; [lia | tauto].
  - intros q [].
Qed.

(** C9 (as amended). [f] and [g] are functions of the program: they may
    write to the nodes they reach and make new ones.  [map] returns a new
    node with the data of [this] whose children are, in order, what [f]
    returned for the children of [this] (or the child, when the result is
    falsy); [rmap] returns the node that [g] answered, or a new node with the
    data of the node visited whose children are the results for its children,
    and so on at every level, as [ran] tells.  They store the replacements
    with [push], which sets no parent pointer: after the call no node other
    than the new ones has a link to a new node, so the parent pointer of a
    replacement is not the new node that contains it. *)
Theorem map_places_replacements {S : Type} (knows : S -> loc -> Prop)
        (f : value -> nat -> @action S value) (g : loc -> @action S value)
        (this : loc) (w : @world S) :
  (forall v i, local knows v (f v i)) -> (forall t, local knows (Some t) (g t)) ->
  sealed knows [] w -> this < List.length (fst w) ->
  (forall n w', map f this w = Ok (n, w') ->
     n = List.length (fst w) /\
     (forall q, q <> n -> ~ points_to (fst w') q n) /\
     exists K,
       map_ran f this n 0 (node_length (fst w) this)
               (fst w ++ [blank (data (get (fst w) this))], snd w) K w' /\
       get (fst w') n = SyntaxNode (data (get (fst w) this)) K None None None) /\
  (forall fuel out w', rmap fuel g this w = Ok (out, w') ->
     exists sh cs,
       ran g this w out sh w' /\ laid cs (fst w') out sh /\
       (forall q, In q cs -> List.length (fst w) <= q) /\
       Forall (fun y => ~ In y cs) (repls sh) /\
       (forall q x, In x cs -> ~ In q cs -> ~ points_to (fst w') q x)).
Proof.
  intros Hf Hg Hs Hthis. split.
  - intros n w' Hrun. unfold map in Hrun. cbn [alloc] in Hrun.
    destruct (map_loop f this (List.length (fst w)) 0
                (node_length (fst w ++ [blank (data (get (fst w) this))]) this)
                (fst w ++ [blank (data (get (fst w) this))], snd w)) as [wl| |] eqn:Hloop;
      try discriminate.
    cbn [obind] in Hrun. injection Hrun as <- <-. split; [reflexivity|].
    assert (Hnl : node_length (fst w ++ [blank (data (get (fst w) this))]) this
                  = node_length (fst w) this).
    { unfold node_length. rewrite get_app_l; auto. }
    rewrite Hnl in Hloop.
    destruct (map_loop_local knows f Hf this (List.length (fst w))
                (data (get (fst w) this)) ltac:(lia) (node_length (fst w) this) 0
                (fst w ++ [blank (data (get (fst w) this))], snd w) [] wl)
      as (K & Hran & Hget & _ & Hs').
    + apply (sealed_alloc knows [] w). exact Hs.
    + cbn [fst]. rewrite List.length_app. simpl. lia.
    + cbn [fst]. apply get_alloc.
    + exact Hloop.
    + split.
      * intros q Hq Hp. destruct Hs' as (H1 & _ & _).
        destruct (H1 q _ Hp) as [_ Hin]. destruct (Hin (or_introl eq_refl)) as [Heq|[]].
        congruence.
      * exists K. split; [exact Hran | exact Hget].
  - intros fuel out w' Hrun.
    destruct (rmap_leaves_all knows g Hg fuel [] this w out w' Hs Hthis ltac:(intros [])
                Hrun) as (_ & _ & sh & D & Hran & Hlaid & Hs' & HD & _ & _ & Hr).
    rewrite List.app_nil_r in Hs', Hr.
    exists sh, D. split; [exact Hran|]. split; [exact Hlaid|]. split; [exact HD|]. split.
    + eapply List.Forall_impl; [|exact Hr]. intros y [_ Hy]. exact Hy.
    + intros q x Hx Hq Hp. destruct Hs' as (H1 & _ & _).
      destruct (H1 q x Hp) as [_ Hin]. exact (Hq (Hin Hx)).
Qed.

(** ** The statements at work on small inputs *)

Lemma macro_try_match_correct_witness :
  (repr sum_store sum_pattern /\ repr sum_store sum_subject /\
   full sum_pattern /\ full sum_subject /\ lheight sum_pattern <= 2) /\
  exists res,
    macro_try_match 2 sum_store (Some (root sum_pattern)) (Some (root sum_subject)) = Ok res /\
    (forall caps, res = Some caps <-> matches sum_pattern sum_subject caps) /\
    (res = None <-> forall caps, ~ matches sum_pattern sum_subject caps).
Proof.
  assert (H : repr sum_store sum_pattern /\ repr sum_store sum_subject /\
              full sum_pattern /\ full sum_subject /\ lheight sum_pattern <= 2).
  { simpl. repeat split; lia. }
  split; [exact H|].
  destruct H as (H1 & H2 & H3 & H4 & H5).
  exact (macro_try_match_correct sum_store sum_pattern sum_subject 2 H1 H2 H3 H4 H5).
Defined.

Example macro_try_match_sum :
  macro_try_match 2 sum_store (Some 0) (Some 3) = Ok (Some [Some 4; Some 5]).
Proof. reflexivity. Qed.

Lemma macro_expand_cutoff_witness :
  visit 1 [Some 0] [constant_expander 2] 1 ([blank "_"; blank "x"; blank "y"], tt)
  = Ok (Some 2, ([blank "_"; blank "x"; blank "y"], tt)) /\
  forall x, Some 2 = Some x -> x <> 1 ->
            macro_expand 1 1 1 [Some 0] [constant_expander 2]
                         ([blank "_"; blank "x"; blank "y"], tt)
            = Ok (x, ([blank "_"; blank "x"; blank "y"], tt)).
Proof.
  assert (H : visit 1 [Some 0] [constant_expander 2] 1 ([blank "_"; blank "x"; blank "y"], tt)
              = Ok (Some 2, ([blank "_"; blank "x"; blank "y"], tt))) by reflexivity.
  split; [exact H|].
  exact (proj1 (macro_expand_cutoff 0 1 [Some 0] [constant_expander 2] 1 _ _ _ H)).
Defined.




Example substitute_sum :
  s 2 0 "_" (Many [Some 4; Some 5]) sum_store
  = Ok (6, sum_store ++ [node2 "+" 4 5]).
Proof. reflexivity. Qed.


Lemma map_places_replacements_witness :
  ((forall v i, local (holds 0) v (always 0 v i)) /\
   (forall t, local (holds 0) (Some t) (group_at 4 t)) /\
   sealed (holds 0) [] (sum_store, tt) /\ 3 < List.length (fst (sum_store, tt))) /\
  (forall n w', map (always 0) 3 (sum_store, tt) = Ok (n, w') ->
     n = List.length (fst (sum_store, tt)) /\
     (forall q, q <> n -> ~ points_to (fst w') q n) /\
     exists K,
       map_ran (always 0) 3 n 0 (node_length (fst (sum_store, tt)) 3)
               (fst (sum_store, tt) ++ [blank (data (get (fst (sum_store, tt)) 3))],
                snd (sum_store, tt)) K w' /\
       get (fst w') n = SyntaxNode (data (get (fst (sum_store, tt)) 3)) K None None None) /\
  (forall fuel out w', rmap fuel (group_at 4) 3 (sum_store, tt) = Ok (out, w') ->
     exists sh cs,
       ran (group_at 4) 3 (sum_store, tt) out sh w' /\ laid cs (fst w') out sh /\
       (forall q, In q cs -> List.length (fst (sum_store, tt)) <= q) /\
       Forall (fun y => ~ In y cs) (repls sh) /\
       (forall q x, In x cs -> ~ In q cs -> ~ points_to (fst w') q x)).
Proof.
  assert (H1 : forall v i, local (holds 0) v (always 0 v i)) by (apply always_local).
  assert (H2 : forall t, local (holds 0) (Some t) (group_at 4 t))
    by (intros t; apply group_at_local).
  assert (H3 : sealed (holds 0) [] (sum_store, tt)) by (apply sum_store_sealed).
  assert (H4 : 3 < List.length (fst (sum_store, tt))) by (simpl; lia).
  split; [auto|].
  exact (map_places_replacements (holds 0) (always 0) (group_at 4) 3 (sum_store, tt)
           H1 H2 H3 H4).
Defined.

(** C9 as the specification states it fails: the node that the mapping
    function returned becomes a child of the new node, and its parent pointer
    stays null. *)
Lemma map_leaves_parent_pointer :
  (exists h', map (always 0) 3 (sum_store, tt) = Ok (6, (h', tt)) /\
              kid h' 6 0 = Some 0 /\ p (get h' 0) = None /\ p (get h' 0) <> Some 6) /\
  (exists h', rmap 2 (only_at 4 0) 3 (sum_store, tt) = Ok (6, (h', tt)) /\
              kid h' 6 0 = Some 0 /\ p (get h' 0) = None /\ p (get h' 0) <> Some 6).
Proof.
  split; eexists; (split; [vm_compute; reflexivity|]); vm_compute; repeat split; discriminate.
Qed.

(** The run of [rmap] with [group_at 4] on the tree of [x + 1]: the mapping
    function has set the parent pointer of [x], an existing node, to the group
    it made; the group stands as the first child of the new node [+] and its
    own parent pointer is null. *)
Example rmap_with_a_writing_function :
  exists h',
    rmap 2 (group_at 4) 3 (sum_store, tt) = Ok (6, (h', tt)) /\
    kids (get h' 6) = [Some 7; Some 8] /\ data (get h' 7) = "(" /\
    p (get h' 4) = Some 7 /\ p (get h' 7) = None.
Proof. eexists. split; [vm_compute; reflexivity|]. vm_compute. auto. Qed.

Lemma flatten_frame_witness :
  (repr comma_store comma_tree /\ lheight comma_tree < 4) /\
  (forall out h', flatten 4 (root comma_tree) comma_store = Ok (out, h') ->
     extends comma_store h' /\ get h' (root comma_tree) = get comma_store (root comma_tree) /\
     (if flattens comma_store (root comma_tree)
      then out = List.length comma_store /\ out <> root comma_tree
      else out = root comma_tree /\ h' = comma_store)) /\
  (flattens comma_store (root comma_tree) = false ->
   flatten 4 (root comma_tree) comma_store = Ok (root comma_tree, comma_store)) /\
  (flattens comma_store (root comma_tree) = true ->
   has parse_associates_right (ldata comma_tree) = true \/ left_spine (ldata comma_tree) comma_tree ->
   exists h', flatten 4 (root comma_tree) comma_store = Ok (List.length comma_store, h')).
Proof.
  assert (H : repr comma_store comma_tree /\ lheight comma_tree < 4).
  { simpl. repeat split; lia. }
  split; [exact H|]. destruct H as [H1 H2].
  exact (flatten_frame comma_store comma_tree 4 H1 H2).
Defined.

(** [a, b, c] flattened: one comma node with the three operands in source
    order. *)
Example flatten_commas :
  (let* (n, h) := Parse.parse 20 "a, b, c" in
   let* (m, h') := flatten 20 n h in
   Ok (freeze 20 h' m))
  = Ok (Some (Tree "," [Some (Tree "a" []); Some (Tree "b" []); Some (Tree "c" [])])).
Proof. vm_compute. reflexivity. Qed.

(** On [; x] the left operand of the semicolon is null, and [flatten] throws. *)
Example flatten_null_operand :
  (let* (n, h) := Parse.parse 20 "; x" in
   let* (m, h') := flatten 20 n h in
   Ok (freeze 20 h' m))
  = Throw TypeError.
Proof. vm_compute. reflexivity. Qed.

Lemma regexp_mode_after_block_paren_witness :
  match Parse.lex 10 "if (a" with
  | Ok (k, rb) =>
      match Parse.iteration "if (a)" 10 k rb with
      | Ok (k', rb') => Parse.t k' = Parse.TStr ")" /\ Parse.re k' = true
      | _ => False
      end
  | _ => False
  end.
Proof.
  destruct (Parse.lex 10 "if (a") as [[k rb]| |] eqn:Hlex; try (vm_compute in Hlex; discriminate).
  destruct (Parse.iteration "if (a)" 10 k rb) as [[k' rb']| |] eqn:Hit;
    try (vm_compute in Hlex; injection Hlex as <- <-; vm_compute in Hit; discriminate).
  assert (Ht : Parse.t k' = Parse.TStr ")").
  { vm_compute in Hlex. injection Hlex as <- <-. vm_compute in Hit. injection Hit as <- <-.
    reflexivity. }
  split; [exact Ht|].
  apply (proj1 regexp_mode_after_block_paren "if (a)" 10 k k' rb rb' 1 0 Hit Ht).
  - vm_compute in Hlex. injection Hlex as <- <-. vm_compute in Hit. injection Hit as <- <-.
    reflexivity.
  - vm_compute in Hlex. injection Hlex as <- <-. vm_compute in Hit. injection Hit as <- <-.
    reflexivity.
  - vm_compute in Hlex. injection Hlex as <- <-. vm_compute in Hit. injection Hit as <- <-.
    left. reflexivity.
Defined.

Lemma call_ribbon_sibling : left_sibling (Parse.store call_ribbon) 0 1.
Proof.
  unfold left_sibling, links_in.
  refine (conj _ (conj _ (conj _ (conj _ (conj _ (conj _ _)))))).
  - vm_compute. reflexivity.
  - vm_compute. reflexivity.
  - vm_compute. discriminate.
  - vm_compute. lia.
  - vm_compute. lia.
  - intros x Hx. vm_compute in Hx. destruct Hx as [Hx|[Hx|Hx]]; try discriminate.
    injection Hx as <-. vm_compute. lia.
  - intros x Hx. vm_compute in Hx. destruct Hx as [Hx|[Hx|Hx]]; try discriminate.
    injection Hx as <-. vm_compute. lia.
Qed.

Lemma ambiguous_group_reclassified_witness :
  has parse_ambiguous_group (data (get (Parse.store call_ribbon) 1)) = true /\
  left_sibling (Parse.store call_ribbon) 0 1 /\
  callee_like (data (get (Parse.store call_ribbon) 0)) = true /\
  exists rb',
    Parse.fold_node 1 call_ribbon = Ok rb' /\
    List.length (Parse.store rb') = Datatypes.S (List.length (Parse.store call_ribbon)) /\
    data (get (Parse.store rb') (List.length (Parse.store call_ribbon)))
    = (if String.eqb (data (get (Parse.store call_ribbon) 1)) "(" then "()" else "[]") /\
    kids (get (Parse.store rb') (List.length (Parse.store call_ribbon))) = [Some 0; Some 1] /\
    Parse.invocation_nodes rb'
    = Parse.invocation_nodes call_ribbon ++ [List.length (Parse.store call_ribbon)].
Proof.
  assert (H1 : has parse_ambiguous_group (data (get (Parse.store call_ribbon) 1)) = true)
    by (vm_compute; reflexivity).
  assert (H3 : callee_like (data (get (Parse.store call_ribbon) 0)) = true)
    by (vm_compute; reflexivity).
  pose proof (ambiguous_group_reclassified call_ribbon 1) as H. cbv zeta in H.
  pose proof (proj1 (H H1) 0 call_ribbon_sibling H3) as H4.
  exact (conj H1 (conj call_ribbon_sibling (conj H3 H4))).
Defined.

Lemma closed_comments_example : closed_comments "a /* c */ + b".
Proof.
  intros i0 H1 H2.
  destruct (Nat.eq_dec i0 2) as [->|Hne].
  - exists 8. vm_compute. repeat split; lia.
  - exfalso.
    do 13 (destruct i0 as [|i0]; [first [congruence | vm_compute in H1; discriminate] |]).
    vm_compute in H1. discriminate.
Qed.

Lemma lexer_halts_on_closed_comments_witness :
  closed_comments "a /* c */ + b" /\ Parse.lex 16 "a /* c */ + b" <> Timeout.
Proof.
  split; [exact closed_comments_example|].
  apply lexer_halts_on_closed_comments; [exact closed_comments_example | vm_compute; lia].
Defined.

(** A closed comment is skipped. *)
Example parse_of_comment :
  (let* (n, h) := Parse.parse 20 "a /* c */ + b" in Ok (freeze 20 h n))
  = Ok (Some (Tree "+" [Some (Tree "a" []); Some (Tree "b" [])])).
Proof. vm_compute. reflexivity. Qed.

(** An invocation: the group after a value becomes [()] over the callee and
    the content of the group. *)
Example parse_of_call :
  (let* (n, h) := Parse.parse 20 "f(x)" in Ok (freeze 20 h n))
  = Ok (Some (Tree "()" [Some (Tree "f" []); Some (Tree "x" [])])).
Proof. vm_compute. reflexivity. Qed.

(** After an operator the same group stays a parenthesis. *)
Example parse_of_group :
  (let* (n, h) := Parse.parse 20 "a + (x)" in Ok (freeze 20 h n))
  = Ok (Some (Tree "+" [Some (Tree "a" []); Some (Tree "(" [Some (Tree "x" [])])])).
Proof. vm_compute. reflexivity. Qed.

(** * More of the code *)

(** ** The lexer: progress *)

Section LexerProgress.

Variable s : string.

Lemma skip_space_mono fuel :
  forall k k1, Parse.skip_space s fuel k = Ok k1 ->
               Parse.i k <= Parse.i k1 /\
               (Parse.mark k = Parse.i k -> Parse.mark k1 = Parse.i k1).
Proof.
  induction fuel as [|fuel IH]; intros k k1 Hrun; [discriminate|].
  cbn [Parse.skip_space] in Hrun.
  destruct (lex_space (JsString.charCodeAt s (Parse.i k))
            && (Parse.i k <? String.length s)).
  - apply IH in Hrun. cbn [Parse.i Parse.mark] in Hrun. destruct Hrun as [H1 H2].
    split; [lia|]. intros _. apply H2. reflexivity.
  - injection Hrun as <-. cbn [Parse.i Parse.mark]. auto.
Qed.

Lemma block_comment_mono fuel :
  forall i0 i1, Parse.block_comment s fuel i0 = Ok i1 -> i0 < i1.
Proof.
  induction fuel as [|fuel IH]; intros i0 i1 Hrun; [discriminate|].
  cbn [Parse.block_comment] in Hrun.
  match type of Hrun with
  | (if ?b then _ else _) = _ => destruct b
  end.
  - apply IH in Hrun. lia.
  - injection Hrun as <-. lia.
Qed.

Lemma advance_while_mono cls fuel :
  forall i0 i1, Parse.advance_while s fuel cls i0 = Ok i1 -> i0 < i1.
Proof.
  induction fuel as [|fuel IH]; intros i0 i1 Hrun; [discriminate|].
  cbn [Parse.advance_while] in Hrun.
  match type of Hrun with
  | (if ?b then _ else _) = _ => destruct b
  end.
  - apply IH in Hrun. lia.
  - injection Hrun as <-. lia.
Qed.

Lemma literal_body_mono cl fuel :
  forall i0 c0 esc0 out,
    Parse.literal_body s fuel cl i0 c0 esc0 = Ok out -> i0 < fst (fst out).
Proof.
  induction fuel as [|fuel IH]; intros i0 c0 esc0 out Hrun; [discriminate|].
  cbn [Parse.literal_body] in Hrun.
  match type of Hrun with
  | (if ?b then _ else _) = _ => destruct b
  end.
  - apply IH in Hrun. lia.
  - injection Hrun as <-. simpl. lia.
Qed.

Lemma float_body_mono fuel :
  forall i0 c0 dot0 exp0 out,
    Parse.float_body s fuel i0 c0 dot0 exp0 = Ok out -> i0 < fst (fst (fst out)).
Proof.
  induction fuel as [|fuel IH]; intros i0 c0 dot0 exp0 out Hrun; [discriminate|].
  cbn [Parse.float_body] in Hrun. cbv zeta in Hrun.
  destruct (S i0 <? String.length s).
  - destruct (lex_decimal (JsString.charCodeAt s (S i0))).
    { apply IH in Hrun. lia. }
    match type of Hrun with
    | (if negb (Z.lxor dot0 ?d1 =? 0)%Z then _ else _) = _ =>
        destruct (negb (Z.lxor dot0 d1 =? 0)%Z)
    end.
    { apply IH in Hrun. lia. }
    match type of Hrun with
    | (if negb (Z.lxor exp0 ?e1 =? 0)%Z then _ else _) = _ =>
        destruct (negb (Z.lxor exp0 e1 =? 0)%Z)
    end.
    + apply IH in Hrun. destruct (lex_exp (JsString.charCodeAt s (S i0))); lia.
    + injection Hrun as <-. cbn [fst].
      destruct (lex_exp (JsString.charCodeAt s (S i0))); lia.
  - injection Hrun as <-. simpl. lia.
Qed.

Lemma decimals_mono fuel :
  forall i0 i1, Parse.decimals s fuel i0 = Ok i1 -> i0 <= i1.
Proof.
  induction fuel as [|fuel IH]; intros i0 i1 Hrun; [discriminate|].
  cbn [Parse.decimals] in Hrun.
  match type of Hrun with
  | (if ?b then _ else _) = _ => destruct b
  end.
  - apply IH in Hrun. lia.
  - injection Hrun as <-. lia.
Qed.

Lemma operator_mono fuel :
  forall i0 t0 out, Parse.operator s fuel i0 t0 = Ok out -> i0 <= fst out.
Proof.
  induction fuel as [|fuel IH]; intros i0 t0 out Hrun; [discriminate|].
  cbn [Parse.operator] in Hrun.
  match type of Hrun with
  | (if ?b then _ else _) = _ => destruct b
  end.
  - apply IH in Hrun. lia.
  - injection Hrun as <-. simpl. lia.
Qed.

Ltac bound_step H x Hx :=
  match type of H with
  | obind ?e _ = Ok _ => destruct e as [x| |] eqn:Hx; [|discriminate|discriminate];
                         cbn [obind] in H
  end.

Lemma scan_mono fuel k k3 :
  Parse.scan s fuel k = Ok k3 ->
  Parse.i k <= Parse.i k3 /\ Parse.mark k3 = Parse.mark k.
Proof.
  unfold Parse.scan. intros Hrun.
  destruct (lex_bracket (Parse.c k)).
  { injection Hrun as <-. cbn [Parse.i Parse.mark]. split; [lia | reflexivity]. }
  destruct (Parse.code_is (Parse.c k) lex_slash
            && Parse.code_is (JsString.charCodeAt s (Parse.i k + 1)) lex_star).
  { bound_step Hrun i1 Hi. apply block_comment_mono in Hi.
    injection Hrun as <-. cbn [Parse.i Parse.mark]. split; [lia | reflexivity]. }
  destruct (Parse.code_is (Parse.c k) lex_slash
            && Parse.code_is (JsString.charCodeAt s (Parse.i k + 1)) lex_slash).
  { bound_step Hrun i1 Hi. apply advance_while_mono in Hi.
    injection Hrun as <-. cbn [Parse.i Parse.mark]. split; [lia | reflexivity]. }
  cbv zeta in Hrun.
  destruct (lex_quote (Parse.c k) && Parse.re k).
  { bound_step Hrun out Hi. apply literal_body_mono in Hi. destruct out as [[i1 c1] e1].
    cbn [fst snd] in *. bound_step Hrun i2 Hi2. apply advance_while_mono in Hi2.
    injection Hrun as <-. cbn [Parse.i Parse.mark]. split; [lia | reflexivity]. }
  destruct (Parse.code_is (Parse.c k) lex_zero
            && lex_integer (JsString.charCodeAt s (Parse.i k + 1))).
  { bound_step Hrun i1 Hi. apply advance_while_mono in Hi.
    injection Hrun as <-. cbn [Parse.i Parse.mark]. split; [lia | reflexivity]. }
  destruct (lex_float (Parse.c k)
            && (negb (Parse.code_is (Parse.c k) lex_dot)
                || lex_decimal (JsString.charCodeAt s (Parse.i k + 1)))).
  { bound_step Hrun out Hi. apply float_body_mono in Hi. destruct out as [[[i1 c1] d1] e1].
    cbn [fst snd] in *. bound_step Hrun i2 Hi2. apply decimals_mono in Hi2.
    injection Hrun as <-. cbn [Parse.i Parse.mark]. split; [lia | reflexivity]. }
  destruct (lex_punct (Parse.c k)).
  { bound_step Hrun out Hi. apply operator_mono in Hi. destruct out as [i1 t1].
    cbn [fst] in *. injection Hrun as <-. cbn [Parse.i Parse.mark].
    split; [lia | reflexivity]. }
  bound_step Hrun i1 Hi. apply advance_while_mono in Hi.
  injection Hrun as <-. cbn [Parse.i Parse.mark]. split; [lia | reflexivity].
Qed.

End LexerProgress.

(** X2. An iteration of the main loop of the lexer that ends without an
    error has consumed input: entered with [mark = i], it leaves [i] strictly
    greater than it was, whatever the text and the state of the parse. *)
Theorem iteration_consumes_input (s : string) (fuel : nat) (k k' : Parse.cursor)
        (rb rb' : Parse.ribbon) :
  Parse.mark k = Parse.i k ->
  Parse.iteration s fuel k rb = Ok (k', rb') ->
  Parse.i k < Parse.i k'.
Proof.
  intros Hm Hrun. unfold Parse.iteration in Hrun.
  destruct (Parse.skip_space s fuel k) as [k1| |] eqn:H1; try discriminate.
  cbn [obind] in Hrun. apply skip_space_mono in H1. destruct H1 as [Hi1 Hm1].
  specialize (Hm1 Hm).
  match type of Hrun with
  | obind (Parse.scan s fuel ?k2) _ = _ =>
      destruct (Parse.scan s fuel k2) as [k3| |] eqn:H3; try discriminate
  end.
  cbn [obind] in Hrun. apply scan_mono in H3. cbn [Parse.i Parse.mark] in H3.
  destruct H3 as [Hi3 Hm3].
  destruct (Parse.i k3 =? Parse.mark k3) eqn:Hstall; [discriminate|].
  apply Nat.eqb_neq in Hstall.
  assert (Hadv : Parse.i k < Parse.i k3) by lia.
  destruct (Parse.t k3) as [| |x].
  - injection Hrun as <- <-. exact Hadv.
  - match type of Hrun with
    | obind ?e _ = _ => destruct e; try discriminate
    end.
    cbn [obind] in Hrun. injection Hrun as <- <-. exact Hadv.
  - match type of Hrun with
    | obind ?e _ = _ => destruct e; try discriminate
    end.
    cbn [obind] in Hrun. injection Hrun as <- <-. exact Hadv.
Qed.

Lemma iteration_consumes_input_witness :
  exists k' rb',
    Parse.iteration "x + 1" 5 Parse.initial_cursor Parse.initial_ribbon = Ok (k', rb') /\
    Parse.i Parse.initial_cursor < Parse.i k'.
Proof.
  destruct (Parse.iteration "x + 1" 5 Parse.initial_cursor Parse.initial_ribbon)
    as [[k' rb']| |] eqn:H; try (vm_compute in H; discriminate).
  exists k', rb'. split; [reflexivity|].
  exact (iteration_consumes_input "x + 1" 5 Parse.initial_cursor k'
           Parse.initial_ribbon rb' eq_refl H).
Defined.

(** ** The lexer: the stall error *)

Lemma lex_table_In text n :
  lex_table text (Some n) = true ->
  In n (List.map nat_of_ascii (list_ascii_of_string text)).
Proof.
  unfold lex_table. intros H. apply List.existsb_exists in H.
  destruct H as (a & Hin & Heq). apply Nat.eqb_eq in Heq. subst n.
  apply List.in_map. exact Hin.
Qed.

Lemma punct_classes c :
  lex_punct c = true -> Parse.code_is c lex_slash = false ->
  lex_bracket c = false /\ lex_quote c = false /\ Parse.code_is c lex_zero = false /\
  (lex_float c = true -> Parse.code_is c lex_dot = true).
Proof.
  destruct c as [n|]; [|discriminate]. intros H Hs.
  apply lex_table_In in H. vm_compute in H.
  repeat (destruct H as [H|H]; [subst n; try (vm_compute in Hs; discriminate);
                                vm_compute; repeat split; congruence|]).
  contradiction.
Qed.

(** X3. The lexer raises its internal error where it does not advance: at
    a punctuation character (other than a slash, and other than a dot that
    starts a number) that, with the prefix [u] when a value is expected,
    begins no operator of [lex_op]. *)
Theorem lexer_stalls_on_stray_operator (s : string) (fuel : nat) (k : Parse.cursor)
        (rb : Parse.ribbon) :
  Parse.mark k = Parse.i k ->
  lex_space (JsString.charCodeAt s (Parse.i k)) = false ->
  lex_punct (JsString.charCodeAt s (Parse.i k)) = true ->
  Parse.code_is (JsString.charCodeAt s (Parse.i k)) lex_slash = false ->
  (Parse.code_is (JsString.charCodeAt s (Parse.i k)) lex_dot = true ->
   lex_decimal (JsString.charCodeAt s (Parse.i k + 1)) = false) ->
  has lex_op ((if Parse.re k then "u" else "") ++ JsString.charAt s (Parse.i k)) = false ->
  1 <= fuel ->
  Parse.iteration s fuel k rb = Throw (InternalError Parse.stall_message).
Proof.
  intros Hm Hsp Hp Hsl Hdot Hop Hfuel.
  destruct fuel as [|fuel]; [lia|].
  destruct (punct_classes _ Hp Hsl) as (Hb & Hq & Hz & Hf).
  unfold Parse.iteration. cbn [Parse.skip_space]. rewrite Hsp. cbn [andb obind].
  unfold Parse.scan. cbn [Parse.c Parse.i Parse.mark Parse.re Parse.esc Parse.dot
                          Parse.exp Parse.close Parse.t].
  rewrite Hb, Hsl, Hq, Hz. cbn [andb]. cbv zeta.
  assert (Hfl : lex_float (JsString.charCodeAt s (Parse.i k))
                && (negb (Parse.code_is (JsString.charCodeAt s (Parse.i k)) lex_dot)
                    || lex_decimal (JsString.charCodeAt s (Parse.i k + 1))) = false).
  { destruct (lex_float (JsString.charCodeAt s (Parse.i k))); [|reflexivity].
    rewrite (Hf eq_refl), (Hdot (Hf eq_refl)). reflexivity. }
  rewrite Hfl, Hp. cbn [Parse.operator]. rewrite Hop, andb_false_r. cbn [obind].
  cbn [Parse.i Parse.mark]. rewrite Hm, Nat.eqb_refl. reflexivity.
Qed.

Lemma lexer_stalls_on_stray_operator_witness :
  Parse.iteration "= 1" 1 Parse.initial_cursor Parse.initial_ribbon
  = Throw (InternalError Parse.stall_message).
Proof.
  apply lexer_stalls_on_stray_operator;
    [reflexivity | reflexivity | reflexivity | reflexivity
     | intros H; vm_compute in H; discriminate | reflexivity | lia].
Defined.

(** ** The parser on the smallest inputs *)

Lemma charCodeAt_end text j : String.length text <= j -> JsString.charCodeAt text j = None.
Proof.
  unfold JsString.charCodeAt. revert j.
  induction text as [|a text IH]; intros j Hj; [destruct j; reflexivity|].
  destruct j as [|j]; [simpl in Hj; lia|]. simpl in *. apply IH. lia.
Qed.

Lemma substring_end text n : String.substring (String.length text) n text = "".
Proof.
  induction text as [|a text IH]; [destruct n; reflexivity|]. simpl. exact IH.
Qed.

Lemma substring_all text : String.substring 0 (String.length text) text = text.
Proof.
  induction text as [|a text IH]; [reflexivity|]. simpl. rewrite IH. reflexivity.
Qed.

Lemma forallb_codes (cls : option nat -> bool) text :
  forallb (fun a => cls (Some (nat_of_ascii a))) (list_ascii_of_string text) = true ->
  forall j, j < String.length text -> cls (JsString.charCodeAt text j) = true.
Proof.
  unfold JsString.charCodeAt.
  induction text as [|a text IH]; intros H j Hj; [simpl in Hj; lia|].
  simpl in H. apply andb_true_iff in H. destruct H as [Ha Hrest].
  destruct j as [|j]; [exact Ha|]. simpl in *. apply IH; [exact Hrest | lia].
Qed.

Lemma skip_space_blank text fuel :
  (forall j, j < String.length text -> lex_space (JsString.charCodeAt text j) = true) ->
  forall k, Parse.mark k = Parse.i k -> Parse.i k <= String.length text ->
            String.length text - Parse.i k < fuel ->
            Parse.skip_space text fuel k
            = Ok (Parse.Cursor (String.length text) None (Parse.re k) (Parse.esc k)
                               (Parse.dot k) (Parse.exp k) (Parse.close k) (Parse.t k)
                               (String.length text)).
Proof.
  intros Hblank. induction fuel as [|fuel IH]; intros k Hm Hi Hf; [lia|].
  cbn [Parse.skip_space].
  destruct (Nat.eq_dec (Parse.i k) (String.length text)) as [He|Hne].
  - rewrite He, (charCodeAt_end text _ (Nat.le_refl _)). cbn [lex_space lex_table andb].
    rewrite Hm, He. reflexivity.
  - assert (Hlt : Parse.i k < String.length text) by lia.
    rewrite (Hblank _ Hlt). apply Nat.ltb_lt in Hlt. rewrite Hlt. cbn [andb].
    rewrite IH; cbn [Parse.i Parse.mark Parse.re Parse.esc Parse.dot Parse.exp
                      Parse.close Parse.t]; try reflexivity; try lia.
Qed.

(** X4. On the empty string [parse] throws a [TypeError] ([head] is still
    null when its parent is read); on a string of white space only it returns
    one node, whose data is the empty string. *)
Theorem parse_of_blank_text (text : string) (fuel : nat) :
  blank_text text = true -> String.length text + 3 <= fuel ->
  Parse.parse fuel text
  = if String.length text =? 0 then Throw TypeError else Ok (0, [blank ""]).
Proof.
  intros Hb Hfuel. pose proof (forallb_codes lex_space text Hb) as Hblank.
  destruct fuel as [|fuel]; [lia|]. destruct fuel as [|fuel]; [lia|].
  destruct (String.length text =? 0) eqn:Hlen.
  - apply Nat.eqb_eq in Hlen. destruct text; [|discriminate]. reflexivity.
  - apply Nat.eqb_neq in Hlen.
    assert (Hlex : exists k,
               Parse.lex (S (S fuel)) text
               = Ok (k, Parse.group "" Parse.initial_ribbon)).
    { unfold Parse.lex. cbn [Parse.lex_loop]. cbn [Parse.mark Parse.i Parse.initial_cursor].
      assert (H0 : (0 <? String.length text) = true) by (apply Nat.ltb_lt; lia).
      rewrite H0. unfold Parse.iteration.
      rewrite (skip_space_blank text (S fuel) Hblank) by (cbn; try reflexivity; lia).
      cbn [obind Parse.mark Parse.c Parse.re Parse.close Parse.i].
      unfold Parse.scan.
      cbn [Parse.c Parse.i Parse.mark Parse.re Parse.esc Parse.dot Parse.exp Parse.close
           Parse.t lex_bracket lex_quote lex_float lex_punct lex_table Parse.code_is andb].
      cbv zeta. cbn [Parse.advance_while].
      assert (H1 : (S (String.length text) <? String.length text) = false)
        by (apply Nat.ltb_ge; lia).
      rewrite H1. cbn [andb obind Parse.i Parse.mark Parse.t].
      assert (H2 : (S (String.length text) =? String.length text) = false)
        by (apply Nat.eqb_neq; lia).
      rewrite H2.
      assert (H3 : JsString.substring text (String.length text) (S (String.length text)) = "").
      { unfold JsString.substring. rewrite Nat.min_l, Nat.max_r by lia. apply substring_end. }
      rewrite H3. change (String.eqb "" "u;") with false. cbv iota.
      change (Parse.regexp_flag "" _ (Parse.group "" Parse.initial_ribbon))
        with (@Ok bool (has lex_op "")).
      cbn [obind]. destruct fuel as [|fuel]; [lia|].
      cbn [Parse.lex_loop Parse.mark Parse.i]. rewrite H1. eexists. reflexivity. }
    destruct Hlex as [k Hlex]. unfold Parse.parse. rewrite Hlex. reflexivity.
Qed.

Lemma parse_of_blank_text_witness :
  Parse.parse 5 "  " = Ok (0, [blank ""]).
Proof.
  exact (parse_of_blank_text "  " 5 eq_refl (le_n 5)).
Defined.


(** ** The parser on a name *)

Lemma ident_classes c :
  lex_ident c = true -> lex_decimal c = false ->
  lex_space c = false /\ lex_bracket c = false /\ Parse.code_is c lex_slash = false /\
  lex_quote c = false /\ Parse.code_is c lex_zero = false /\ lex_float c = false /\
  lex_punct c = false.
Proof.
  destruct c as [n|]; [|discriminate]. intros H Hd.
  apply lex_table_In in H. vm_compute in H.
  repeat (destruct H as [H|H]; [subst n; try (vm_compute in Hd; discriminate);
                                vm_compute; repeat split; congruence|]).
  contradiction.
Qed.

Lemma advance_while_all text cls fuel :
  forall i0, (forall j, i0 < j -> j < String.length text ->
                        cls (JsString.charCodeAt text j) = true) ->
             i0 < String.length text -> String.length text - i0 <= fuel ->
             Parse.advance_while text fuel cls i0 = Ok (String.length text).
Proof.
  induction fuel as [|fuel IH]; intros i0 Hall Hi Hf; [lia|].
  cbn [Parse.advance_while].
  destruct (Nat.eq_dec (S i0) (String.length text)) as [He|Hne].
  - rewrite He, Nat.ltb_irrefl. reflexivity.
  - assert (Hlt : S i0 < String.length text) by lia.
    rewrite (Hall (S i0)) by lia. apply Nat.ltb_lt in Hlt. rewrite Hlt. cbn [andb].
    apply IH; [|apply Nat.ltb_lt in Hlt; lia | lia].
    intros j Hj1 Hj2. apply Hall; lia.
Qed.

Lemma has_key_present {V : Type} (o : table V) (w : string) :
  has o w = true -> String.length w <= max_length o /\
                    (key_present w (entries o) = true \/ w = "_max_length").
Proof.
  unfold has, own. intros H. apply andb_true_iff in H. destruct H as [H Ho].
  apply andb_true_iff in H. destruct H as [_ Hl]. apply negb_true_iff in Hl.
  apply Nat.ltb_ge in Hl. split; [exact Hl|].
  apply orb_true_iff in Ho. destruct Ho as [Ho|Ho]; [left; exact Ho|].
  right. apply String.eqb_eq. exact Ho.
Qed.

Lemma key_present_In {V : Type} (w : string) (es : list (string * V)) :
  key_present w es = true -> In w (List.map fst es).
Proof.
  unfold key_present. intros H. apply List.existsb_exists in H.
  destruct H as (e & Hin & Heq). apply String.eqb_eq in Heq. subst w.
  apply List.in_map. exact Hin.
Qed.

Lemma identifier_no_group w : is_identifier w = true -> has parse_group w = false.
Proof.
  intros Hw. destruct (has parse_group w) eqn:H; [|reflexivity]. exfalso.
  apply has_key_present in H. destruct H as [Hl [Hk | ->]]; [|vm_compute in Hl; lia].
  apply key_present_In in Hk. cbn in Hk.
  repeat (destruct Hk as [Hk|Hk]; [subst w; vm_compute in Hw; discriminate|]).
  contradiction.
Qed.

Lemma identifier_neq w k : is_identifier w = true -> is_identifier k = false -> String.eqb w k = false.
Proof.
  intros Hw Hk. destruct (String.eqb_spec w k) as [->|]; [congruence | reflexivity].
Qed.

Lemma fold_groups_empty groups rb :
  Forall (fun g => fst g = []) groups -> Parse.fold_groups groups rb = Ok rb.
Proof.
  induction 1 as [|[nodes fwd] groups Hg Hall IH]; [reflexivity|].
  simpl in Hg. subst nodes. cbn [Parse.fold_groups]. destruct fwd; exact IH.
Qed.

(** The lexer on a name: one node, indexed nowhere. *)
Lemma lex_of_identifier (w : string) (fuel : nat) :
  is_identifier w = true -> has parse_inverse_order w = false ->
  String.length w + 3 <= fuel ->
  exists k,
    Parse.lex fuel w
    = Ok (k, Parse.Ribbon [] None (Some 0) None (Parse.indexes Parse.initial_ribbon)
                          [] [0; 0] [blank w]).
Proof.
  intros Hw Hop Hfuel. pose proof Hw as Hw'. unfold is_identifier in Hw'.
  apply andb_true_iff in Hw'. destruct Hw' as [Hw' Hall].
  apply andb_true_iff in Hw'. destruct Hw' as [Hlen Hfirst].
  apply negb_true_iff in Hlen, Hfirst. apply Nat.eqb_neq in Hlen.
  pose proof (forallb_codes lex_ident w Hall) as Hid.
  destruct (ident_classes _ (Hid 0 ltac:(lia)) Hfirst)
    as (Hsp & Hbr & Hsl & Hq & Hz & Hfl & Hpu).
  destruct fuel as [|fuel]; [lia|]. destruct fuel as [|fuel]; [lia|].
  destruct fuel as [|fuel]; [lia|].
  unfold Parse.lex. cbn [Parse.lex_loop]. cbn [Parse.mark Parse.i Parse.initial_cursor].
  assert (H0 : (0 <? String.length w) = true) by (apply Nat.ltb_lt; lia).
  rewrite H0. unfold Parse.iteration. cbn [Parse.skip_space Parse.i]. rewrite Hsp.
  cbn [andb obind Parse.mark Parse.c Parse.re Parse.close Parse.i].
  unfold Parse.scan.
  cbn [Parse.c Parse.i Parse.mark Parse.re Parse.esc Parse.dot Parse.exp Parse.close
       Parse.t].
  rewrite Hbr, Hsl, Hq, Hz, Hfl, Hpu. cbn [andb]. cbv zeta.
  rewrite (advance_while_all w lex_ident) by (try lia; intros; apply Hid; lia).
  cbn [obind Parse.i Parse.mark Parse.t].
  assert (H2 : (String.length w =? 0) = false) by (apply Nat.eqb_neq; lia).
  rewrite H2.
  assert (H3 : JsString.substring w 0 (String.length w) = w).
  { unfold JsString.substring. rewrite Nat.min_l, Nat.max_r, Nat.sub_0_r by lia.
    apply substring_all. }
  rewrite H3. rewrite (identifier_neq w "u;" Hw eq_refl).
  unfold Parse.group. cbn [Parse.gs_top Parse.initial_ribbon].
  rewrite (identifier_no_group w Hw), Hop.
  unfold Parse.regexp_flag. rewrite (identifier_neq w ")" Hw eq_refl). cbn [obind].
  cbn [Parse.lex_loop Parse.mark Parse.i]. rewrite Nat.ltb_irrefl.
  eexists. reflexivity.
Qed.

Lemma no_operator_to_fold :
  Forall (fun g : list loc * bool => fst g = [])
         (List.map (fun k => (nth k (Parse.indexes Parse.initial_ribbon) [],
                              nth k parse_index_forward false))
                   (seq 0 (List.length (Parse.indexes Parse.initial_ribbon)))).
Proof. vm_compute. repeat constructor. Qed.

(** X5. A name that is no operator word is parsed to one node without
    children, parent or siblings, whose data is the name. *)
Theorem parse_of_identifier (w : string) (fuel : nat) :
  is_identifier w = true -> has parse_inverse_order w = false ->
  String.length w + 3 <= fuel ->
  Parse.parse fuel w = Ok (0, [blank w]).
Proof.
  intros Hw Hop Hfuel.
  destruct (lex_of_identifier w fuel Hw Hop Hfuel) as [k Hlex].
  unfold Parse.parse. rewrite Hlex. cbn [obind].
  unfold Parse.fold_operators. cbn [Parse.indexes].
  rewrite (fold_groups_empty _ _ no_operator_to_fold). cbn [obind].
  destruct fuel as [|fuel]; [lia|]. reflexivity.
Qed.

Lemma parse_of_identifier_witness :
  Parse.parse 16 "_gensym_k2_9_" = Ok (0, [blank "_gensym_k2_9_"]).
Proof.
  exact (parse_of_identifier "_gensym_k2_9_" 16 eq_refl eq_refl ltac:(simpl; lia)).
Defined.

Lemma ascend_root fuel h :
  forall hd n, Parse.ascend fuel h hd = Ok n -> p (get h n) = None.
Proof.
  induction fuel as [|fuel IH]; intros hd n Hrun; [discriminate|].
  cbn [Parse.ascend] in Hrun. destruct hd as [x|]; [|discriminate].
  cbn [deref obind] in Hrun. destruct (p (get h x)) as [up|] eqn:Hp.
  - eapply IH. exact Hrun.
  - injection Hrun as <-. exact Hp.
Qed.

(** X6. The node that [parse] returns is a root: it has no parent. *)
Theorem parse_returns_root (text : string) (fuel : nat) (n : loc) (h : heap) :
  Parse.parse fuel text = Ok (n, h) -> p (get h n) = None.
Proof.
  unfold Parse.parse. intros Hrun.
  destruct (Parse.lex fuel text) as [[k rb]| |]; try discriminate. cbn [obind] in Hrun.
  destruct (Parse.fold_operators rb) as [rb1| |]; try discriminate. cbn [obind] in Hrun.
  destruct (Parse.infer_semicolons _ _) as [h2| |]; try discriminate. cbn [obind] in Hrun.
  destruct (Parse.flatten_invocations _ _) as [h3| |]; try discriminate. cbn [obind] in Hrun.
  destruct (Parse.ascend fuel h3 (Parse.head rb1)) as [root| |] eqn:Ha; try discriminate.
  cbn [obind] in Hrun. injection Hrun as <- <-. eapply ascend_root. exact Ha.
Qed.

Lemma parse_returns_root_witness :
  exists n h, Parse.parse 20 "f(x) + 1" = Ok (n, h) /\ p (get h n) = None.
Proof.
  destruct (Parse.parse 20 "f(x) + 1") as [[n h]| |] eqn:H;
    try (vm_compute in H; discriminate).
  exists n, h. split; [reflexivity|]. exact (parse_returns_root "f(x) + 1" 20 n h H).
Defined.

(** ** Trees: the plain tree below a node *)

Lemma plain_height t : height (plain t) = lheight t.
Proof.
  induction t as [a d ks IH] using ltree_ind. cbn [plain height lheight]. f_equal.
  induction IH as [|[k|] ks Hk Hall IHks]; simpl; [reflexivity| |exact IHks].
  rewrite Hk, IHks. reflexivity.
Qed.

Lemma freeze_repr h t :
  forall fuel, repr h t -> lheight t <= fuel -> freeze fuel h (root t) = Some (plain t).
Proof.
  induction t as [a d ks IH] using ltree_ind. intros fuel Hr Hfuel.
  destruct fuel as [|fuel]; [simpl in Hfuel; lia|].
  pose proof (repr_data _ _ Hr) as Hd. pose proof (repr_kids _ _ Hr) as Hk.
  pose proof (repr_children _ _ Hr) as Hc. cbn [root ldata lkids] in *.
  cbn [freeze plain]. rewrite Hd, Hk.
  match goal with
  | |- match fold_right ?f ?z ?l with _ => _ end = _ =>
      assert (Hfold : fold_right f z l
                      = Some (List.map (fun k => match k with
                                                 | Some t' => Some (plain t')
                                                 | None => None
                                                 end) ks))
  end.
  { assert (Hh : forall k, In (Some k) ks -> lheight k <= fuel).
    { intros k Hin. pose proof (lheight_unfold a d ks k Hin). lia. }
    clear Hk Hr Hd Hfuel.
    induction ks as [|[k|] ks IHks]; [reflexivity| |].
    - inversion IH as [|? ? Hk1 Hrest]; subst. inversion Hc as [|? ? Hr1 Hc']; subst.
      cbn [List.map fold_right root_of option_map].
      rewrite (IHks Hrest Hc') by (intros; apply Hh; right; assumption).
      rewrite (Hk1 fuel Hr1) by (apply Hh; left; reflexivity). reflexivity.
    - inversion IH as [|? ? Hk1 Hrest]; subst. inversion Hc as [|? ? Hr1 Hc']; subst.
      cbn [List.map fold_right root_of option_map].
      rewrite (IHks Hrest Hc') by (intros; apply Hh; right; assumption). reflexivity. }
  rewrite Hfold. reflexivity.
Qed.

Lemma subtrees_self t : In t (subtrees t).
Proof. destruct t. left. reflexivity. Qed.

Lemma subtrees_child a d ks k x :
  In (Some k) ks -> In x (subtrees k) -> In x (subtrees (LNode a d ks)).
Proof.
  intros Hin Hx. cbn [subtrees]. right.
  induction ks as [|[c|] ks IH]; [contradiction| |].
  - cbn [fold_right]. apply List.in_or_app. destruct Hin as [Heq|Hin].
    + injection Heq as ->. left. exact Hx.
    + right. apply IH. exact Hin.
  - cbn [fold_right]. destruct Hin as [Heq|Hin]; [discriminate|]. apply IH. exact Hin.
Qed.

Lemma subtrees_inv a d ks y :
  In y (subtrees (LNode a d ks)) ->
  y = LNode a d ks \/ exists k, In (Some k) ks /\ In y (subtrees k).
Proof.
  cbn [subtrees]. intros [<-|Hy]; [left; reflexivity|]. right.
  induction ks as [|[c|] ks IHks]; [contradiction| |].
  - cbn [fold_right] in Hy. apply List.in_app_or in Hy. destruct Hy as [Hy|Hy].
    + exists c. split; [left; reflexivity | exact Hy].
    + destruct (IHks Hy) as (k & Hk & Hyk). exists k. split; [right; exact Hk | exact Hyk].
  - cbn [fold_right] in Hy. destruct (IHks Hy) as (k & Hk & Hyk).
    exists k. split; [right; exact Hk | exact Hyk].
Qed.

Lemma subtrees_trans t :
  forall x y, In x (subtrees y) -> In y (subtrees t) -> In x (subtrees t).
Proof.
  induction t as [a d ks IH] using ltree_ind. intros x y Hx Hy.
  destruct (subtrees_inv _ _ _ _ Hy) as [->|(k & Hk & Hyk)]; [exact Hx|].
  rewrite List.Forall_forall in IH.
  eapply subtrees_child; [exact Hk|]. apply (IH (Some k) Hk x y Hx Hyk).
Qed.

Lemma repr_subtree h t : forall x, repr h t -> In x (subtrees t) -> repr h x.
Proof.
  induction t as [a d ks IH] using ltree_ind. intros x Hr Hx.
  destruct (subtrees_inv _ _ _ _ Hx) as [->|(k & Hk & Hxk)]; [exact Hr|].
  rewrite List.Forall_forall in IH. apply (IH (Some k) Hk); [|exact Hxk].
  pose proof (repr_children _ _ Hr) as Hc. cbn [lkids] in Hc.
  rewrite List.Forall_forall in Hc. exact (Hc (Some k) Hk).
Qed.

Lemma full_subtree t : forall x, full t -> In x (subtrees t) -> full x.
Proof.
  induction t as [a d ks IH] using ltree_ind. intros x Hf Hx.
  destruct (subtrees_inv _ _ _ _ Hx) as [->|(k & Hk & Hxk)]; [exact Hf|].
  rewrite List.Forall_forall in IH. apply (IH (Some k) Hk); [|exact Hxk].
  apply full_unfold in Hf. rewrite List.Forall_forall in Hf. exact (Hf (Some k) Hk).
Qed.

(** ** [rmap] when the function replaces nothing *)

Section Copy.

Context {S : Type}.
Variable choose : ltree -> S -> value * S.

Lemma copy_built base h' t :
  replaces_nothing choose t ->
  forall st out,
    built base h' out (fst (rmap_spec choose t st)) ->
    exists t', repr h' t' /\ root t' = out /\ plain t' = plain t /\
               Forall (fun a => base <= a) (nodes t').
Proof.
  induction t as [a d ks IH] using ltree_ind. intros Hq st out Hb.
  assert (Hdesc : fst (rmap_spec choose (LNode a d ks) st)
                  = Fresh d (fst (spec_kids (rmap_spec choose) ks
                                            (snd (choose (LNode a d ks) st))))).
  { cbn [rmap_spec]. destruct (Hq (LNode a d ks) st (subtrees_self _)) as [Hv|Hv];
      destruct (choose (LNode a d ks) st) as [v st1]; cbn [fst snd] in *; subst v.
    - destruct (spec_kids (rmap_spec choose) ks st1). reflexivity.
    - cbn [root]. rewrite Nat.eqb_refl.
      destruct (spec_kids (rmap_spec choose) ks st1). reflexivity. }
  rewrite Hdesc in Hb. cbn [built] in Hb.
  destruct Hb as (Hbase & Hlen & Hd & _ & _ & _ & Hk).
  assert (Hkids : forall st1 outs,
             built_kids (built base h') (fst (spec_kids (rmap_spec choose) ks st1)) outs ->
             exists ts, Forall (repr_opt h') ts /\ List.map root_of ts = outs /\
                        List.map (fun k => match k with
                                           | Some t' => Some (plain t')
                                           | None => None
                                           end) ts
                        = List.map (fun k => match k with
                                             | Some t' => Some (plain t')
                                             | None => None
                                             end) ks /\
                        Forall (fun k => match k with
                                         | Some t' => Forall (fun a => base <= a) (nodes t')
                                         | None => True
                                         end) ts).
  { assert (Hq' : forall k, In (Some k) ks -> replaces_nothing choose k).
    { intros k Hin t' st' Ht'. apply Hq. eapply subtrees_child; eassumption. }
    clear Hk Hdesc Hd Hq. induction IH as [|[k|] ks Hk1 Hall IHks]; intros st1 outs Hbk.
    - destruct outs; [|contradiction]. exists []. repeat split; constructor.
    - cbn [spec_kids] in Hbk.
      destruct (rmap_spec choose k st1) as [sh st'] eqn:Hs.
      destruct (spec_kids (rmap_spec choose) ks st') as [shs st''] eqn:Hss.
      cbn [fst] in Hbk. destruct outs as [|[o|] outs]; try contradiction.
      cbn [built_kids] in Hbk. destruct Hbk as [Ho Hrest].
      destruct (Hk1 (Hq' k (or_introl eq_refl)) st1 o) as (t1 & Hr1 & Hroot1 & Hp1 & Hn1).
      { rewrite Hs. exact Ho. }
      destruct (IHks (fun k' Hin => Hq' k' (or_intror Hin)) st' outs) as (ts & Hrs & Hm & Hp & Hn).
      { rewrite Hss. exact Hrest. }
      exists (Some t1 :: ts). split; [constructor; assumption|]. split; [|split].
      + cbn [List.map root_of option_map]. rewrite Hroot1, Hm. reflexivity.
      + cbn [List.map]. rewrite Hp1, Hp. reflexivity.
      + constructor; assumption.
    - cbn [spec_kids] in Hbk.
      destruct (spec_kids (rmap_spec choose) ks st1) as [shs st''] eqn:Hss.
      cbn [fst] in Hbk. destruct outs as [|[o|] outs]; try contradiction.
      cbn [built_kids] in Hbk.
      destruct (IHks (fun k' Hin => Hq' k' (or_intror Hin)) st1 outs) as (ts & Hrs & Hm & Hp & Hn).
      { rewrite Hss. exact Hbk. }
      exists (None :: ts). split; [constructor; [exact I | assumption]|]. split; [|split].
      + cbn [List.map root_of option_map]. rewrite Hm. reflexivity.
      + cbn [List.map]. rewrite Hp. reflexivity.
      + constructor; [exact I | assumption]. }
  destruct (Hkids _ _ Hk) as (ts & Hrs & Hm & Hp & Hn).
  exists (LNode out d ts). split; [|split; [reflexivity|split]].
  - apply repr_unfold. repeat split; auto.
  - cbn [plain]. rewrite Hp. reflexivity.
  - unfold nodes. cbn [subtrees List.map root]. constructor; [exact Hbase|].
    clear Hrs Hm Hp. induction Hn as [|[k|] ts Hk1 Hrest IHn]; cbn [fold_right].
    + constructor.
    + rewrite List.map_app. apply List.Forall_app. split; [exact Hk1 | exact IHn].
    + exact IHn.
Qed.

End Copy.

(** X7. When the function handed to [rmap] answers, at every node of the
    tree, a falsy value or the node itself, [rmap] returns a copy of the
    tree: a tree of the same shape and data all of whose nodes are new, the
    old nodes being written to by nobody. *)
Theorem rmap_copies_tree {S : Type} (g : loc -> @action S value)
        (choose : ltree -> S -> value * S) (h : heap) (t : ltree) (st : S) (fuel : nat) :
  driven g choose -> replaces_nothing choose t -> repr h t -> lheight t <= fuel ->
  exists out h' st' t',
    rmap fuel g (root t) (h, st) = Ok (out, (h', st')) /\ extends h h' /\
    repr h' t' /\ root t' = out /\ plain t' = plain t /\
    Forall (fun a => List.length h <= a) (nodes t').
Proof.
  intros Hg Hq Hr Hfuel.
  destruct (rmap_shape g choose Hg t fuel Hfuel h st Hr) as (out & h' & Hrun & He & Hb).
  destruct (copy_built choose (List.length h) h' t Hq st out Hb) as (t' & H1 & H2 & H3 & H4).
  exists out, h', (snd (rmap_spec choose t st)), t'. auto 10.
Qed.

Lemma rmap_copies_tree_witness :
  exists out h' st' t',
    rmap 2 (@keep unit) (root sum_subject) (sum_store, tt) = Ok (out, (h', st')) /\
    extends sum_store h' /\ repr h' t' /\ root t' = out /\ plain t' = plain sum_subject /\
    Forall (fun a => List.length sum_store <= a) (nodes t').
Proof.
  apply (rmap_copies_tree keep (fun _ st => (None, st)) sum_store sum_subject tt 2).
  - intros h t st Hr. reflexivity.
  - intros t' st Hin. left. reflexivity.
  - simpl. repeat split; lia.
  - simpl. lia.
Defined.

(** X9. When there is nothing to put in (no node of the tree has the key as
    its data, or the array of replacements is empty), [s] returns a copy of
    the tree and raises no error. *)
Theorem substitute_nothing_copies (h : heap) (t : ltree) (key : string) (xs : list value)
        (fuel : nat) :
  repr h t -> lheight t <= fuel ->
  xs = [] \/ (forall t', In t' (subtrees t) -> ldata t' <> key) ->
  exists out h' t',
    s fuel (root t) key (Many xs) h = Ok (out, h') /\ extends h h' /\
    repr h' t' /\ root t' = out /\ plain t' = plain t /\
    Forall (fun a => List.length h <= a) (nodes t').
Proof.
  intros Hr Hfuel Hnone.
  destruct (rmap_shape (s_many key xs) (subst_nodes key xs)) with
    (t := t) (fuel := fuel) (hc := h) (st := 0) as (out & h' & Hrun & He & Hb); auto.
  { intros h1 t1 st Hr1. unfold s_many, subst_nodes. cbn [fst snd].
    rewrite (repr_data _ _ Hr1). destruct (String.eqb (ldata t1) key); reflexivity. }
  destruct (copy_built (subst_nodes key xs) (List.length h) h' t) with
    (st := 0) (out := out) as (t' & H1 & H2 & H3 & H4).
  - intros t1 st1 Hin. left. unfold subst_nodes.
    destruct (String.eqb (ldata t1) key) eqn:Hk; [|reflexivity].
    destruct Hnone as [-> | Hnone].
    + cbn [fst]. destruct (st1 mod List.length (@nil value)); reflexivity.
    + apply String.eqb_eq in Hk. exfalso. exact (Hnone t1 Hin Hk).
  - exact Hb.
  - exists out, h', t'. split; [unfold s; rewrite Hrun; reflexivity | auto 10].
Qed.

Lemma substitute_nothing_copies_witness :
  exists out h' t',
    s 2 (root sum_subject) "_" (Many [Some 0]) sum_store = Ok (out, h') /\
    extends sum_store h' /\ repr h' t' /\ root t' = out /\ plain t' = plain sum_subject /\
    Forall (fun a => List.length sum_store <= a) (nodes t').
Proof.
  apply (substitute_nothing_copies sum_store sum_subject "_" [Some 0] 2).
  - simpl. repeat split; lia.
  - simpl. lia.
  - right. intros t' [<-|[<-|[<-|[]]]]; simpl; discriminate.
Defined.

(** ** Patterns, their wildcards and what fills them *)

Lemma firstn_one_skipn {A : Type} (xs : list A) (i : nat) (d : A) :
  i < List.length xs -> firstn 1 (skipn i xs) = [nth i xs d].
Proof.
  revert i. induction xs as [|x xs IH]; intros i Hi; [simpl in Hi; lia|].
  destruct i as [|i]; [reflexivity|]. simpl in *. apply IH. lia.
Qed.

Lemma firstn_add_skipn {A : Type} (xs : list A) (i a b : nat) :
  firstn (a + b) (skipn i xs) = firstn a (skipn i xs) ++ firstn b (skipn (i + a) xs).
Proof.
  rewrite Nat.add_comm with (n := i). rewrite <- List.skipn_skipn.
  generalize (skipn i xs) as ys. clear xs i. intros ys. revert ys.
  induction a as [|a IH]; intros ys; [reflexivity|].
  destruct ys as [|y ys]; [simpl; destruct b; reflexivity|].
  simpl. rewrite IH. reflexivity.
Qed.

Lemma nodes_child a d ks k x :
  In (Some k) ks -> In x (nodes k) -> In x (nodes (LNode a d ks)).
Proof.
  unfold nodes. intros Hin Hx. apply List.in_map_iff in Hx. destruct Hx as (t & <- & Ht).
  apply List.in_map. eapply subtrees_child; eassumption.
Qed.

Section SubstFills.

Variable all : list ltree.
Variable h' : heap.
Variable base : nat.

Hypothesis all_repr : Forall (repr h') all.

Lemma nth_roots (i : nat) :
  i < List.length all ->
  nth (i mod List.length (roots all)) (roots all) None
  = Some (root (nth i all (LNode 0 "" []))).
Proof.
  intros Hi. unfold roots. rewrite List.length_map, Nat.mod_small by exact Hi.
  rewrite (List.nth_indep _ None (Some (root (LNode 0 "" [])))) by (rewrite List.length_map; exact Hi).
  apply (List.map_nth (fun t => Some (root t))).
Qed.

Lemma subst_fills p :
  forall i,
    i + wildcards p <= List.length all ->
    (forall x, In x all -> ~ In (root x) (nodes p)) ->
    snd (rmap_spec (subst_nodes "_" (roots all)) p i) = i + wildcards p /\
    forall out,
      built base h' out (fst (rmap_spec (subst_nodes "_" (roots all)) p i)) ->
      exists t', repr h' t' /\ root t' = out /\
                 fills p (firstn (wildcards p) (skipn i all)) t'.
Proof.
  induction p as [a d ks IH] using ltree_ind. intros i Hi Hsep.
  cbn [wildcards] in *.
  destruct (String.eqb d "_") eqn:Hw.
  - apply String.eqb_eq in Hw. subst d.
    assert (Hlt : i < List.length all) by lia.
    assert (Hne : (root (nth i all (LNode 0 "" [])) =? a) = false).
    { apply Nat.eqb_neq. intros Heq. apply (Hsep (nth i all (LNode 0 "" []))).
      - apply List.nth_In. exact Hlt.
      - rewrite Heq. left. reflexivity. }
    assert (Hspec : rmap_spec (subst_nodes "_" (roots all)) (LNode a "_" ks) i
                    = (Repl (root (nth i all (LNode 0 "" []))), Datatypes.S i)).
    { cbn [rmap_spec]. unfold subst_nodes at 1. cbn [ldata]. rewrite String.eqb_refl.
      rewrite (nth_roots i Hlt), Hne. reflexivity. }
    rewrite Hspec. cbn [fst snd]. split; [lia|].
    intros out Hb. cbn [built] in Hb. subst out.
    exists (nth i all (LNode 0 "" [])). split; [|split; [reflexivity|]].
    + rewrite List.Forall_forall in all_repr. apply all_repr. apply List.nth_In. exact Hlt.
    + rewrite (firstn_one_skipn all i (LNode 0 "" [])) by exact Hlt. constructor.
  - apply String.eqb_neq in Hw.
    assert (Hkids :
              forall j,
                j + fold_right (fun k m => match k with
                                           | Some t' => wildcards t' + m
                                           | None => m
                                           end) 0 ks <= List.length all ->
                snd (spec_kids (rmap_spec (subst_nodes "_" (roots all))) ks j)
                = j + fold_right (fun k m => match k with
                                             | Some t' => wildcards t' + m
                                             | None => m
                                             end) 0 ks /\
                forall outs,
                  built_kids (built base h')
                             (fst (spec_kids (rmap_spec (subst_nodes "_" (roots all))) ks j))
                             outs ->
                  exists ts, Forall (repr_opt h') ts /\ List.map root_of ts = outs /\
                             fills_kids ks
                               (firstn (fold_right (fun k m => match k with
                                                               | Some t' => wildcards t' + m
                                                               | None => m
                                                               end) 0 ks)
                                       (skipn j all)) ts).
    { assert (Hsep' : forall k, In (Some k) ks ->
                                forall x, In x all -> ~ In (root x) (nodes k)).
      { intros k Hin x Hx Hn. apply (Hsep x Hx). eapply nodes_child; eassumption. }
      clear Hsep Hi. induction IH as [|[k|] ks Hk1 Hall IHks]; intros j Hj.
      - cbn [spec_kids fold_right fst snd]. split; [lia|].
        intros outs Hb. destruct outs; [|contradiction].
        exists []. repeat split; constructor.
      - cbn [fold_right] in Hj |- *. cbn [spec_kids].
        destruct (Hk1 j ltac:(lia) (Hsep' k (or_introl eq_refl))) as [Hst Hbk].
        destruct (rmap_spec (subst_nodes "_" (roots all)) k j) as [sh st'] eqn:Hs.
        cbn [fst snd] in Hst, Hbk. subst st'.
        destruct (IHks (fun k' Hin => Hsep' k' (or_intror Hin)) (j + wildcards k))
          as [Hst2 Hbk2]; [lia|].
        destruct (spec_kids (rmap_spec (subst_nodes "_" (roots all))) ks (j + wildcards k))
          as [shs st''] eqn:Hss.
        cbn [fst snd] in *. split; [lia|].
        intros outs Hb. destruct outs as [|[o|] outs]; try contradiction.
        cbn [built_kids] in Hb. destruct Hb as [Ho Hrest].
        destruct (Hbk o Ho) as (t1 & Hr1 & Hroot1 & Hf1).
        destruct (Hbk2 outs Hrest) as (ts & Hrs & Hm & Hfs).
        exists (Some t1 :: ts). split; [constructor; assumption|]. split.
        + cbn [List.map root_of option_map]. rewrite Hroot1, Hm. reflexivity.
        + rewrite firstn_add_skipn. constructor; assumption.
      - cbn [fold_right] in Hj |- *. cbn [spec_kids].
        destruct (IHks (fun k' Hin => Hsep' k' (or_intror Hin)) j) as [Hst2 Hbk2]; [lia|].
        destruct (spec_kids (rmap_spec (subst_nodes "_" (roots all))) ks j)
          as [shs st''] eqn:Hss.
        cbn [fst snd] in *. split; [lia|].
        intros outs Hb. destruct outs as [|[o|] outs]; try contradiction.
        cbn [built_kids] in Hb.
        destruct (Hbk2 outs Hb) as (ts & Hrs & Hm & Hfs).
        exists (None :: ts). split; [constructor; [exact I | assumption]|]. split.
        + cbn [List.map root_of option_map]. rewrite Hm. reflexivity.
        + constructor. assumption. }
    destruct (Hkids i Hi) as [Hst Hbk].
    assert (Hspec : rmap_spec (subst_nodes "_" (roots all)) (LNode a d ks) i
                    = (Fresh d (fst (spec_kids (rmap_spec (subst_nodes "_" (roots all))) ks i)),
                       snd (spec_kids (rmap_spec (subst_nodes "_" (roots all))) ks i))).
    { cbn [rmap_spec]. unfold subst_nodes at 1. cbn [ldata].
      apply String.eqb_neq in Hw. rewrite Hw.
      destruct (spec_kids (rmap_spec (subst_nodes "_" (roots all))) ks i). reflexivity. }
    rewrite Hspec. cbn [fst snd]. split; [exact Hst|].
    intros out Hb. cbn [built] in Hb. destruct Hb as (_ & Hlen & Hd & _ & _ & _ & Hk).
    destruct (Hbk _ Hk) as (ts & Hrs & Hm & Hfs).
    exists (LNode out d ts). split; [|split; [reflexivity|]].
    + apply repr_unfold. repeat split; auto.
    + constructor; assumption.
Qed.

End SubstFills.

Lemma fills_length p : forall subs t, fills p subs t -> List.length subs = wildcards p.
Proof.
  induction p as [a d ks IH] using ltree_ind. intros subs t Hf.
  cbn [wildcards]. inversion Hf as [a' ks' x | a' d' ks' b ts subs' Hd Hk]; subst.
  - reflexivity.
  - apply String.eqb_neq in Hd. rewrite Hd. clear Hf Hd.
    revert subs ts Hk. induction IH as [|[k|] ks Hk1 Hall IHks]; intros subs ts Hk.
    + inversion Hk. reflexivity.
    + inversion Hk as [|k' ks' t' ts' c cs Hf1 Hfs|]; subst.
      rewrite List.length_app. cbn [fold_right]. rewrite (Hk1 _ _ Hf1), (IHks _ _ Hfs).
      reflexivity.
    + inversion Hk as [| |ks' ts' cs Hfs]; subst. cbn [fold_right]. apply (IHks _ _ Hfs).
Qed.

Lemma fills_plain p :
  forall subs t1 t2, fills p subs t1 -> fills p subs t2 -> plain t1 = plain t2.
Proof.
  induction p as [a d ks IH] using ltree_ind. intros subs t1 t2 H1 H2.
  inversion H1 as [a1 ks1 x1 | a1 d1 ks1 b1 ts1 subs1 Hd1 Hk1]; subst.
  - inversion H2 as [a2 ks2 x2 | a2 d2 ks2 b2 ts2 subs2 Hd2 Hk2]; subst;
      [reflexivity | congruence].
  - inversion H2 as [a2 ks2 x2 | a2 d2 ks2 b2 ts2 subs2 Hd2 Hk2]; subst; [congruence|].
    cbn [plain]. f_equal. clear H1 H2 Hd1 Hd2.
    revert subs ts1 ts2 Hk1 Hk2.
    induction IH as [|[k|] ks Hk Hall IHks]; intros subs ts1 ts2 Hk1 Hk2.
    + inversion Hk1; subst. inversion Hk2; subst. reflexivity.
    + inversion Hk1 as [|k' ks' t1' ts1' c1 cs1 Hf1 Hfs1|]; subst.
      inversion Hk2 as [|k'' ks'' t2' ts2' c2 cs2 Hf2 Hfs2|]; subst.
      assert (Hlen : List.length c2 = List.length c1).
      { rewrite (fills_length _ _ _ Hf1), (fills_length _ _ _ Hf2). reflexivity. }
      match goal with
      | Heq : c2 ++ cs2 = c1 ++ cs1 |- _ =>
          destruct (app_inj_1 _ _ _ _ Hlen Heq) as [-> ->]
      end.
      cbn [List.map]. rewrite (Hk _ _ _ Hf1 Hf2), (IHks _ _ _ Hfs1 Hfs2). reflexivity.
    + inversion Hk1 as [| |ks' ts1' cs1 Hfs1]; subst.
      inversion Hk2 as [| |ks'' ts2' cs2 Hfs2]; subst.
      cbn [List.map]. rewrite (IHks _ _ _ Hfs1 Hfs2). reflexivity.
Qed.

Lemma gen_length pt :
  forall s caps, try_match_gen pt s = Ok (Some caps) -> List.length caps = wildcards pt.
Proof.
  induction pt as [a d ks IH] using ltree_ind. intros s caps.
  cbn [try_match_gen wildcards]. destruct (String.eqb d "_"); [intros [= <-]; reflexivity|].
  destruct s as [st|]; [|discriminate].
  destruct (String.eqb d (ldata st) && (List.length ks =? List.length (lkids st)));
    [|discriminate].
  generalize (lkids st) as sks. clear st. revert caps.
  induction IH as [|[k|] ks Hk Hall IHks]; intros caps sks; cbn [gen_children fold_right obind].
  - intros [= <-]. reflexivity.
  - destruct (try_match_gen k (hd None sks)) as [[c|]| |] eqn:Hc; cbn [obind]; try discriminate.
    destruct (gen_children try_match_gen ks (tl sks)) as [[cs|]| |] eqn:Hcs;
      cbn [obind option_map]; try discriminate.
    intros [= <-]. rewrite List.length_app, (Hk _ _ Hc), (IHks _ _ Hcs). reflexivity.
  - discriminate.
Qed.

Lemma fills_gen p :
  forall subs t, full p -> fills p subs t -> try_match_gen p (Some t) = Ok (Some (roots subs)).
Proof.
  induction p as [a d ks IH] using ltree_ind. intros subs t Hfull Hf.
  inversion Hf as [a' ks' x | a' d' ks' b ts subs' Hd Hk]; subst.
  - reflexivity.
  - cbn [try_match_gen ldata lkids]. apply String.eqb_neq in Hd. rewrite Hd, String.eqb_refl.
    apply full_unfold in Hfull. clear Hf Hd.
    assert (Hlen : List.length ks = List.length ts).
    { clear IH Hfull. induction Hk; simpl; congruence. }
    rewrite Hlen, Nat.eqb_refl. cbn [andb]. clear Hlen.
    revert subs ts Hk. induction IH as [|[k|] ks Hk1 Hall IHks]; intros subs ts Hk.
    + inversion Hk. reflexivity.
    + inversion Hfull as [|? ? Fk Frest]; subst.
      inversion Hk as [|k' ks' t' ts' c cs Hf1 Hfs|]; subst.
      cbn [gen_children hd tl]. rewrite (Hk1 _ _ Fk Hf1). cbn [obind].
      rewrite (IHks Frest _ _ Hfs). cbn [obind option_map].
      unfold roots. rewrite List.map_app. reflexivity.
    + inversion Hfull as [|? ? Fk Frest]; subst. contradiction.
Qed.

Lemma gen_fills h p :
  forall s caps,
    try_match_gen p s = Ok (Some caps) -> Forall (fun c => c <> None) caps -> repr_opt h s ->
    exists t subs, s = Some t /\ fills p subs t /\ roots subs = caps /\ Forall (repr h) subs.
Proof.
  induction p as [a d ks IH] using ltree_ind. intros s caps Hm Hcaps Rs.
  cbn [try_match_gen] in Hm. destruct (String.eqb d "_") eqn:Hw.
  - apply String.eqb_eq in Hw. subst d. injection Hm as <-.
    inversion Hcaps as [|? ? Hc _]; subst. destruct s as [t|]; [|contradiction].
    exists t, [t]. split; [reflexivity|]. split; [constructor|]. split; [reflexivity|].
    constructor; [exact Rs | constructor].
  - apply String.eqb_neq in Hw. destruct s as [[b d' ts]|]; [|discriminate].
    cbn [ldata lkids] in Hm. destruct (String.eqb d d') eqn:Hdd; [|discriminate].
    apply String.eqb_eq in Hdd. subst d'.
    destruct (List.length ks =? List.length ts) eqn:Hll; [|discriminate].
    apply Nat.eqb_eq in Hll. cbn [andb] in Hm.
    simpl in Rs. apply repr_unfold in Rs. destruct Rs as (_ & _ & _ & Rts).
    assert (Hkids : exists subs, fills_kids ks subs ts /\ roots subs = caps /\
                                 Forall (repr h) subs).
    { clear Hw. revert ts caps Hm Hcaps Hll Rts.
      induction IH as [|[k|] ks Hk1 Hall IHks]; intros ts caps Hm Hcaps Hll Rts.
      - destruct ts; [|discriminate]. injection Hm as <-.
        exists []. repeat split; constructor.
      - destruct ts as [|t0 ts]; [discriminate|]. cbn [gen_children hd tl] in Hm.
        destruct (try_match_gen k t0) as [[c|]| |] eqn:Hc; cbn [obind] in Hm; try discriminate.
        destruct (gen_children try_match_gen ks ts) as [[cs|]| |] eqn:Hcs;
          cbn [obind option_map] in Hm; try discriminate.
        injection Hm as <-. apply List.Forall_app in Hcaps. destruct Hcaps as [Hc1 Hc2].
        inversion Rts as [|? ? Rt0 Rts']; subst.
        destruct (Hk1 _ _ Hc Hc1 Rt0) as (t & s1 & -> & Hf1 & Hr1 & Ha1).
        destruct (IHks ts cs Hcs Hc2) as (s2 & Hf2 & Hr2 & Ha2); [simpl in Hll; lia | exact Rts'|].
        exists (s1 ++ s2). split; [constructor; assumption|]. split.
        + unfold roots in *. rewrite List.map_app, Hr1, Hr2. reflexivity.
        + apply List.Forall_app. split; assumption.
      - cbn [gen_children obind] in Hm. discriminate. }
    destruct Hkids as (subs & Hf & Hc & Ha).
    exists (LNode b d ts), subs. split; [reflexivity|].
    split; [constructor; assumption|]. split; assumption.
Qed.

(** ** [macro_try_match] and [s] undo each other *)

(** X10. A match captures one node for each wildcard of the pattern: the
    array that [macro_try_match] returns is as long as the pattern has nodes
    [_] that are below no other.  The trees may have null children. *)
Theorem captures_count_wildcards (h : heap) (pt st : ltree) (fuel : nat)
        (caps : list value) :
  repr h pt -> repr h st -> lheight pt <= fuel ->
  macro_try_match fuel h (Some (root pt)) (Some (root st)) = Ok (Some caps) ->
  List.length caps = wildcards pt.
Proof.
  intros Rp Rs Hfuel Hrun.
  apply (macro_try_match_gen_ok h pt fuel (Some st) (Some caps) Rp Rs Hfuel) in Hrun.
  eapply gen_length. exact Hrun.
Qed.

(** X11. Substituting into a pattern without null children and matching the
    result against the pattern gives the substituted nodes back: when [subs]
    are as many trees as the pattern has wildcards, [p.s('_', subs)] is
    matched by [p], and the captures are the roots of [subs] in order. *)
Theorem match_after_substitute (h : heap) (p : ltree) (subs : list ltree) (fuel : nat) :
  repr h p -> full p -> Forall (repr h) subs ->
  List.length subs = wildcards p ->
  (forall x, In x subs -> ~ In (root x) (nodes p)) ->
  lheight p <= fuel ->
  exists out h',
    s fuel (root p) "_" (Many (roots subs)) h = Ok (out, h') /\ extends h h' /\
    macro_try_match fuel h' (Some (root p)) (Some out) = Ok (Some (roots subs)).
Proof.
  intros Rp Fp Rsubs Hlen Hsep Hfuel.
  destruct (rmap_shape (s_many "_" (roots subs)) (subst_nodes "_" (roots subs))) with
    (t := p) (fuel := fuel) (hc := h) (st := 0) as (out & h' & Hrun & He & Hb); auto.
  { intros h1 t1 st Hr1. unfold s_many, subst_nodes. cbn [fst snd].
    rewrite (repr_data _ _ Hr1). destruct (String.eqb (ldata t1) "_"); reflexivity. }
  assert (Rsubs' : Forall (repr h') subs).
  { rewrite List.Forall_forall in *. intros x Hx. eapply repr_extends; eauto. }
  destruct (subst_fills subs h' (List.length h) Rsubs' p 0) as [_ Hfill]; [lia | exact Hsep |].
  destruct (Hfill out Hb) as (t' & Rt' & Hroot & Hf).
  rewrite <- Hlen in Hf. cbn [skipn] in Hf. rewrite List.firstn_all in Hf.
  exists out, h'. split; [unfold s; rewrite Hrun; reflexivity|]. split; [exact He|].
  rewrite <- Hroot.
  apply (macro_try_match_gen_ok h' p fuel (Some t')); auto.
  - eapply repr_extends; eauto.
  - apply fills_gen; assumption.
Qed.

(** X12. Matching a tree against a pattern and substituting the captures
    into the pattern gives the tree back, when no capture is null:
    [p.s('_', caps)] returns, writes to no existing node, and the tree below
    the node it returns has the shape and the data of the subject.  The trees
    may have null children. *)
Theorem substitute_after_match (h : heap) (p t : ltree) (caps : list value)
        (fuel mfuel : nat) :
  repr h p -> repr h t -> lheight p <= fuel -> lheight p <= mfuel ->
  macro_try_match mfuel h (Some (root p)) (Some (root t)) = Ok (Some caps) ->
  Forall (fun c => c <> None) caps ->
  (forall x, In (Some x) caps -> ~ In x (nodes p)) ->
  exists out h',
    s fuel (root p) "_" (Many caps) h = Ok (out, h') /\ extends h h' /\
    freeze (lheight t) h' out = Some (plain t) /\
    freeze (lheight t) h (root t) = Some (plain t).
Proof.
  intros Rp Rt Hfuel Hmfuel Hmatch Hcaps Hsep.
  apply (macro_try_match_gen_ok h p mfuel (Some t) (Some caps) Rp Rt Hmfuel) in Hmatch.
  destruct (gen_fills h p (Some t) caps Hmatch Hcaps Rt) as (t0 & subs & [= <-] & Hf & <- & Rsubs).
  destruct (rmap_shape (s_many "_" (roots subs)) (subst_nodes "_" (roots subs))) with
    (t := p) (fuel := fuel) (hc := h) (st := 0) as (out & h' & Hrun & He & Hb); auto.
  { intros h1 t1 st Hr1. unfold s_many, subst_nodes. cbn [fst snd].
    rewrite (repr_data _ _ Hr1). destruct (String.eqb (ldata t1) "_"); reflexivity. }
  assert (Rsubs' : Forall (repr h') subs).
  { rewrite List.Forall_forall in *. intros x Hx. eapply repr_extends; eauto. }
  pose proof (fills_length _ _ _ Hf) as Hlen.
  destruct (subst_fills subs h' (List.length h) Rsubs' p 0) as [_ Hfill]; [lia | |].
  { intros x Hx. apply Hsep. unfold roots. apply List.in_map_iff. exists x. auto. }
  destruct (Hfill out Hb) as (t' & Rt' & Hroot & Hf').
  rewrite <- Hlen in Hf'. cbn [skipn] in Hf'. rewrite List.firstn_all in Hf'.
  pose proof (fills_plain _ _ _ _ Hf' Hf) as Hplain.
  exists out, h'. split; [unfold s; rewrite Hrun; reflexivity|]. split; [exact He|].
  split; [|apply freeze_repr; [exact Rt | lia]].
  rewrite <- Hroot, <- Hplain. apply freeze_repr; [exact Rt'|].
  rewrite <- (plain_height t'), Hplain, plain_height. lia.
Qed.

Lemma captures_count_wildcards_witness :
  List.length [Some 3; Some 5] = wildcards call_pattern.
Proof.
  apply (captures_count_wildcards call_store call_pattern call_subject 2 [Some 3; Some 5]);
    [simpl; repeat split; lia | simpl; repeat split; lia | simpl; lia | reflexivity].
Defined.

Lemma match_after_substitute_witness :
  exists out h',
    s 2 (root call_pattern) "_" (Many [Some 3; Some 5]) call_store = Ok (out, h') /\
    extends call_store h' /\
    macro_try_match 2 h' (Some (root call_pattern)) (Some out) = Ok (Some [Some 3; Some 5]).
Proof.
  apply (match_after_substitute call_store call_pattern [call_tree; LNode 5 "1" []] 2).
  - simpl. repeat split; lia.
  - simpl. tauto.
  - repeat constructor; simpl; lia.
  - reflexivity.
  - intros x [<-|[<-|[]]]; simpl; intros [H|[H|[H|[]]]]; discriminate.
  - simpl. lia.
Defined.

Lemma substitute_after_match_witness :
  exists out h',
    s 2 (root call_pattern) "_" (Many [Some 3; Some 5]) call_store = Ok (out, h') /\
    extends call_store h' /\
    freeze (lheight call_subject) h' out = Some (plain call_subject) /\
    freeze (lheight call_subject) call_store (root call_subject) = Some (plain call_subject).
Proof.
  apply (substitute_after_match call_store call_pattern call_subject [Some 3; Some 5] 2 2).
  - simpl. repeat split; lia.
  - simpl. repeat split; lia.
  - simpl. lia.
  - simpl. lia.
  - reflexivity.
  - repeat constructor; discriminate.
  - intros x [H|[H|[]]]; injection H as <-; simpl; intros [H|[H|[H|[]]]]; discriminate.
Defined.

(** ** [reach], [collect] and [parents] *)

Section ReachFold.

Context {S : Type}.
Variable f : loc -> @action S unit.
Variable step : ltree -> S -> S.

(** The function reads the tree and changes its own state only. *)
Hypothesis f_notes :
  forall h t st, repr h t -> f (root t) (h, st) = Ok (tt, (h, step t st)).

Lemma reach_fold h t :
  forall fuel st, repr h t -> lheight t <= fuel ->
    reach fuel f (root t) (h, st)
    = Ok (root t, (h, fold_left (fun st' t' => step t' st') (subtrees t) st)).
Proof.
  induction t as [a d ks IH] using ltree_ind. intros fuel st Hr Hfuel.
  destruct fuel as [|fuel]; [simpl in Hfuel; lia|].
  pose proof (f_notes h _ st Hr) as Hf. cbn [root] in Hf.
  cbn [reach root]. rewrite Hf. cbn [obind].
  fold (reach_child f fuel). unfold each. cbn [fst].
  pose proof (repr_length _ _ Hr) as Hlen. cbn [root lkids] in Hlen. rewrite Hlen.
  pose proof (repr_children _ _ Hr) as Hc. cbn [lkids] in Hc.
  assert (Hloop :
            forall rest pre st1,
              ks = pre ++ rest ->
              each_loop (reach_child f fuel) a (List.length pre) (List.length rest) (h, st1)
              = Ok (h, fold_left (fun st' t' => step t' st')
                                 (fold_right (fun k acc => match k with
                                                           | Some t' => subtrees t' ++ acc
                                                           | None => acc
                                                           end) [] rest) st1)).
  { induction rest as [|k rest IHr]; intros pre st1 Hks; [reflexivity|].
    assert (Hkid : kid h a (List.length pre) = root_of k).
    { pose proof (repr_kid h (LNode a d ks) (List.length pre) Hr) as Hk0.
      cbn [root lkids] in Hk0. rewrite Hk0, Hks.
      rewrite List.app_nth2 by lia. rewrite Nat.sub_diag. reflexivity. }
    assert (Hin : In k ks) by (rewrite Hks; apply List.in_or_app; right; left; reflexivity).
    cbn [List.length each_loop fst]. rewrite Hkid.
    specialize (IHr (pre ++ [k])). rewrite List.length_app, Nat.add_1_r in IHr.
    destruct k as [t1|]; cbn [root_of option_map reach_child fold_right].
    - rewrite List.Forall_forall in IH, Hc.
      rewrite (IH (Some t1) Hin fuel st1 (Hc (Some t1) Hin))
        by (pose proof (lheight_unfold a d ks t1 Hin); lia).
      cbn [obind]. rewrite IHr by (rewrite Hks, <- List.app_assoc; reflexivity).
      rewrite List.fold_left_app. reflexivity.
    - cbn [obind]. apply IHr. rewrite Hks, <- List.app_assoc. reflexivity. }
  pose proof (Hloop ks [] (step (LNode a d ks) st) eq_refl) as HL.
  change (List.length (@nil (option ltree))) with 0 in HL.
  unfold reach_child in HL |- *. rewrite HL. reflexivity.
Qed.

End ReachFold.

(** X13. [reach] calls the function once on every node of the tree, the
    root first and then the children from left to right, each with what is
    below it; it returns the node it was called on and writes nothing. *)
Theorem reach_visits_in_order (h : heap) (t : ltree) (log : list loc) (fuel : nat) :
  repr h t -> lheight t <= fuel ->
  reach fuel note (root t) (h, log) = Ok (root t, (h, log ++ nodes t)).
Proof.
  intros Hr Hfuel.
  rewrite (reach_fold note (fun t' st => st ++ [root t'])) by auto.
  f_equal. f_equal. f_equal. unfold nodes.
  generalize (subtrees t) as ts. intros ts. revert log.
  induction ts as [|x ts IH]; intros log; simpl.
  - symmetry. apply List.app_nil_r.
  - rewrite IH, <- List.app_assoc. reflexivity.
Qed.

Lemma reach_visits_in_order_witness :
  reach 2 note (root sum_subject) (sum_store, []) = Ok (3, (sum_store, [3; 4; 5])).
Proof.
  apply (reach_visits_in_order sum_store sum_subject [] 2).
  - simpl. repeat split; lia.
  - simpl. lia.
Defined.

(** X14. With a predicate that only reads the tree, [collect] returns the
    nodes of the tree at which the predicate holds, in the order of [reach]
    (a node before the nodes below it, siblings from left to right), and
    writes nothing. *)
Theorem collect_filters_nodes {S : Type} (pr : loc -> @action S bool) (q : ltree -> bool)
        (h : heap) (t : ltree) (st : S) (fuel : nat) :
  (forall h' t' st', repr h' t' -> pr (root t') (h', st') = Ok (q t', (h', st'))) ->
  repr h t -> lheight t <= fuel ->
  collect fuel pr (root t) (h, st) = Ok (List.map root (List.filter q (subtrees t)), (h, st)).
Proof.
  intros Hpr Hr Hfuel. unfold collect. cbn [fst snd].
  rewrite (reach_fold (gather pr)
                      (fun t' (acc : list loc * S) =>
                         (if q t' then fst acc ++ [root t'] else fst acc, snd acc))).
  - cbn [obind].
    assert (Hfold : forall ts ns,
               fold_left (fun (st' : list loc * S) t' =>
                            (if q t' then fst st' ++ [root t'] else fst st', snd st'))
                         ts (ns, st)
               = (ns ++ List.map root (List.filter q ts), st)).
    { induction ts as [|x ts IH]; intros ns; simpl.
      - rewrite List.app_nil_r. reflexivity.
      - rewrite IH. destruct (q x); simpl; [rewrite <- List.app_assoc|]; reflexivity. }
    rewrite Hfold. reflexivity.
  - intros h1 t1 [ns st1] Hr1. unfold gather. rewrite (Hpr h1 t1 st1 Hr1). reflexivity.
  - exact Hr.
  - exact Hfuel.
Qed.

Lemma collect_filters_nodes_witness :
  collect 2 (fun n (w : @world unit) => Ok (String.eqb (data (get (fst w) n)) "x", w))
          (root sum_subject) (sum_store, tt)
  = Ok ([4], (sum_store, tt)).
Proof.
  apply (collect_filters_nodes
           (fun n (w : @world unit) => Ok (String.eqb (data (get (fst w) n)) "x", w))
           (fun t => String.eqb (ldata t) "x") sum_store sum_subject tt 2).
  - intros h' t' st' Hr. cbn [fst]. rewrite (repr_data _ _ Hr). destruct st'. reflexivity.
  - simpl. repeat split; lia.
  - simpl. lia.
Defined.

Lemma parents_loop_chain h c :
  forall fuel v ps, chain h v c -> List.length c < fuel ->
                    parents_loop fuel h v ps
                    = Ok (ps ++ List.map Some (List.tl c) ++
                             match c with [] => [] | _ :: _ => [None] end).
Proof.
  induction c as [|a c IH]; intros fuel v ps Hc Hf.
  - inversion Hc; subst. destruct fuel; [lia|]. simpl. rewrite List.app_nil_r. reflexivity.
  - inversion Hc as [|a' rest Hrest]; subst. destruct fuel as [|fuel]; [simpl in Hf; lia|].
    cbn [parents_loop]. rewrite (IH fuel _ _ Hrest) by (simpl in Hf; lia).
    f_equal. rewrite <- List.app_assoc. f_equal. cbn [List.tl].
    destruct c as [|b c].
    + inversion Hrest; subst. reflexivity.
    + inversion Hrest; subst. reflexivity.
Qed.

(** X15. [parents] leaves the parent itself out: for a node whose chain of
    parents is [a1; a2; ...; ak], it returns [a2; ...; ak] followed by a
    null; for a node without parent it returns the empty array. *)
Theorem parents_skips_the_parent (h : heap) (this : loc) (c : list loc) (fuel : nat) :
  chain h (p (get h this)) c -> List.length c < fuel ->
  parents fuel h this
  = Ok (match c with
        | [] => []
        | _ :: rest => List.map Some rest ++ [None]
        end).
Proof.
  intros Hc Hf. unfold parents. rewrite (parents_loop_chain h c fuel _ [] Hc Hf).
  destruct c; reflexivity.
Qed.

Lemma parents_skips_the_parent_witness :
  parents 3 [SyntaxNode "a" [Some 1] None None None;
             SyntaxNode "b" [Some 2] None None (Some 0);
             SyntaxNode "c" [] None None (Some 1)] 2
  = Ok [Some 0; None].
Proof.
  apply (parents_skips_the_parent _ 2 [1; 0] 3).
  - repeat constructor.
  - simpl. lia.
Defined.

(** ** The linked structure: [wrap] and [fold_r] *)

Lemma l_set_l_eq h q v : q < List.length h -> l (get (set_l h q v) q) = v.
Proof. intros. fields. Qed.

Module LinkFacts.

Import Node NodeFacts.

Lemma l_reparent h this x m : l (get (reparent h this x) m) = l (get h m).
Proof.
  unfold reparent. destruct (p (get h this)) as [par|]; [|reflexivity].
  destruct (kids (get h par)) as [|[first|] rest]; try reflexivity.
  destruct (first =? this); [apply l_set_kids | reflexivity].
Qed.

Lemma l_append h this x m : l (get (append h this x) m) = l (get h m).
Proof.
  unfold append, push. destruct x; [rewrite l_set_p|]; apply l_set_kids.
Qed.

(** What [replace] leaves in the links of the new node and of the
    neighbours. *)
Lemma l_replace h this x :
  x < List.length h -> this <> x -> r (get h this) <> Some x ->
  l (get h this) <> Some this ->
  l (get (replace h this x) x) = l (get h this).
Proof.
  intros Hx Hne Hr Hl1. unfold replace.
  destruct (l (get h this)) as [a|] eqn:El; destruct (r (get h this)) as [b|] eqn:Er.
  all: unfold set_l, set_r;
    repeat (rewrite ?get_set, ?length_set, ?El, ?Er;
            repeat case_bool_decide;
            repeat match goal with H : _ /\ _ |- _ => destruct H end;
            subst; cbn [l r p kids data with_l with_r];
            rewrite ?El, ?Er);
    try reflexivity; try congruence; try lia; try tauto.
Qed.

Lemma r_replace_left h this x a :
  x < List.length h -> a < List.length h -> this <> x ->
  l (get h this) = Some a -> a <> this -> a <> x ->
  r (get (replace h this x) a) = Some x.
Proof.
  intros Hx Ha Hne El Hat Hax. unfold replace.
  destruct (r (get h this)) as [b|] eqn:Er.
  all: unfold set_l, set_r;
    repeat (rewrite ?get_set, ?length_set, ?El, ?Er;
            repeat case_bool_decide;
            repeat match goal with H : _ /\ _ |- _ => destruct H end;
            subst; cbn [l r p kids data with_l with_r];
            rewrite ?El, ?Er);
    try reflexivity; try congruence; try lia; try tauto.
Qed.

Lemma l_replace_right h this x b :
  x < List.length h -> b < List.length h -> this <> x ->
  r (get h this) = Some b -> b <> this -> b <> x ->
  l (get h this) <> Some this -> l (get h this) <> Some x ->
  l (get (replace h this x) b) = Some x.
Proof.
  intros Hx Hb Hne Er Hbt Hbx Hl1 Hl2. unfold replace.
  destruct (l (get h this)) as [a|] eqn:El.
  all: unfold set_l, set_r;
    repeat (rewrite ?get_set, ?length_set, ?El, ?Er;
            repeat case_bool_decide;
            repeat match goal with H : _ /\ _ |- _ => destruct H end;
            subst; cbn [l r p kids data with_l with_r];
            rewrite ?El, ?Er);
    try reflexivity; try congruence; try lia; try tauto.
Qed.

End LinkFacts.

(** X16. [this.wrap(x)] puts [x] where [this] stood and [this] below [x]:
    [x] takes over the left and right links and the parent of [this], the
    neighbours point back to [x], and [this] is left with no siblings, with
    [x] as its parent, as the last child of [x]. *)
Theorem wrap_takes_the_place (h : heap) (this x : loc) :
  this < List.length h -> x < List.length h -> this <> x ->
  l (get h this) <> Some this -> l (get h this) <> Some x ->
  r (get h this) <> Some this -> r (get h this) <> Some x ->
  p (get h this) <> Some x ->
  let h' := Node.wrap h this x in
  l (get h' x) = l (get h this) /\ r (get h' x) = r (get h this) /\
  p (get h' x) = p (get h this) /\
  kids (get h' x) = kids (get h x) ++ [Some this] /\
  l (get h' this) = None /\ r (get h' this) = None /\ p (get h' this) = Some x /\
  (forall a, l (get h this) = Some a -> a < List.length h -> r (get h' a) = Some x) /\
  (forall b, r (get h this) = Some b -> b < List.length h -> l (get h' b) = Some x).
Proof.
  intros Ht Hx Hne Hl1 Hl2 Hr1 Hr2 Hp. cbv zeta.
  assert (Hlen3 : List.length (Node.reparent (set_p (Node.replace h this x) x
                                                     (p (get (Node.replace h this x) this)))
                                             this (Some x)) = List.length h).
  { rewrite NodeFacts.length_reparent, length_set_p, NodeFacts.length_replace. reflexivity. }
  split; [|split; [|split; [|split; [|split; [|split; [|split; [|split]]]]]]].
  - unfold Node.wrap, Node.append_to. rewrite LinkFacts.l_append.
    rewrite l_set_l_ne by congruence. rewrite l_set_r, LinkFacts.l_reparent, l_set_p.
    apply LinkFacts.l_replace; assumption.
  - apply WrapFacts.r_wrap; assumption.
  - unfold Node.wrap, Node.append_to. rewrite NodeFacts.p_append_other by congruence.
    rewrite p_set_l, p_set_r, NodeFacts.p_reparent.
    rewrite p_set_p_eq by (rewrite NodeFacts.length_replace; exact Hx).
    apply NodeFacts.p_replace.
  - apply WrapFacts.kids_wrap; assumption.
  - unfold Node.wrap, Node.append_to. rewrite LinkFacts.l_append.
    apply l_set_l_eq. rewrite length_set_r, Hlen3. exact Ht.
  - unfold Node.wrap, Node.append_to. rewrite NodeFacts.r_append, r_set_l.
    apply r_set_r_eq. rewrite Hlen3. exact Ht.
  - apply WrapFacts.p_wrap_this. exact Ht.
  - intros a El Ha.
    assert (a <> this) by (intros ->; apply Hl1; exact El).
    assert (a <> x) by (intros ->; apply Hl2; exact El).
    unfold Node.wrap, Node.append_to. rewrite NodeFacts.r_append, r_set_l.
    rewrite r_set_r_ne by congruence. rewrite NodeFacts.r_reparent, r_set_p.
    apply LinkFacts.r_replace_left; assumption.
  - intros b Er Hb.
    assert (b <> this) by (intros ->; apply Hr1; exact Er).
    assert (b <> x) by (intros ->; apply Hr2; exact Er).
    unfold Node.wrap, Node.append_to. rewrite LinkFacts.l_append.
    rewrite l_set_l_ne by congruence. rewrite l_set_r, LinkFacts.l_reparent, l_set_p.
    apply LinkFacts.l_replace_right; assumption.
Qed.

Lemma wrap_takes_the_place_witness :
  let h := [SyntaxNode "a" [] None (Some 1) None; SyntaxNode "b" [] (Some 0) (Some 2) None;
            SyntaxNode "c" [] (Some 1) None None; blank "i;"] in
  let h' := Node.wrap h 1 3 in
  l (get h' 3) = Some 0 /\ r (get h' 3) = Some 2 /\ p (get h' 3) = None /\
  kids (get h' 3) = [Some 1] /\
  l (get h' 1) = None /\ r (get h' 1) = None /\ p (get h' 1) = Some 3 /\
  (forall a, Some 0 = Some a -> a < 4 -> r (get h' a) = Some 3) /\
  (forall b, Some 2 = Some b -> b < 4 -> l (get h' b) = Some 3).
Proof.
  cbv zeta.
  apply (wrap_takes_the_place
           [SyntaxNode "a" [] None (Some 1) None; SyntaxNode "b" [] (Some 0) (Some 2) None;
            SyntaxNode "c" [] (Some 1) None None; blank "i;"] 1 3);
    simpl; try lia; discriminate.
Defined.

Module UnlinkFacts.

Import Node NodeFacts.

(** [unlink] takes the node out of the row: its neighbours are linked to
    each other and its own links are cleared. *)
Lemma unlink_links h this x tl :
  this < List.length h -> tl < List.length h -> this <> tl ->
  l (get h this) = Some tl ->
  r (get h this) <> Some this -> r (get h this) <> Some tl ->
  let h' := unlink h this x in
  l (get h' this) = None /\ r (get h' this) = None /\
  r (get h' tl) = r (get h this) /\
  (forall c, r (get h this) = Some c -> c < List.length h -> l (get h' c) = Some tl).
Proof.
  intros Ht Htl Hne El Hr1 Hr2. cbv zeta. unfold unlink.
  rewrite El. rewrite (r_set_r_ne h tl _ this) by congruence. rewrite l_set_r, El.
  destruct (r (get h this)) as [c|] eqn:Er.
  - assert (Hct : c <> this) by (intros ->; apply Hr1; reflexivity).
    assert (Hcl : c <> tl) by (intros ->; apply Hr2; reflexivity).
    split; [|split; [|split]].
    + rewrite LinkFacts.l_reparent. apply l_set_l_eq.
      rewrite length_set_r, length_set_l, length_set_r. exact Ht.
    + rewrite r_reparent, r_set_l. apply r_set_r_eq.
      rewrite length_set_l, length_set_r. exact Ht.
    + rewrite r_reparent, r_set_l. rewrite r_set_r_ne by congruence.
      rewrite r_set_l. apply r_set_r_eq. exact Htl.
    + intros c' [= <-] Hc. rewrite LinkFacts.l_reparent.
      rewrite l_set_l_ne by congruence. rewrite l_set_r.
      apply l_set_l_eq. rewrite length_set_r. exact Hc.
  - split; [|split; [|split]].
    + rewrite LinkFacts.l_reparent. apply l_set_l_eq.
      rewrite length_set_r, length_set_r. exact Ht.
    + rewrite r_reparent, r_set_l. apply r_set_r_eq. rewrite length_set_r. exact Ht.
    + rewrite r_reparent, r_set_l. rewrite r_set_r_ne by congruence.
      apply r_set_r_eq. exact Htl.
    + intros c' Hc. discriminate.
Qed.

End UnlinkFacts.

(** X17. [this.fold_r()] takes the right sibling as the last child: the
    sibling gets [this] as its parent and loses its links, and [this] is
    linked to what stood right of the sibling.  With no right sibling, a null
    is appended to the children. *)
Theorem fold_r_takes_the_sibling (h : heap) (this : loc) :
  (r (get h this) = None -> Node.fold_r h this = Node.push h this None) /\
  (forall tr,
      r (get h this) = Some tr -> l (get h tr) = Some this ->
      this < List.length h -> tr < List.length h -> this <> tr ->
      r (get h tr) <> Some tr -> r (get h tr) <> Some this -> p (get h tr) <> Some this ->
      let h' := Node.fold_r h this in
      kids (get h' this) = kids (get h this) ++ [Some tr] /\
      p (get h' tr) = Some this /\ l (get h' tr) = None /\ r (get h' tr) = None /\
      r (get h' this) = r (get h tr) /\
      (forall c, r (get h tr) = Some c -> c < List.length h -> l (get h' c) = Some this)).
Proof.
  split.
  - intros Hr. unfold Node.fold_r. rewrite Hr. reflexivity.
  - intros tr Hr Hl Ht Htr Hne Hr1 Hr2 Hp. cbv zeta.
    destruct (UnlinkFacts.unlink_links h tr (Some this) this Htr Ht (not_eq_sym Hne) Hl Hr1 Hr2)
      as (U1 & U2 & U3 & U4).
    unfold Node.fold_r. rewrite Hr.
    split; [|split; [|split; [|split; [|split]]]].
    + rewrite NodeFacts.kids_append by (rewrite NodeFacts.length_unlink; exact Ht).
      rewrite NodeFacts.kids_unlink by exact Hp. reflexivity.
    + apply NodeFacts.p_append_child. rewrite NodeFacts.length_unlink. exact Htr.
    + rewrite LinkFacts.l_append. exact U1.
    + rewrite NodeFacts.r_append. exact U2.
    + rewrite NodeFacts.r_append. exact U3.
    + intros c Hc Hlen. rewrite LinkFacts.l_append. apply U4; assumption.
Qed.

Lemma fold_r_takes_the_sibling_witness :
  let h := [SyntaxNode "a" [] None (Some 1) None; SyntaxNode "b" [] (Some 0) (Some 2) None;
            SyntaxNode "c" [] (Some 1) None None] in
  let h' := Node.fold_r h 0 in
  kids (get h' 0) = [Some 1] /\
  p (get h' 1) = Some 0 /\ l (get h' 1) = None /\ r (get h' 1) = None /\
  r (get h' 0) = Some 2 /\
  (forall c, Some 2 = Some c -> c < 3 -> l (get h' c) = Some 0).
Proof.
  cbv zeta.
  apply (proj2 (fold_r_takes_the_sibling
                  [SyntaxNode "a" [] None (Some 1) None;
                   SyntaxNode "b" [] (Some 0) (Some 2) None;
                   SyntaxNode "c" [] (Some 1) None None] 0) 1);
    simpl; try lia; try reflexivity; discriminate.
Defined.

(** ** [flatten]: the children of the new node *)

Lemma pushes_kids n d :
  forall vs h K,
    n < List.length h -> get h n = SyntaxNode d K None None None ->
    get (fold_left (fun h' v => Node.push h' n v) vs h) n
    = SyntaxNode d (K ++ vs) None None None.
Proof.
  induction vs as [|v vs IH]; intros h K Hn Hg; simpl.
  - rewrite List.app_nil_r. exact Hg.
  - rewrite (IH _ (K ++ [v])).
    + rewrite <- List.app_assoc. reflexivity.
    + rewrite length_push. exact Hn.
    + unfold Node.push, set_kids. rewrite get_set_eq by exact Hn. rewrite Hg. reflexivity.
Qed.

Lemma flatten_left_operands h d :
  forall fuel t ns, repr h t -> left_spine d t -> lheight t <= fuel ->
                    flatten_left fuel d (Some (root t)) ns h
                    = Ok (ns ++ rev (operands_left d t)).
Proof.
  induction fuel as [|fuel IH]; intros t ns Hr Hs Hlt.
  - destruct t. simpl in Hlt. lia.
  - cbn [flatten_left deref obind]. rewrite (repr_data _ _ Hr).
    destruct t as [a d' ks]. cbn [ldata operands_left root].
    destruct (String.eqb d' d) eqn:Hd; [|reflexivity].
    apply String.eqb_eq in Hd. subst d'.
    simpl in Hs. destruct Hs as [Hne|Hs]; [congruence|].
    destruct ks as [|[k|] ks]; try contradiction.
    pose proof (repr_kid h _ 0 Hr) as Hk0. pose proof (repr_kid h _ 1 Hr) as Hk1.
    cbn [root lkids nth root_of option_map] in Hk0, Hk1. rewrite Hk0, Hk1.
    rewrite (IH k).
    + rewrite List.rev_app_distr.
      destruct ks as [|[k1|] ks]; cbn [nth root_of option_map rev List.app];
        rewrite ?List.app_nil_r, <- ?List.app_assoc; reflexivity.
    + eapply repr_first_child. exact Hr.
    + exact Hs.
    + pose proof (lheight_unfold a d (Some k :: ks) k (or_introl eq_refl)). lia.
Qed.

Lemma flatten_right_operands h0 d n :
  List.length h0 <= n ->
  forall fuel t h K,
    extends h0 h -> n < List.length h -> get h n = SyntaxNode d K None None None ->
    repr h0 t -> lheight t < fuel ->
    exists h', flatten_right fuel d n (Some (root t)) h = Ok h' /\
               get h' n = SyntaxNode d (K ++ operands_right d t) None None None.
Proof.
  intros Hn. induction fuel as [|fuel IH]; intros t h K He Hlen Hg Hr Hlt; [lia|].
  cbn [flatten_right]. pose proof (repr_allocated _ _ Hr) as Ha.
  assert (Hd : data (get h (root t)) = ldata t).
  { rewrite (extends_get h0 h) by assumption. apply repr_data. exact Hr. }
  rewrite Hd. destruct t as [a d' ks]. cbn [ldata operands_right root] in *.
  assert (Hpush : forall v, get (Node.push h n v) n = SyntaxNode d (K ++ [v]) None None None).
  { intros v. unfold Node.push, set_kids. rewrite get_set_eq by exact Hlen.
    rewrite Hg. reflexivity. }
  destruct (String.eqb d' d) eqn:Hdd.
  - assert (Hk0 : kid h a 0 = root_of (nth 0 ks None)).
    { unfold kid. rewrite (extends_get h0 h) by assumption.
      apply (repr_kid h0 (LNode a d' ks) 0 Hr). }
    assert (Hk1 : kid (Node.push h n (kid h a 0)) a 1 = root_of (nth 1 ks None)).
    { unfold kid at 1. rewrite get_push_ne by lia.
      rewrite (extends_get h0 h) by assumption. apply (repr_kid h0 (LNode a d' ks) 1 Hr). }
    rewrite Hk1, Hk0.
    destruct ks as [|k0 ks].
    + cbn [nth root_of option_map]. destruct fuel as [|fuel]; [simpl in Hlt; lia|].
      cbn [flatten_right]. eexists. split; [reflexivity|].
      unfold Node.push at 1. unfold set_kids. rewrite get_set_eq by (rewrite length_push; exact Hlen).
      rewrite Hpush. cbn [kids]. rewrite <- List.app_assoc. reflexivity.
    + cbn [nth]. destruct ks as [|[k1|] ks]; cbn [nth root_of option_map].
      * destruct fuel as [|fuel]; [simpl in Hlt; lia|].
        cbn [flatten_right]. eexists. split; [reflexivity|].
        unfold Node.push at 1. unfold set_kids.
        rewrite get_set_eq by (rewrite length_push; exact Hlen).
        rewrite Hpush. cbn [kids]. rewrite <- List.app_assoc. reflexivity.
      * destruct (IH k1 (Node.push h n (root_of k0)) (K ++ [root_of k0]))
          as (h' & Hrun & Hg').
        -- apply extends_push; assumption.
        -- rewrite length_push. exact Hlen.
        -- apply Hpush.
        -- apply (repr_nth_child h0 (LNode a d' (k0 :: Some k1 :: ks)) 1 k1 Hr eq_refl).
        -- pose proof (lheight_unfold a d' (k0 :: Some k1 :: ks) k1
                         (or_intror (or_introl eq_refl))). lia.
        -- exists h'. split; [exact Hrun|]. rewrite Hg', <- List.app_assoc. reflexivity.
      * destruct fuel as [|fuel]; [simpl in Hlt; lia|].
        cbn [flatten_right]. eexists. split; [reflexivity|].
        unfold Node.push at 1. unfold set_kids.
        rewrite get_set_eq by (rewrite length_push; exact Hlen).
        rewrite Hpush. cbn [kids]. rewrite <- List.app_assoc. reflexivity.
  - eexists. split; [reflexivity|]. apply Hpush.
Qed.

(** X18. The node that [flatten] creates has the operands of the chain as
    its children, from left to right: for a left-associative operator the
    operands of the left operand followed by the right operand, for a
    right-associative one the left operand followed by the operands of the
    right operand.  Only the children 0 and 1 of the nodes of the chain are
    read. *)
Theorem flatten_gathers_operands (h : heap) (t : ltree) (fuel : nat) :
  repr h t -> lheight t < fuel -> flattens h (root t) = true ->
  has parse_associates_right (ldata t) = true \/ left_spine (ldata t) t ->
  exists h',
    flatten fuel (root t) h = Ok (List.length h, h') /\ extends h h' /\
    get h' (List.length h)
    = SyntaxNode (ldata t)
                 (if has parse_associates_right (ldata t)
                  then operands_right (ldata t) t
                  else operands_left (ldata t) t)
                 None None None.
Proof.
  intros Hr Hfuel Hc Hcase. unfold flatten. unfold flattens in Hc. rewrite Hc. cbn [negb].
  rewrite (repr_data _ _ Hr). cbn [alloc].
  destruct (has parse_associates_right (ldata t)) eqn:Hright.
  - destruct (flatten_right_operands h (ldata t) (List.length h) (Nat.le_refl _)
                fuel t (h ++ [blank (ldata t)]) []) as (h2 & Hrun & Hg).
    + eexists. reflexivity.
    + rewrite List.length_app. simpl. lia.
    + apply get_alloc.
    + exact Hr.
    + exact Hfuel.
    + rewrite Hrun. cbn [obind]. exists h2. split; [reflexivity|]. split; [|exact Hg].
      eapply flatten_right_extends; [| |exact Hrun]; [lia|]. eexists. reflexivity.
  - destruct Hcase as [Hcase|Hspine]; [discriminate|].
    rewrite (flatten_left_operands (h ++ [blank (ldata t)]) (ldata t) fuel t []).
    + cbn [obind List.app]. rewrite List.rev_involutive. eexists. split; [reflexivity|].
      split.
      * apply pushes_extend; [lia|]. eexists. reflexivity.
      * rewrite (pushes_kids (List.length h) (ldata t) _ _ []).
        -- reflexivity.
        -- rewrite List.length_app. simpl. lia.
        -- apply get_alloc.
    + eapply repr_extends; [|exact Hr]. eexists. reflexivity.
    + exact Hspine.
    + lia.
Qed.

Lemma flatten_gathers_operands_witness :
  exists h',
    flatten 4 (root comma_tree) comma_store = Ok (List.length comma_store, h') /\
    extends comma_store h' /\
    get h' (List.length comma_store)
    = SyntaxNode "," [Some 2; Some 3; Some 4] None None None.
Proof.
  apply (flatten_gathers_operands comma_store comma_tree 4).
  - simpl. repeat split; lia.
  - simpl. lia.
  - reflexivity.
  - right. simpl. right. right. left. discriminate.
Defined.

(** ** Type detection *)

Lemma first_code text :
  JsString.charCodeAt text 0 = match text with
                               | EmptyString => None
                               | String a _ => Some (nat_of_ascii a)
                               end.
Proof. destruct text; reflexivity. Qed.

(** X19. No node is taken for a literal of two kinds: of [is_string],
    [is_number], [is_boolean] and [is_regexp] at most one holds. *)
Theorem literal_kinds_exclude (h : heap) (n : loc) :
  (Detect.is_string h n = true ->
   Detect.is_number h n = false /\ Detect.is_boolean h n = false /\
   Detect.is_regexp h n = false) /\
  (Detect.is_number h n = true ->
   Detect.is_boolean h n = false /\ Detect.is_regexp h n = false) /\
  (Detect.is_boolean h n = true -> Detect.is_regexp h n = false).
Proof.
  unfold Detect.is_string, Detect.is_number, Detect.is_boolean, Detect.is_regexp.
  generalize (data (get h n)) as d. intros d.
  split; [|split].
  - intros Hs. destruct (JsString.charCodeAt d 0) as [c|] eqn:Hc; [|discriminate].
    unfold Detect.is_quote_code in *. split; [|split].
    + rewrite Hs, orb_true_r. cbn [negb]. apply andb_false_r.
    + apply orb_true_iff in Hs.
      destruct (String.eqb_spec d "true") as [->|]; [vm_compute in Hc; injection Hc as <-;
                                                    destruct Hs; discriminate|].
      destruct (String.eqb_spec d "false") as [->|]; [vm_compute in Hc; injection Hc as <-;
                                                     destruct Hs; discriminate|].
      reflexivity.
    + destruct (JsString.charCodeAt d 1); [|reflexivity].
      apply orb_true_iff in Hs.
      destruct (c =? 47) eqn:H47; [|reflexivity].
      apply Nat.eqb_eq in H47. subst c. destruct Hs; discriminate.
  - intros Hn. apply andb_true_iff in Hn. destruct Hn as [_ Hn]. apply negb_true_iff in Hn.
    split.
    + destruct (String.eqb_spec d "true") as [->|]; [vm_compute in Hn; discriminate|].
      destruct (String.eqb_spec d "false") as [->|]; [vm_compute in Hn; discriminate|].
      reflexivity.
    + destruct (JsString.charCodeAt d 0) as [c|]; [|reflexivity].
      destruct (JsString.charCodeAt d 1); [|reflexivity].
      apply orb_false_iff in Hn. destruct Hn as [Hn _].
      apply orb_false_iff in Hn. destruct Hn as [Hn _]. rewrite Hn. reflexivity.
  - intros Hb. apply orb_true_iff in Hb.
    destruct Hb as [Hb|Hb]; apply String.eqb_eq in Hb; subst d; reflexivity.
Qed.

Lemma literal_kinds_exclude_witness :
  Detect.is_string [blank "'a1'"] 0 = true /\
  Detect.is_number [blank "'a1'"] 0 = false /\ Detect.is_boolean [blank "'a1'"] 0 = false /\
  Detect.is_regexp [blank "'a1'"] 0 = false.
Proof.
  split; [reflexivity|].
  exact (proj1 (literal_kinds_exclude [blank "'a1'"] 0) eq_refl).
Defined.

(** X20. [is_number] rejects every text that begins with a digit (the
    class [\w] of its second test contains the digits): of the numbers the
    lexer reads, only those that begin with a dot pass. *)
Theorem is_number_rejects_leading_digit (h : heap) (n : loc) (c : nat) :
  JsString.charCodeAt (data (get h n)) 0 = Some c -> Detect.is_digit_code c = true ->
  Detect.is_number h n = false.
Proof.
  intros Hc Hd. unfold Detect.is_number. rewrite Hc.
  unfold Detect.is_digit_code in Hd. unfold JsString.is_word_code. rewrite Hd.
  cbn [orb negb]. rewrite orb_true_r. cbn [negb]. apply andb_false_r.
Qed.

Lemma is_number_rejects_leading_digit_witness :
  Detect.is_number [blank "42"] 0 = false /\ Detect.is_number [blank ".5"] 0 = true.
Proof.
  split; [|reflexivity].
  apply (is_number_rejects_leading_digit [blank "42"] 0 52); reflexivity.
Defined.

Lemma substring_middle (pre mid post : string) :
  String.substring (String.length pre) (String.length mid) (pre ++ mid ++ post)%string = mid.
Proof.
  induction pre as [|a pre IH]; simpl.
  - induction mid as [|b mid IHm]; simpl.
    + destruct post; reflexivity.
    + rewrite IHm. reflexivity.
  - exact IH.
Qed.

Lemma string_length_append (a b : string) :
  String.length (a ++ b)%string = String.length a + String.length b.
Proof. induction a as [|x a IH]; simpl; [reflexivity | rewrite IH; reflexivity]. Qed.

(** X21. [as_escaped_string] gives what stands between the delimiters: for
    the data [q body q] with delimiters of one character it returns [body]. *)
Theorem as_escaped_string_strips_delimiters (h : heap) (n : loc) (q1 q2 : ascii)
        (body : string) :
  data (get h n) = String q1 (body ++ String q2 "") ->
  Detect.as_escaped_string h n = body.
Proof.
  intros Hd. unfold Detect.as_escaped_string. rewrite Hd.
  change (String q1 (body ++ String q2 ""))
    with (String q1 "" ++ body ++ String q2 "")%string.
  replace (String.length (String q1 "" ++ body ++ String q2 "")%string - 2)
    with (String.length body).
  - apply (substring_middle (String q1 "") body (String q2 "")).
  - rewrite !string_length_append. simpl. lia.
Qed.

Lemma as_escaped_string_strips_delimiters_witness :
  Detect.as_escaped_string [blank "'foo'"] 0 = "foo".
Proof.
  apply (as_escaped_string_strips_delimiters [blank "'foo'"] 0 "'"%char "'"%char "foo").
  reflexivity.
Defined.

Lemma last_slash_none text :
  forall i found,
    forallb (fun a => negb (nat_of_ascii a =? 47)) (list_ascii_of_string text) = true ->
    Detect.last_slash text i found = found.
Proof.
  induction text as [|a text IH]; intros i found H; [reflexivity|].
  simpl in H. apply andb_true_iff in H. destruct H as [Ha Hrest].
  apply negb_true_iff in Ha. cbn [Detect.last_slash]. rewrite Ha. apply IH. exact Hrest.
Qed.

Lemma last_slash_found pre flags :
  forall i found,
    forallb (fun a => negb (nat_of_ascii a =? 47)) (list_ascii_of_string flags) = true ->
    Detect.last_slash (pre ++ String "/" flags)%string i found
    = Some (i + String.length pre).
Proof.
  induction pre as [|a pre IH]; intros i found H.
  - cbn [String.append Detect.last_slash]. change (nat_of_ascii "/" =? 47) with true.
    cbv iota. rewrite (last_slash_none flags _ _ H). simpl. f_equal. lia.
  - cbn [String.append Detect.last_slash]. rewrite (IH _ _ H). simpl. f_equal. lia.
Qed.

(** X22. [as_escaped_regexp] gives what stands between the slashes: for the
    data [/body/flags], the flags holding no slash, it returns [body]. *)
Theorem as_escaped_regexp_strips_slashes (h : heap) (n : loc) (body flags : string) :
  data (get h n) = String "/" (body ++ String "/" flags) ->
  forallb (fun a => negb (nat_of_ascii a =? 47)) (list_ascii_of_string flags) = true ->
  Detect.as_escaped_regexp h n = body.
Proof.
  intros Hd Hflags. unfold Detect.as_escaped_regexp. rewrite Hd.
  change (String "/" (body ++ String "/" flags))
    with (String "/" body ++ String "/" flags)%string at 2.
  rewrite (last_slash_found (String "/" body) flags 0 None Hflags).
  unfold JsString.substring. cbn [String.length Nat.add].
  rewrite Nat.min_l, Nat.max_r by lia.
  replace (Datatypes.S (String.length body) - 1) with (String.length body) by lia.
  apply (substring_middle (String "/" "") body (String "/" flags)).
Qed.

Lemma as_escaped_regexp_strips_slashes_witness :
  Detect.as_escaped_regexp [blank "/a+b/gi"] 0 = "a+b".
Proof.
  apply (as_escaped_regexp_strips_slashes [blank "/a+b/gi"] 0 "a+b" "gi"); reflexivity.
Defined.

(** ** The hashed tables *)

Lemma fold_max_le {V : Type} (es : list (string * V)) :
  forall m, m <= fold_left (fun m e => Nat.max m (String.length (fst e))) es m.
Proof.
  induction es as [|e es IH]; intros m; simpl; [lia|].
  etransitivity; [|apply IH]. lia.
Qed.

Lemma key_length_bound {V : Type} (es : list (string * V)) (k : string) :
  key_present k es = true ->
  forall m, String.length k <= fold_left (fun m e => Nat.max m (String.length (fst e))) es m.
Proof.
  unfold key_present. induction es as [|e es IH]; intros Hk m; [discriminate|].
  simpl in Hk. apply orb_true_iff in Hk. destruct Hk as [Hk|Hk]; simpl.
  - apply String.eqb_eq in Hk. subst k.
    etransitivity; [|apply fold_max_le]. lia.
  - apply IH. exact Hk.
Qed.

(** X23. The length shortcut of [has] never hides a key: on a table made by
    [annotate_keys], [has] holds exactly of the non-empty keys of the table,
    and of the name [_max_length] itself once some key has eleven characters
    or more. *)
Theorem has_is_membership {V : Type} (es : list (string * V)) (k : string) :
  has (annotate_keys es) k = true <->
  k <> "" /\ (key_present k es = true \/
              (k = "_max_length" /\ 11 <= max_length (annotate_keys es))).
Proof.
  unfold has, own, annotate_keys. cbn [entries max_length]. split.
  - intros H. apply andb_true_iff in H. destruct H as [H Ho].
    apply andb_true_iff in H. destruct H as [Ht Hl].
    split; [intros ->; discriminate|].
    apply orb_true_iff in Ho. destruct Ho as [Ho|Ho]; [left; exact Ho|].
    right. apply String.eqb_eq in Ho. subst k. split; [reflexivity|].
    apply negb_true_iff in Hl. apply Nat.ltb_ge in Hl. exact Hl.
  - intros [Hne Hk].
    assert (Ht : JsString.truthy k = true) by (destruct k; [congruence | reflexivity]).
    rewrite Ht. cbn [andb]. destruct Hk as [Hk | [-> Hl]].
    + rewrite Hk. cbn [orb]. rewrite andb_true_r. apply negb_true_iff. apply Nat.ltb_ge.
      apply key_length_bound. exact Hk.
    + rewrite String.eqb_refl, orb_true_r, andb_true_r. apply negb_true_iff.
      apply Nat.ltb_ge. exact Hl.
Qed.

Lemma has_is_membership_witness :
  has parse_accepts "try" = true /\ has parse_accepts "" = false.
Proof.
  split.
  - apply (proj2 (has_is_membership (entries parse_accepts) "try")).
    split; [discriminate | left; reflexivity].
  - destruct (has parse_accepts "") eqn:H; [|reflexivity].
    destruct (proj1 (has_is_membership (entries parse_accepts) "") H) as [Hne _].
    congruence.
Defined.

(** ** Gensym *)

Module GensymFacts.

Import Gensym.
Local Open Scope N_scope.

Lemma digits_value fuel :
  forall n, n < 2 ^ N.of_nat fuel -> value_le (digits_le (Datatypes.S fuel) n) = n.
Proof.
  induction fuel as [|fuel IH]; intros n Hn.
  - change (2 ^ N.of_nat 0) with 1 in Hn. assert (n = 0) by lia. subst n. reflexivity.
  - cbn [digits_le]. pose proof (N.div_mod n 36 ltac:(lia)) as Hdm.
    destruct (n / 36 =? 0) eqn:Hq.
    + apply N.eqb_eq in Hq. cbn [value_le]. rewrite Hq in Hdm. lia.
    + change (value_le (n mod 36 :: digits_le (Datatypes.S fuel) (n / 36)) = n).
      cbn [value_le]. rewrite IH; [lia|].
      rewrite Nat2N.inj_succ, N.pow_succ_r' in Hn.
      apply N.Div0.div_lt_upper_bound. lia.
Qed.

Lemma digits_below fuel : forall n, Forall (fun d => d < 36) (digits_le fuel n).
Proof.
  induction fuel as [|fuel IH]; intros n; cbn [digits_le]; [constructor|].
  constructor; [apply N.mod_lt; lia|]. destruct (n / 36 =? 0); [constructor | apply IH].
Qed.

Lemma digit36_inj a b : a < 36 -> b < 36 -> digit36 a = digit36 b -> a = b.
Proof.
  intros Ha Hb H. unfold digit36 in H.
  assert (Hn : forall x y, x < 256 -> y < 256 -> ascii_of_N x = ascii_of_N y -> x = y).
  { intros x y Hx Hy Hxy. rewrite <- (N_ascii_embedding x Hx), <- (N_ascii_embedding y Hy).
    rewrite Hxy. reflexivity. }
  destruct (a <? 10) eqn:Ea; destruct (b <? 10) eqn:Eb;
    try apply N.ltb_lt in Ea; try apply N.ltb_ge in Ea;
    try apply N.ltb_lt in Eb; try apply N.ltb_ge in Eb;
    apply Hn in H; lia.
Qed.

Lemma map_digit36_inj xs :
  forall ys, Forall (fun d => d < 36) xs -> Forall (fun d => d < 36) ys ->
             List.map digit36 xs = List.map digit36 ys -> xs = ys.
Proof.
  induction xs as [|x xs IH]; intros [|y ys] Hx Hy H; try discriminate; [reflexivity|].
  inversion Hx as [|? ? Hx1 Hx2]; subst. inversion Hy as [|? ? Hy1 Hy2]; subst.
  injection H as E1 E2.
  f_equal; [apply digit36_inj; assumption | apply IH; assumption].
Qed.

Lemma string_of_list_inj xs ys :
  string_of_list_ascii xs = string_of_list_ascii ys -> xs = ys.
Proof.
  intros H. rewrite <- (list_ascii_of_string_of_list_ascii xs),
              <- (list_ascii_of_string_of_list_ascii ys), H. reflexivity.
Qed.

Lemma toString36_inj a b : toString36 a = toString36 b -> a = b.
Proof.
  unfold toString36. intros H. apply string_of_list_inj in H.
  apply map_digit36_inj in H.
  - apply (f_equal (@rev N)) in H. rewrite !List.rev_involutive in H.
    assert (Hs : forall x, x < 2 ^ N.of_nat (N.to_nat (N.size x)))
      by (intros x; rewrite N2Nat.id; apply N.size_gt).
    rewrite <- (digits_value _ a (Hs a)), <- (digits_value _ b (Hs b)), H. reflexivity.
  - apply List.Forall_rev. apply digits_below.
  - apply List.Forall_rev. apply digits_below.
Qed.

Lemma append_inj_l (a b c : string) : (a ++ b = a ++ c)%string -> b = c.
Proof. induction a as [|x a IH]; simpl; [auto|]. intros [= H]. auto. Qed.

Lemma append_inj_r (a b : string) (x : ascii) :
  (a ++ String x "" = b ++ String x "")%string -> a = b.
Proof.
  revert b. induction a as [|y a IH]; intros [|z b] H; simpl in H.
  - reflexivity.
  - injection H as H1 H2. destruct b; discriminate.
  - injection H as H1 H2. destruct a; discriminate.
  - injection H as H1 H2. subst. f_equal. apply IH. exact H2.
Qed.

End GensymFacts.

(** X24. Names from one generator do not collide: with the same time stamp,
    calls made at different values of the counter give different names. *)
Theorem gensym_names_differ (n m1 m2 : N) :
  (m1 < 2 ^ 53 - 1)%N -> (m2 < 2 ^ 53 - 1)%N -> m1 <> m2 ->
  fst (Gensym.gensym n m1) <> fst (Gensym.gensym n m2).
Proof.
  intros _ _ Hne H. unfold Gensym.gensym in H. cbn [fst] in H.
  apply GensymFacts.append_inj_l in H. apply GensymFacts.append_inj_l in H.
  apply (GensymFacts.append_inj_l "_") in H.
  apply GensymFacts.append_inj_r in H. apply GensymFacts.toString36_inj in H.
  apply Hne. lia.
Qed.

Lemma gensym_names_differ_witness :
  fst (Gensym.gensym 1288000000000 41) <> fst (Gensym.gensym 1288000000000 42).
Proof.
  apply gensym_names_differ; [reflexivity | reflexivity | discriminate].
Defined.

Example gensym_sample :
  Gensym.gensym 1288000000000 41 = ("_gensym_gfp5y0hs_16_", 42%N).
Proof. vm_compute. reflexivity. Qed.

(** ** Names through the parser and the serializer *)

Lemma name_not_in_table {V : Type} (T : table V) (w : string) :
  forallb (fun k => negb (is_identifier k) || has parse_inverse_order k)
          (List.map fst (entries T)) = true ->
  max_length T < 11 ->
  is_identifier w = true -> has parse_inverse_order w = false -> has T w = false.
Proof.
  intros Hcov Hmax Hw Hop. destruct (has T w) eqn:H; [|reflexivity]. exfalso.
  apply has_key_present in H. destruct H as [Hl [Hk | ->]]; [|simpl in Hl; lia].
  apply key_present_In in Hk. rewrite List.forallb_forall in Hcov.
  specialize (Hcov w Hk). rewrite Hw, Hop in Hcov. discriminate.
Qed.

Lemma name_in_no_table (w : string) :
  is_identifier w = true -> has parse_inverse_order w = false ->
  has parse_invisible w = false /\ has parse_invocation w = false /\
  has parse_ternary w = false /\ has parse_group w = false /\ has parse_lr w = false /\
  has parse_r w = false /\ has parse_r_optional w = false /\
  has parse_r_until_block w = false /\ has parse_l w = false.
Proof.
  intros Hw Hop.
  repeat match goal with
         | |- _ /\ _ => split
         | |- has ?T w = false =>
             apply (name_not_in_table T w);
             [vm_compute; reflexivity | vm_compute; lia | exact Hw | exact Hop]
         end.
Qed.

(** X25. A name survives the round trip: parsing a name that is no operator
    word and serializing the result gives the name back. *)
Theorem identifier_round_trip (w : string) (fuel : nat) :
  is_identifier w = true -> has parse_inverse_order w = false ->
  String.length w + 3 <= fuel ->
  (let* (n, h) := Parse.parse fuel w in serialize fuel h n) = Ok w.
Proof.
  intros Hw Hop Hfuel.
  destruct (lex_of_identifier w fuel Hw Hop Hfuel) as [k Hlex].
  unfold Parse.parse. rewrite Hlex. cbn [obind].
  unfold Parse.fold_operators. cbn [Parse.indexes].
  rewrite (fold_groups_empty _ _ no_operator_to_fold). cbn [obind].
  destruct fuel as [|fuel]; [lia|].
  cbn [Parse.invocation_nodes Parse.all_nodes Parse.store Parse.head rev List.app
       Parse.infer_semicolons Parse.flatten_invocations Parse.ascend deref obind].
  change (r (get [blank w] 0)) with (@None loc). cbv iota. cbn [obind].
  change (p (get [blank w] 0)) with (@None loc). cbv iota. cbn [obind].
  destruct (name_in_no_table w Hw Hop) as (H1 & H2 & H3 & H4 & H5 & H6 & H7 & H8 & H9).
  cbn [serialize]. change (data (get [blank w] 0)) with w.
  change (r (get [blank w] 0)) with (@None loc). cbv iota. cbn [obind].
  rewrite H1, H2, H3, H4, H5, H6, H7, H8, H9. cbn [orb obind JsString.truthy]. reflexivity.
Qed.

Lemma identifier_round_trip_witness :
  (let* (n, h) := Parse.parse 6 "foo" in serialize 6 h n) = Ok "foo".
Proof.
  exact (identifier_round_trip "foo" 6 eq_refl eq_refl (le_n 6)).
Defined.

Module GensymNames.

Import Gensym GensymFacts.

Lemma list_ascii_app (a b : string) :
  list_ascii_of_string (a ++ b)%string = list_ascii_of_string a ++ list_ascii_of_string b.
Proof. induction a as [|x a IH]; simpl; [reflexivity | rewrite IH; reflexivity]. Qed.

Lemma length_string_of_list xs :
  String.length (string_of_list_ascii xs) = List.length xs.
Proof. induction xs as [|x xs IH]; simpl; [reflexivity | rewrite IH; reflexivity]. Qed.

Lemma digit36_ident d :
  (d < 36)%N -> lex_ident (Some (nat_of_ascii (digit36 d))) = true.
Proof.
  intros Hd.
  assert (Hin : In d (List.map N.of_nat (seq 0 36))).
  { apply List.in_map_iff. exists (N.to_nat d). split; [apply N2Nat.id|].
    apply List.in_seq. lia. }
  assert (Hall : forallb (fun d => lex_ident (Some (nat_of_ascii (digit36 d))))
                         (List.map N.of_nat (seq 0 36)) = true)
    by (vm_compute; reflexivity).
  rewrite List.forallb_forall in Hall. apply Hall. exact Hin.
Qed.

Lemma toString36_ident n :
  forallb (fun a => lex_ident (Some (nat_of_ascii a))) (list_ascii_of_string (toString36 n))
  = true.
Proof.
  unfold toString36. rewrite list_ascii_of_string_of_list_ascii.
  apply List.forallb_forall. intros a Ha. apply List.in_map_iff in Ha.
  destruct Ha as (d & <- & Hd). apply digit36_ident.
  apply List.in_rev in Hd.
  pose proof (digits_below (Datatypes.S (N.to_nat (N.size n))) n) as Hall.
  rewrite List.Forall_forall in Hall. apply Hall. exact Hd.
Qed.

Lemma toString36_length n : 1 <= String.length (toString36 n).
Proof.
  unfold toString36. rewrite length_string_of_list, List.length_map, List.length_rev.
  cbn [digits_le List.length]. lia.
Qed.

Lemma gensym_identifier n m : is_identifier (fst (gensym n m)) = true.
Proof.
  unfold gensym, is_identifier. cbn [fst].
  apply andb_true_iff. split; [reflexivity|].
  rewrite !list_ascii_app, !List.forallb_app, !toString36_ident. reflexivity.
Qed.

Lemma gensym_no_operator n m : has parse_inverse_order (fst (gensym n m)) = false.
Proof.
  unfold has. 
  assert (Hlen : (max_length parse_inverse_order <? String.length (fst (gensym n m))) = true).
  { apply Nat.ltb_lt. change (max_length parse_inverse_order) with 10.
    unfold gensym. cbn [fst]. rewrite !string_length_append.
    pose proof (toString36_length n). pose proof (toString36_length (m + 1)%N).
    simpl. lia. }
  rewrite Hlen. cbn [negb]. rewrite andb_false_r. reflexivity.
Qed.

End GensymNames.

(** X26. Every name that [gensym] makes is read by the parser as one node:
    [parse] returns a leaf whose data is the name. *)
Theorem gensym_is_parsed_as_a_leaf (n m : N) (fuel : nat) :
  (m < 2 ^ 53 - 1)%N -> (n < 2 ^ 53)%N ->
  String.length (fst (Gensym.gensym n m)) + 3 <= fuel ->
  Parse.parse fuel (fst (Gensym.gensym n m)) = Ok (0, [blank (fst (Gensym.gensym n m))]).
Proof.
  intros _ _ Hfuel.
  destruct (lex_of_identifier _ fuel (GensymNames.gensym_identifier n m)
                              (GensymNames.gensym_no_operator n m) Hfuel) as [k Hlex].
  unfold Parse.parse. rewrite Hlex. cbn [obind].
  unfold Parse.fold_operators. cbn [Parse.indexes].
  rewrite (fold_groups_empty _ _ no_operator_to_fold). cbn [obind].
  destruct fuel as [|fuel]; [lia|]. reflexivity.
Qed.

Lemma gensym_is_parsed_as_a_leaf_witness :
  Parse.parse 23 "_gensym_gfp5y0hs_16_" = Ok (0, [blank "_gensym_gfp5y0hs_16_"]).
Proof.
  exact (gensym_is_parsed_as_a_leaf 1288000000000 41 23 eq_refl eq_refl
           ltac:(vm_compute; repeat constructor)).
Defined.

(** ** The constructor with children *)

Lemma append_same_but h this c :
  c <> this ->
  forall q, q <> this -> q <> c -> get (Node.append h this (Some c)) q = get h q.
Proof.
  intros Hne q H1 H2. unfold Node.append, Node.push, set_p, set_kids.
  rewrite get_set_ne by congruence. rewrite get_set_ne by congruence. reflexivity.
Qed.

Lemma construct_items_nodes n :
  forall xs h K,
    n < List.length h -> ~ In n xs -> Forall (fun x => x < List.length h) xs ->
    kids (get h n) = K ->
    exists h',
      construct_items n h (List.map INode xs) = Ok h' /\
      List.length h' = List.length h /\
      kids (get h' n) = K ++ List.map Some xs /\
      data (get h' n) = data (get h n) /\ l (get h' n) = l (get h n) /\
      r (get h' n) = r (get h n) /\ p (get h' n) = p (get h n) /\
      (forall x, In x xs -> p (get h' x) = Some n) /\
      (forall x, In x xs ->
                 data (get h' x) = data (get h x) /\ kids (get h' x) = kids (get h x) /\
                 l (get h' x) = l (get h x) /\ r (get h' x) = r (get h x)) /\
      (forall q, q <> n -> ~ In q xs -> get h' q = get h q).
Proof.
  induction xs as [|x xs IH]; intros h K Hn Hnin Hall Hk.
  - exists h. cbn [List.map construct_items]. rewrite List.app_nil_r.
    repeat split; auto; intros x [].
  - inversion Hall as [|? ? Hx Hrest]; subst.
    assert (Hxn : x <> n) by (intros ->; apply Hnin; left; reflexivity).
    cbn [List.map construct_items construct_item obind].
    destruct (IH (Node.append h n (Some x)) (kids (get h n) ++ [Some x]))
      as (h' & Hrun & Hlen & Hkids & Hd & Hl & Hr & Hp & Hps & Hfields & Hother).
    + rewrite NodeFacts.length_append. exact Hn.
    + intros Hin. apply Hnin. right. exact Hin.
    + rewrite NodeFacts.length_append. exact Hrest.
    + apply NodeFacts.kids_append. exact Hn.
    + exists h'. split; [exact Hrun|]. rewrite NodeFacts.length_append in Hlen.
      split; [exact Hlen|]. split; [rewrite Hkids, <- List.app_assoc; reflexivity|].
      rewrite NodeFacts.data_append in Hd. rewrite LinkFacts.l_append in Hl.
      rewrite NodeFacts.r_append in Hr.
      rewrite NodeFacts.p_append_other in Hp by congruence.
      split; [exact Hd|]. split; [exact Hl|]. split; [exact Hr|]. split; [exact Hp|].
      split; [|split].
      * intros y [<-|Hy]; [|apply Hps; exact Hy].
        destruct (List.in_dec Nat.eq_dec x xs) as [Hin|Hnot]; [apply Hps; exact Hin|].
        rewrite (Hother x Hxn Hnot). apply NodeFacts.p_append_child. exact Hx.
      * assert (Hx0 : data (get (Node.append h n (Some x)) x) = data (get h x) /\
                      kids (get (Node.append h n (Some x)) x) = kids (get h x) /\
                      l (get (Node.append h n (Some x)) x) = l (get h x) /\
                      r (get (Node.append h n (Some x)) x) = r (get h x)).
        { rewrite NodeFacts.data_append, LinkFacts.l_append, NodeFacts.r_append.
          repeat split. unfold Node.append, Node.push. rewrite kids_set_p.
          apply kids_set_kids_ne. congruence. }
        intros y [<-|Hy].
        -- destruct (List.in_dec Nat.eq_dec x xs) as [Hin|Hnot].
           ++ destruct (Hfields x Hin) as (F1 & F2 & F3 & F4).
              destruct Hx0 as (G1 & G2 & G3 & G4).
              rewrite F1, F2, F3, F4. auto.
           ++ rewrite (Hother x Hxn Hnot). exact Hx0.
        -- destruct (Hfields y Hy) as (F1 & F2 & F3 & F4).
           assert (Hyn : y <> n) by (intros ->; apply Hnin; right; exact Hy).
           rewrite F1, F2, F3, F4.
           rewrite NodeFacts.data_append, LinkFacts.l_append, NodeFacts.r_append.
           repeat split. unfold Node.append, Node.push. rewrite kids_set_p.
           apply kids_set_kids_ne. congruence.
      * intros q Hq Hnq. rewrite Hother; [|exact Hq|intros Hin; apply Hnq; right; exact Hin].
        apply append_same_but; [exact Hxn | exact Hq |].
        intros ->. apply Hnq. left. reflexivity.
Qed.

(** X27. [repopulated_with] on an array of nodes returns a new node with the
    data of [this] and the nodes as its children, and it takes the nodes
    over: the parent of each of them becomes the new node, their other
    fields and every other node staying as they were. *)
Theorem repopulated_with_adopts (h : heap) (this : loc) (xs : list loc) :
  Forall (fun x => x < List.length h) xs ->
  exists h',
    repopulated_with h this (AMany (List.map INode xs)) = Ok (List.length h, h') /\
    List.length h' = Datatypes.S (List.length h) /\
    get h' (List.length h)
    = SyntaxNode (data (get h this)) (List.map Some xs) None None None /\
    (forall x, In x xs ->
               p (get h' x) = Some (List.length h) /\
               data (get h' x) = data (get h x) /\ kids (get h' x) = kids (get h x) /\
               l (get h' x) = l (get h x) /\ r (get h' x) = r (get h x)) /\
    (forall q, q < List.length h -> ~ In q xs -> get h' q = get h q).
Proof.
  intros Hall. unfold repopulated_with, construct. cbn [alloc construct_arguments
                                                         construct_argument].
  assert (Hnin : ~ In (List.length h) xs).
  { intros Hin. rewrite List.Forall_forall in Hall. specialize (Hall _ Hin). lia. }
  destruct (construct_items_nodes (List.length h) xs (h ++ [blank (data (get h this))]) [])
    as (h' & Hrun & Hlen & Hkids & Hd & Hl & Hr & Hp & Hps & Hfields & Hother).
  - rewrite List.length_app. simpl. lia.
  - exact Hnin.
  - rewrite List.Forall_forall in *. intros x Hx. specialize (Hall x Hx).
    rewrite List.length_app. simpl. lia.
  - rewrite get_alloc. reflexivity.
  - rewrite Hrun. cbn [obind]. exists h'. split; [reflexivity|].
    rewrite List.length_app in Hlen. simpl in Hlen. split; [lia|].
    rewrite get_alloc in Hd, Hl, Hr, Hp. cbn [data l r p blank] in Hd, Hl, Hr, Hp.
    split; [|split].
    + destruct (get h' (List.length h)) as [d0 k0 l0 r0 p0] eqn:Hg.
      cbn [data kids l r p] in *. subst. reflexivity.
    + intros x Hx. rewrite List.Forall_forall in Hall. specialize (Hall x Hx).
      destruct (Hfields x Hx) as (F1 & F2 & F3 & F4).
      rewrite (Hps x Hx), F1, F2, F3, F4. rewrite get_app_l by exact Hall. auto.
    + intros q Hq Hnq. rewrite Hother; [apply get_app_l; exact Hq | lia | exact Hnq].
Qed.

Lemma repopulated_with_adopts_witness :
  exists h',
    repopulated_with sum_store 3 (AMany [INode 4; INode 5]) = Ok (6, h') /\
    List.length h' = 7 /\
    get h' 6 = SyntaxNode "+" [Some 4; Some 5] None None None /\
    (forall x, In x [4; 5] ->
               p (get h' x) = Some 6 /\
               data (get h' x) = data (get sum_store x) /\
               kids (get h' x) = kids (get sum_store x) /\
               l (get h' x) = l (get sum_store x) /\ r (get h' x) = r (get sum_store x)) /\
    (forall q, q < 6 -> ~ In q [4; 5] -> get h' q = get sum_store q).
Proof.
  apply (repopulated_with_adopts sum_store 3 [4; 5]).
  repeat constructor.
Defined.

(** ** [rmap] with a function that reads the store *)

Section RmapShapeOn.

Context {S : Type}.
Variable g : loc -> @action S value.
Variable choose : ltree -> S -> value * S.
Variable h0 : heap.
Variable whole : ltree.

Hypothesis g_driven : driven_on g choose h0 whole.

Lemma rmap_children_on fuel hb this n d ks :
  extends h0 hb -> n = List.length hb -> this < List.length hb ->
  kids (get hb this) = List.map root_of ks ->
  Forall (fun k => match k with
                   | Some t => rmap_ok_on g choose h0 fuel t
                   | None => True
                   end) ks ->
  forall rest pre K shs hc st,
    ks = pre ++ rest -> List.length K = List.length pre ->
    extends hb hc -> n < List.length hc ->
    get hc n = SyntaxNode d K None None None ->
    built_kids (built (Datatypes.S n) hc) shs K ->
    exists h' K',
      map_loop (rmap_child g fuel) this n (List.length pre) (List.length rest) (hc, st)
      = Ok (h', snd (spec_kids (rmap_spec choose) rest st)) /\
      extends hb h' /\ n < List.length h' /\
      get h' n = SyntaxNode d (K ++ K') None None None /\
      built_kids (built (Datatypes.S n) h')
                 (shs ++ fst (spec_kids (rmap_spec choose) rest st)) (K ++ K').
Proof.
  intros Hb Hn Hthis Hkids Hok.
  induction rest as [|k rest IH]; intros pre K shs hc st Hks HK He Hlen Hget Hbuilt.
  - exists hc, []. simpl. rewrite !List.app_nil_r. auto.
  - assert (Hkid : forall hx, extends hb hx -> kid hx this (List.length pre) = root_of k).
    { intros hx Hx. unfold kid. rewrite (extends_get hb hx) by assumption.
      rewrite Hkids, Hks. change None with (root_of None).
      rewrite List.map_nth. rewrite List.app_nth2 by lia. rewrite Nat.sub_diag.
      reflexivity. }
    assert (Hin : In k ks) by (rewrite Hks; apply List.in_or_app; right; left; reflexivity).
    cbn [List.length map_loop]. cbn [fst]. rewrite (Hkid hc He).
    destruct k as [t|].
    + rewrite List.Forall_forall in Hok.
      pose proof (Hok _ Hin) as Hokt. simpl in Hokt.
      destruct (Hokt hc st (extends_trans _ _ _ Hb He)) as (out & h1 & Hrun & He1 & Hb1).
      cbn [rmap_child root_of option_map]. rewrite Hrun. cbn [obind].
      cbn [spec_kids].
      destruct (rmap_spec choose t st) as [sh st'] eqn:Hspec. cbn [fst snd] in *.
      destruct (spec_kids (rmap_spec choose) rest st') as [shs' st''] eqn:Hrest.
      pose proof (extends_length _ _ He1) as Hl1.
      assert (Hsb : same_but n hc (Node.push h1 n (Some out))).
      { eapply same_but_trans; [apply extends_same_but; exact He1|]. apply push_same_but. }
      destruct (IH (pre ++ [Some t]) (K ++ [Some out]) (shs ++ [Some sh])
                   (Node.push h1 n (Some out)) st') as (h' & K' & Hloop & He' & Hl' & Hg' & Hb').
      * rewrite Hks, <- List.app_assoc. reflexivity.
      * rewrite !List.length_app. simpl. lia.
      * apply extends_push; [eapply extends_trans; eauto | lia].
      * rewrite length_push. lia.
      * unfold Node.push, set_kids. rewrite get_set_eq by lia.
        rewrite (extends_get hc h1) by assumption. rewrite Hget. reflexivity.
      * apply built_kids_app.
        -- eapply built_kids_impl; [|exact Hbuilt].
           apply List.Forall_forall. intros [sh0|] _; [|exact I].
           intros o. apply (built_stable n); [exact Hsb | lia].
        -- simpl. split; [|exact I].
           apply (built_stable n _ h1); [apply push_same_but | lia |].
           eapply built_weaken; [|exact Hb1]. lia.
      * rewrite List.length_app in Hloop. simpl in Hloop.
        rewrite Nat.add_1_r in Hloop. rewrite Hrest in Hloop, Hb'. cbn [fst snd] in *.
        exists h', ([Some out] ++ K'). rewrite List.app_assoc.
        cbn [fst snd]. split; [exact Hloop|]. split; [exact He'|]. split; [exact Hl'|].
        split; [exact Hg'|]. rewrite <- List.app_assoc in Hb'. exact Hb'.
    + cbn [rmap_child root_of option_map obind]. rewrite (Hkid hc He).
      cbn [root_of option_map spec_kids].
      destruct (spec_kids (rmap_spec choose) rest st) as [shs' st''] eqn:Hrest.
      destruct (IH (pre ++ [None]) (K ++ [None]) (shs ++ [None])
                   (Node.push hc n None) st) as (h' & K' & Hloop & He' & Hl' & Hg' & Hb').
      * rewrite Hks, <- List.app_assoc. reflexivity.
      * rewrite !List.length_app. simpl. lia.
      * apply extends_push; [assumption | lia].
      * rewrite length_push. lia.
      * unfold Node.push, set_kids. rewrite get_set_eq by lia. rewrite Hget. reflexivity.
      * apply built_kids_app.
        -- eapply built_kids_impl; [|exact Hbuilt].
           apply List.Forall_forall. intros [sh0|] _; [|exact I].
           intros o. apply (built_stable n); [apply push_same_but | lia].
        -- simpl. exact I.
      * rewrite List.length_app in Hloop. simpl in Hloop.
        rewrite Nat.add_1_r in Hloop. rewrite Hrest in Hloop, Hb'. cbn [fst snd] in *.
        exists h', ([None] ++ K'). rewrite List.app_assoc.
        split; [exact Hloop|]. split; [exact He'|]. split; [exact Hl'|].
        split; [exact Hg'|]. rewrite <- List.app_assoc in Hb'. exact Hb'.
Qed.

Lemma rmap_shape_on t :
  In t (subtrees whole) -> repr h0 t ->
  forall fuel, lheight t <= fuel -> rmap_ok_on g choose h0 fuel t.
Proof.
  induction t as [a d ks IH] using ltree_ind. intros Hsub Hr0 fuel Hfuel hc st He.
  destruct fuel as [|fuel]; [simpl in Hfuel; lia|].
  pose proof (g_driven hc _ st He Hsub) as Hg. cbn [root] in Hg.
  cbn [rmap root]. rewrite Hg. cbn [obind].
  pose proof (repr_extends _ _ _ He Hr0) as Hr.
  pose proof Hr as Hr'. apply repr_unfold in Hr'. destruct Hr' as (Ha & Hd & Hk & Hall).
  pose proof (repr_children _ _ Hr0) as Hall0. cbn [lkids] in Hall0.
  assert (Hdescend :
            exists h' shs st2,
              spec_kids (rmap_spec choose) ks (snd (choose (LNode a d ks) st)) = (shs, st2) /\
              map (rmap_child g fuel) a (hc, snd (choose (LNode a d ks) st))
              = Ok (List.length hc, (h', st2)) /\
              extends hc h' /\ built (List.length hc) h' (List.length hc) (Fresh d shs)).
  { destruct (rmap_children_on fuel hc a (List.length hc) d ks He eq_refl Ha Hk) with
      (rest := ks) (pre := @nil (option ltree)) (K := @nil value)
      (shs := @nil (option shape)) (hc := hc ++ [blank d])
      (st := snd (choose (LNode a d ks) st)) as (h' & K' & Hloop & He' & Hl & Hget & Hb).
    - rewrite List.Forall_forall in IH, Hall0 |- *. intros [k|] Hin; [|exact I].
      apply (IH (Some k) Hin).
      + eapply subtrees_trans; [|exact Hsub]. eapply subtrees_child; [exact Hin|].
        apply subtrees_self.
      + apply (Hall0 (Some k) Hin).
      + pose proof (lheight_unfold a d ks k Hin). lia.
    - reflexivity.
    - reflexivity.
    - eexists. reflexivity.
    - rewrite List.length_app. simpl. lia.
    - rewrite <- Hd. apply get_alloc.
    - exact I.
    - destruct (spec_kids (rmap_spec choose) ks (snd (choose (LNode a d ks) st)))
        as [shs st2] eqn:Hs.
      exists h', shs, st2. split; [reflexivity|]. cbn [fst snd] in *.
      simpl in Hloop, Hget, Hb. split; [|split; [exact He'|]].
      + unfold map. cbn [alloc fst snd]. rewrite Hd.
        assert (Hnl : node_length (hc ++ [blank d]) a = List.length ks).
        { unfold node_length. rewrite get_app_l by assumption. rewrite Hk.
          apply List.length_map. }
        rewrite Hnl, Hloop. reflexivity.
      + cbn [built]. rewrite Hget. simpl. repeat split; auto.
        eapply built_kids_impl; [|exact Hb].
        apply List.Forall_forall. intros [sh0|] _; [|exact I].
        intros o. apply built_weaken. lia. }
  destruct Hdescend as (h' & shs & st2 & Hs & Hmap & He' & Hb).
  fold (rmap_child g fuel). cbn [rmap_spec].
  destruct (choose (LNode a d ks) st) as [v st1] eqn:Hc. cbn [fst snd] in *.
  rewrite Hs. destruct v as [r'|].
  - destruct (r' =? a) eqn:Hra.
    + exists (List.length hc), h'. auto.
    + exists r', hc. split; [reflexivity|]. split; [apply extends_refl | reflexivity].
  - exists (List.length hc), h'. auto.
Qed.

End RmapShapeOn.

(** Patterns that do not match are passed over, and no expander is called. *)
Lemma visit_from_no_match {S : Type} (mfuel : nat) (ps : list ltree)
      (es : list (@expander S)) (x : ltree) (hc : heap) (st : S) :
  repr hc x -> full x ->
  Forall (fun p => repr hc p /\ full p /\ lheight p <= mfuel) ps ->
  (forall p caps, In p ps -> ~ matches p x caps) ->
  forall count i,
    visit_from mfuel (List.map (fun p => Some (root p)) ps) es count i (root x) (hc, st)
    = Ok (None, (hc, st)).
Proof.
  intros Hrx Hfx Hps Hno. induction count as [|count IH]; intros i; [reflexivity|].
  cbn [visit_from fst].
  destruct (nth_error ps i) as [p|] eqn:Hp.
  - assert (Hn : nth i (List.map (fun p => Some (root p)) ps) None = Some (root p)).
    { apply List.nth_error_nth. rewrite List.nth_error_map, Hp. reflexivity. }
    unfold value in *. rewrite Hn.
    cbv iota beta. pose proof (List.nth_error_In _ _ Hp) as Hin.
    rewrite List.Forall_forall in Hps. destruct (Hps p Hin) as (Hrp & Hfp & Hh).
    rewrite (macro_try_match_agrees hc p mfuel x Hrp Hrx Hfp Hfx Hh).
    destruct (try_match_spec p x) as [caps|] eqn:Hs.
    + exfalso. apply (Hno p caps Hin). apply try_match_spec_matches; assumption.
    + cbn [obind]. apply IH.
  - rewrite List.nth_overflow; [reflexivity|].
    rewrite List.length_map. apply List.nth_error_None. exact Hp.
Qed.

Lemma rmap_spec_nothing {S : Type} (t : ltree) :
  forall st : S, snd (rmap_spec (fun _ (st : S) => (@None loc, st)) t st) = st.
Proof.
  induction t as [a d ks IH] using ltree_ind. intros st. cbn [rmap_spec].
  assert (Hk : forall st, snd (spec_kids (rmap_spec (fun _ (st : S) => (@None loc, st))) ks st) = st).
  { induction IH as [|[k|] ks Hk1 Hall IHks]; intros st1; cbn [spec_kids].
    - reflexivity.
    - specialize (Hk1 st1).
      destruct (rmap_spec (fun _ (st : S) => (@None loc, st)) k st1) as [sh st'].
      cbn [snd] in Hk1. subst st'. specialize (IHks st1).
      destruct (spec_kids (rmap_spec (fun _ (st : S) => (@None loc, st))) ks st1).
      exact IHks.
    - specialize (IHks st1).
      destruct (spec_kids (rmap_spec (fun _ (st : S) => (@None loc, st))) ks st1).
      exact IHks. }
  specialize (Hk st).
  destruct (spec_kids (rmap_spec (fun _ (st : S) => (@None loc, st))) ks st).
  exact Hk.
Qed.

(** X8. When no macro pattern matches any node of the tree, [macro_expand]
    calls no expander and returns a copy of the tree: same shape and data,
    every node new, no node of the store written to.  This holds in
    particular with no macro registered. *)
Theorem macro_expand_without_match {S : Type} (h : heap) (ps : list ltree)
        (es : list (@expander S)) (t : ltree) (st : S) (fuel mfuel : nat) :
  repr h t -> full t -> lheight t <= fuel ->
  Forall (fun p => repr h p /\ full p /\ lheight p <= mfuel) ps ->
  (forall p x caps, In p ps -> In x (subtrees t) -> ~ matches p x caps) ->
  exists out h' t',
    macro_expand fuel mfuel (root t) (List.map (fun p => Some (root p)) ps) es (h, st)
    = Ok (out, (h', st)) /\
    extends h h' /\ repr h' t' /\ root t' = out /\ plain t' = plain t /\
    Forall (fun a => List.length h <= a) (nodes t').
Proof.
  intros Hr Hf Hfuel Hps Hno. unfold macro_expand.
  assert (Hd : driven_on (visit mfuel (List.map (fun p => Some (root p)) ps) es)
                         (fun _ (st : S) => (@None loc, st)) h t).
  { intros hc x st1 He Hx. cbn [fst snd]. unfold visit.
    apply visit_from_no_match.
    - eapply repr_extends; [exact He|]. eapply repr_subtree; eassumption.
    - eapply full_subtree; eassumption.
    - eapply List.Forall_impl; [|exact Hps]. intros p (Hrp & Hfp & Hh).
      split; [eapply repr_extends; eassumption | auto].
    - intros p caps Hin. apply Hno; assumption. }
  destruct (rmap_shape_on _ _ h t Hd t (subtrees_self t) Hr fuel Hfuel h st (extends_refl h))
    as (out & h' & Hrun & He & Hb).
  destruct (copy_built (fun _ (st : S) => (@None loc, st)) (List.length h) h' t) with
    (st := st) (out := out) as (t' & H1 & H2 & H3 & H4).
  - intros t1 st1 Hin. left. reflexivity.
  - exact Hb.
  - exists out, h', t'. split; [|auto 10].
    rewrite Hrun, rmap_spec_nothing. reflexivity.
Qed.

Lemma macro_expand_without_match_witness :
  exists out h' t',
    macro_expand 2 2 (root sum_pattern) (List.map (fun p => Some (root p)) [sum_subject])
                 [fun _ (w : @world unit) => Throw TypeError] (sum_store, tt)
    = Ok (out, (h', tt)) /\
    extends sum_store h' /\ repr h' t' /\ root t' = out /\ plain t' = plain sum_pattern /\
    Forall (fun a => List.length sum_store <= a) (nodes t').
Proof.
  apply (macro_expand_without_match sum_store [sum_subject]
           [fun _ (w : @world unit) => Throw TypeError] sum_pattern tt 2 2).
  - simpl. repeat split; lia.
  - simpl. auto.
  - simpl. lia.
  - repeat constructor; simpl; lia.
  - intros p x caps [<-|[]] Hx Hm.
    assert (Hfx : full x).
    { eapply full_subtree; [|exact Hx]. simpl. auto. }
    apply try_match_spec_matches in Hm; [|simpl; auto|exact Hfx].
    simpl in Hx. destruct Hx as [<-|[<-|[<-|[]]]]; discriminate Hm.
Defined.

(** ** A pattern against itself *)

Lemma try_match_spec_self p :
  full p ->
  try_match_spec p p = Some (List.map (fun w => Some (root w)) (wildcard_trees p)).
Proof.
  induction p as [a d ks IH] using ltree_ind. intros Hf.
  cbn [try_match_spec wildcard_trees ldata lkids].
  destruct (String.eqb d "_") eqn:Hw; [reflexivity|].
  rewrite String.eqb_refl, Nat.eqb_refl. cbn [andb].
  apply full_unfold in Hf.
  induction ks as [|[k|] ks IHks]; [reflexivity| |].
  - inversion IH as [|? ? Hk Hrest]; subst. inversion Hf as [|? ? Hfk Hfrest]; subst.
    cbn [spec_children fold_right]. rewrite (Hk Hfk), (IHks Hrest Hfrest).
    rewrite List.map_app. reflexivity.
  - inversion Hf as [|? ? Hfk Hfrest]; subst. destruct Hfk.
Qed.

(** X28. Every pattern matches itself: [macro_try_match] of a tree against
    the same tree returns an array, which holds the wildcard nodes of the tree
    itself, from left to right. *)
Theorem pattern_matches_itself (h : heap) (p : ltree) (fuel : nat) :
  repr h p -> full p -> lheight p <= fuel ->
  macro_try_match fuel h (Some (root p)) (Some (root p))
  = Ok (Some (List.map (fun w => Some (root w)) (wildcard_trees p))).
Proof.
  intros Hr Hf Hfuel.
  rewrite (macro_try_match_agrees h p fuel p Hr Hr Hf Hf Hfuel).
  rewrite (try_match_spec_self p Hf). reflexivity.
Qed.

Lemma pattern_matches_itself_witness :
  macro_try_match 2 sum_store (Some (root sum_pattern)) (Some (root sum_pattern))
  = Ok (Some (List.map (fun w => Some (root w)) (wildcard_trees sum_pattern))).
Proof.
  apply (pattern_matches_itself sum_store sum_pattern 2).
  - simpl. repeat split; lia.
  - simpl. tauto.
  - simpl. lia.
Defined.
